(** * Predictable-IP allocation of the designate operator

    A shallow embedding of the address-pool code of the operator
    (package [designate]: the predictable-IP helpers and the ConfigMap
    backed [IPSetManager]) and of the pod annotation controller
    (package [controllers]), followed by the properties established
    about them.

    Conventions of the embedding:
    - a Go [string] is a [string] of bytes, a Go [int] a 64-bit integer
      carried in [Z];
    - a Go [map[string]string] is a [gmap string string]; where the code
      ranges over a map, the unspecified iteration order of the Go
      runtime is an explicit parameter ([MapRange]);
    - a Go [(T, error)] result is a [result T];
    - the API server reached through [client.Client] is an explicit
      state ([Client]) threaded through every call, with injectable
      failures; [controllerutil.CreateOrPatch], a call into the client
      library, is given under two accounts ([PatchReading]);
    - [net/netip] addresses are an interface ([Netip]) with an IPv4
      instance that follows the package. *)

From Stdlib Require Import ZArith String Ascii List Lia.
From stdpp Require Import base option gmap strings list pretty.

Open Scope Z_scope.

(** ** Errors and results *)

(** Go [error] values.  The first four are the status errors of the API
    server, of which the code tells apart the first two with
    [IsNotFound] and [IsConflict]; [Errorf] is [fmt.Errorf] without
    [%w], [Wrapf] is [fmt.Errorf] with [%w]; the sentinel
    [ErrPredictableIPOutOfAddresses] is declared by the package. *)
Inductive error : Type :=
| StatusNotFound
| StatusConflict
| StatusAlreadyExists
| StatusOther (reason : string)
| ErrSyntax (fn num : string)
| ErrRange (fn num : string)
| ErrPredictableIPOutOfAddresses
| Errorf (msg : string)
| Wrapf (msg : string) (inner : error).

Inductive result (A : Type) : Type :=
| Ok (a : A)
| Err (e : error).
Arguments Ok {A} a.
Arguments Err {A} e.

Definition isOk {A} (r : result A) : bool :=
  match r with Ok _ => true | Err _ => false end.

Definition isErr {A} (r : result A) : bool := negb (isOk r).

(** [errors.IsNotFound] and [errors.IsConflict] look through [%w]. *)
Fixpoint IsNotFound (e : error) : bool :=
  match e with
  | StatusNotFound => true
  | Wrapf _ inner => IsNotFound inner
  | _ => false
  end.

Fixpoint IsConflict (e : error) : bool :=
  match e with
  | StatusConflict => true
  | Wrapf _ inner => IsConflict inner
  | _ => false
  end.

(** ** Go strings *)

Definition dash : ascii := "-"%char.
Definition plus : ascii := "+"%char.

(** [strings.LastIndex(s, sep)] for a one-byte separator: the index of
    the last occurrence, [-1] when there is none. *)
Fixpoint LastIndex (s : string) (sep : ascii) : Z :=
  match s with
  | EmptyString => -1
  | String a r =>
      let i := LastIndex r sep in
      if 0 <=? i then i + 1
      else if Ascii.eqb a sep then 0 else -1
  end.

(** [s[n:]] *)
Fixpoint sliceFrom (n : nat) (s : string) : string :=
  match n, s with
  | O, _ => s
  | S n', String _ r => sliceFrom n' r
  | S _, EmptyString => EmptyString
  end.

(** [strings.HasPrefix] *)
Definition HasPrefix (s p : string) : bool := String.prefix p s.

(** [strings.TrimPrefix] *)
Definition TrimPrefix (s p : string) : string :=
  if HasPrefix s p then sliceFrom (String.length p) s else s.

(** [strings.Contains] *)
Fixpoint Contains (s sub : string) : bool :=
  HasPrefix s sub ||
  match s with
  | EmptyString => false
  | String _ r => Contains r sub
  end.

Definition isDigit (c : ascii) : bool :=
  (48 <=? Z.of_nat (nat_of_ascii c)) && (Z.of_nat (nat_of_ascii c) <=? 57).

Definition digitVal (c : ascii) : Z := Z.of_nat (nat_of_ascii c) - 48.

(** ** strconv.Atoi *)

Definition maxUint64 : Z := 2 ^ 64 - 1.
Definition maxInt : Z := 2 ^ 63 - 1.
Definition minInt : Z := - 2 ^ 63.

(** The digit loop of [strconv.ParseUint] in base 10 at 64 bits: a byte
    that is no decimal digit is a syntax error; running past [maxUint64]
    is a range error. *)
Fixpoint parseUintLoop (s0 s : string) (n : Z) : result Z :=
  match s with
  | EmptyString => Ok n
  | String c r =>
      if negb (isDigit c) then Err (ErrSyntax "ParseUint" s0)
      else if maxUint64 / 10 + 1 <=? n then Err (ErrRange "ParseUint" s0)
      else
        let n1 := n * 10 + digitVal c in
        if maxUint64 <? n1 then Err (ErrRange "ParseUint" s0)
        else parseUintLoop s0 r n1
  end.

(** [strconv.Atoi(s)], that is [ParseInt(s, 10, 0)] on a 64-bit
    platform: an optional sign, then at least one decimal digit. *)
Definition Atoi (s : string) : result Z :=
  match s with
  | EmptyString => Err (ErrSyntax "Atoi" s)
  | String c r =>
      let neg := Ascii.eqb c dash in
      let body := if Ascii.eqb c plus || Ascii.eqb c dash then r else s in
      match body with
      | EmptyString => Err (ErrSyntax "Atoi" s)
      | _ =>
          match parseUintLoop body body 0 with
          | Err (ErrRange _ _) => Err (ErrRange "Atoi" s)
          | Err _ => Err (ErrSyntax "Atoi" s)
          | Ok un =>
              if negb neg && (2 ^ 63 <=? un) then Err (ErrRange "Atoi" s)
              else if neg && (2 ^ 63 <? un) then Err (ErrRange "Atoi" s)
              else Ok (if neg then - un else un)
          end
      end
  end.

(** ** ExtractPodIndexFromName *)

(** ExtractPodIndexFromName extracts the pod index from a StatefulSet
    pod name; StatefulSet pods are named [{statefulset-name}-{ordinal}]. *)
Definition ExtractPodIndexFromName (podName : string) : result Z :=
  let lastDashIndex := LastIndex podName dash in
  if lastDashIndex =? -1 then
    Err (Errorf ("invalid pod name format: " +:+ podName))
  else
    let ordinalStr := sliceFrom (Z.to_nat (lastDashIndex + 1)) podName in
    match Atoi ordinalStr with
    | Err err => Err (Wrapf ("invalid ordinal in pod name " +:+ podName) err)
    | Ok ordinal => Ok ordinal
    end.

(** The part of a name after its last dash, when it has one. *)
Definition trailingToken (podName : string) : option string :=
  let i := LastIndex podName dash in
  if i =? -1 then None else Some (sliceFrom (Z.to_nat (i + 1)) podName).

(** A numeric ordinal as StatefulSet writes it: one or more decimal
    digits (the [^[0-9]+$] of the start-up script). *)
Definition allDigits (s : string) : bool :=
  forallb isDigit (list_ascii_of_string s).

Definition isNumericOrdinal (s : string) : bool :=
  negb (String.eqb s EmptyString) && allDigits s.

(** The value of a string of decimal digits. *)
Definition digitStep (n : Z) (c : ascii) : Z := n * 10 + digitVal c.

Definition decimalValue (s : string) : Z :=
  fold_left digitStep (list_ascii_of_string s) 0.

(** ** net/netip *)

(** What the code uses of [netip.Addr] and [netip.Prefix]: comparison
    with [==], [Next] and [String]. *)
Class Netip : Type := {
  Addr : Type;
  Prefix : Type;
  Addr_eq_dec :: EqDecision Addr;
  Next : Addr -> Addr;
  AddrString : Addr -> string;
}.

(** The [n]-th successor of an address. *)
Definition successor `{Netip} (n : nat) (ip : Addr) : Addr := Nat.iter n Next ip.

(** The IPv4 values of [netip.Addr] and what [Next] makes of them:
    [V4 n] is the address whose four bytes are the big-endian [uint32]
    [n]; [Invalid k] is an [Addr] without address family, [Invalid 0]
    being the zero [Addr] that [Next] returns on overflow. *)
Inductive IPv4 : Type :=
| V4 (n : Z)
| Invalid (k : Z).

Global Instance IPv4_eq_dec : EqDecision IPv4.
Proof. solve_decision. Defined.

Definition IPv4_Next (ip : IPv4) : IPv4 :=
  match ip with
  | V4 n => if (n + 1) mod 2 ^ 32 =? 0 then Invalid 0 else V4 (n + 1)
  | Invalid k => Invalid ((k + 1) mod 2 ^ 128)
  end.

Definition IPv4_String (ip : IPv4) : string :=
  match ip with
  | V4 n =>
      pretty (Z.land (Z.shiftr n 24) 255) +:+ "." +:+
      pretty (Z.land (Z.shiftr n 16) 255) +:+ "." +:+
      pretty (Z.land (Z.shiftr n 8) 255) +:+ "." +:+
      pretty (Z.land n 255)
  | Invalid _ => "invalid IP"
  end.

(** [netip.AddrFrom4([4]byte{a, b, c, d})] *)
Definition AddrFrom4 (a b c d : Z) : IPv4 :=
  V4 (Z.lor (Z.shiftl a 24) (Z.lor (Z.shiftl b 16) (Z.lor (Z.shiftl c 8) d))).

(** An IPv4 prefix: address and prefix length. *)
Record IPv4Prefix : Type := { prefixAddr : IPv4; prefixBits : Z }.

Definition IPv4_Netip : Netip :=
  {| Addr := IPv4; Prefix := IPv4Prefix;
     Next := IPv4_Next; AddrString := IPv4_String |}.

(** ** Network parameters *)

(** The fields of [NADIpam] and [NetworkParameters] that the code reads. *)
Record NADIpam `{Netip} : Type := {
  CIDR : Prefix;
  RangeStart : Addr;
  RangeEnd : Addr;
}.

Record NetworkParameters `{Netip} : Type := { npCIDR : Prefix }.

(** A [map[string]string]. *)
Abbreviation Table := (gmap string string).

(** The declarations of the package that the code refers to: the names
    of the bind and mdns ConfigMaps and the derivation of the pool range
    from the network parameters. *)
Class Package `{Netip} : Type := {
  BindPredIPConfigMap : string;
  MdnsPredIPConfigMap : string;
  GetPredictableIPAM : NetworkParameters -> result NADIpam;
}.

(** The order in which the Go runtime ranges over a map is not
    specified: any enumeration of the entries. *)
Class MapRange : Type := {
  rangeOver : Table -> list (string * string);
  rangeOver_perm : forall m, rangeOver m ≡ₚ map_to_list m;
}.

Definition SortedRange : MapRange :=
  {| rangeOver := map_to_list; rangeOver_perm := fun m => reflexivity _ |}.

(** ** Multus annotations *)

Record MultusNetworkConfig : Type := {
  mnName : string;
  mnNamespace : string;
  mnInterface : string;
  mnIPs : list string;
  mnMAC : string;
  mnDefaultRoute : list string;
}.

(** [encoding/json] applied to the network list. *)
Class Json : Type := { Marshal : list MultusNetworkConfig -> result string }.

(** CreateMultusAnnotation creates a Multus CNI annotation for pod
    specifications. *)
Definition CreateMultusAnnotation `{Json} (networks : list MultusNetworkConfig)
  : result string :=
  match networks with
  | [] => Ok EmptyString
  | _ =>
      match Marshal networks with
      | Err err => Err (Wrapf "failed to marshal networks to JSON" err)
      | Ok networksJSON => Ok networksJSON
      end
  end.

Section Predictable.
Context `{Netip}.

(** The loop of [GetPodPredictableIP] and of
    [CreatePredictableMultusAnnotation]:
    [for i := 0; i < podIndex; i++ { ip = ip.Next(); if ip == RangeEnd
    { return error } }], with [n] iterations left; [None] is the early
    return. *)
Fixpoint stepToIndex (n : nat) (ip rangeEnd : Addr) : option Addr :=
  match n with
  | O => Some ip
  | S n' =>
      let ip' := Next ip in
      if decide (ip' = rangeEnd) then None
      else stepToIndex n' ip' rangeEnd
  end.

(** GetPodPredictableIP calculates the predictable IP for a specific pod
    index. *)
Definition GetPodPredictableIP (predParams : NADIpam) (podIndex : Z)
  : result string :=
  match stepToIndex (Z.to_nat podIndex) (RangeStart predParams)
          (RangeEnd predParams) with
  | None =>
      Err (Errorf ("pod index " +:+ pretty podIndex +:+
                   " exceeds available IP range"))
  | Some ip => Ok (AddrString ip)
  end.

(** CreatePredictableMultusAnnotation creates a Multus CNI annotation
    with predictable IPs. *)
Definition CreatePredictableMultusAnnotation `{Json}
    (networkName interfaceName : string) (podIndex : Z) (predParams : NADIpam)
  : result string :=
  match stepToIndex (Z.to_nat podIndex) (RangeStart predParams)
          (RangeEnd predParams) with
  | None =>
      Err (Errorf ("pod index " +:+ pretty podIndex +:+
                   " exceeds available IP range"))
  | Some ip =>
      CreateMultusAnnotation
        [ {| mnName := networkName; mnNamespace := EmptyString;
             mnInterface := interfaceName; mnIPs := [AddrString ip];
             mnMAC := EmptyString; mnDefaultRoute := [] |} ]
  end.

(** One loop of [GeneratePredictableIPMaps]:
    [for i := 0; i < replicas; i++ { if ip == RangeEnd { break };
    m[prefix+i] = ip.String(); ip = ip.Next() }], with [n] iterations
    left; it hands back the map and the address it stopped at. *)
Fixpoint generateLoop (keyPrefix : string) (n : nat) (i : Z)
    (ip rangeEnd : Addr) (m : Table) : Table * Addr :=
  match n with
  | O => (m, ip)
  | S n' =>
      if decide (ip = rangeEnd) then (m, ip)
      else generateLoop keyPrefix n' (i + 1) (Next ip) rangeEnd
             (<[keyPrefix +:+ pretty i := AddrString ip]> m)
  end.

(** GeneratePredictableIPMaps creates IP maps for bind and mdns services
    based on network parameters. *)
Definition GeneratePredictableIPMaps (predParams : NADIpam)
    (bindReplicas mdnsReplicas : Z) : Table * Table :=
  let '(bindMap, ip) :=
    generateLoop "bind_address_" (Z.to_nat bindReplicas) 0
      (RangeStart predParams) (RangeEnd predParams) ∅ in
  let '(mdnsMap, _) :=
    generateLoop "mdns_address_" (Z.to_nat mdnsReplicas) 0
      ip (RangeEnd predParams) ∅ in
  (bindMap, mdnsMap).

(** The keys of the two maps: [fmt.Sprintf("bind_address_%d", i)] and
    [fmt.Sprintf("mdns_address_%d", i)]. *)
Definition bindKey (i : nat) : string := "bind_address_" +:+ pretty (Z.of_nat i).
Definition mdnsKey (j : nat) : string := "mdns_address_" +:+ pretty (Z.of_nat j).

(** The addresses at positions 0 to [t] from [ip] are all before the
    end of the range: position [t] fits. *)
Definition fits (rangeEnd ip : Addr) (t : nat) : Prop :=
  forall j, (j <= t)%nat -> successor j ip <> rangeEnd.

(** Modelled from the spec: [GetNextIP], which [allocatePredictableIPs]
    calls and whose source is not part of the files at hand.  The walk
    of the specification (4.3, steps 4 and 5): start at [RangeStart],
    follow [Next], skip every address whose text is excluded, select the
    first one that is not, and fail with the out-of-addresses error when
    the walk reaches [RangeEnd].  [fuel] bounds the number of addresses
    visited; [None] means the bound was hit before the walk ended. *)
Fixpoint nextIPWalk (fuel : nat) (candidate rangeEnd : Addr)
    (currentValues : gset string) : option (result string) :=
  match fuel with
  | O => None
  | S fuel' =>
      if decide (candidate = rangeEnd) then
        Some (Err ErrPredictableIPOutOfAddresses)
      else if decide (AddrString candidate ∈ currentValues) then
        nextIPWalk fuel' (Next candidate) rangeEnd currentValues
      else Some (Ok (AddrString candidate))
  end.

(** Modelled from the spec: [GetNextIP] (see [nextIPWalk]). *)
Definition GetNextIP (fuel : nat) (predParams : NADIpam)
    (currentValues : gset string) : option (result string) :=
  nextIPWalk fuel (RangeStart predParams) (RangeEnd predParams) currentValues.

End Predictable.

(** ** The API server as seen through [client.Client] *)

(** The fields of [corev1.ConfigMap] that the code touches. *)
Record ConfigMap : Type := {
  cmName : string;
  cmNamespace : string;
  cmLabels : Table;
  cmData : Table;
}.

(** [types.NamespacedName], as (namespace, name). *)
Abbreviation ObjectKey := (string * string)%type.

Definition ObjectKeyFromObject (cm : ConfigMap) : ObjectKey :=
  (cmNamespace cm, cmName cm).

(** What the API server keeps of a ConfigMap under its key. *)
Record StoredConfigMap : Type := {
  storedLabels : Table;
  storedData : Table;
}.

(** The ConfigMaps held by the API server, together with the failures
    it is going to answer with: a key in [getFaults] makes every read of
    that object fail with a status error of the given reason (never
    with NotFound, which is what an absent object gives), a key in
    [writeFaults] makes every write of it fail with the given error (a
    version conflict, for one). *)
Record Client : Type := {
  configMaps : gmap ObjectKey StoredConfigMap;
  getFaults : gmap ObjectKey string;
  writeFaults : gmap ObjectKey error;
}.

Definition storeConfigMap (c : Client) (key : ObjectKey) (cm : ConfigMap)
  : Client :=
  {| configMaps :=
       <[key := {| storedLabels := cmLabels cm; storedData := cmData cm |}]>
         (configMaps c);
     getFaults := getFaults c;
     writeFaults := writeFaults c |}.

(** [client.Get] of a ConfigMap. *)
Definition Get (c : Client) (key : ObjectKey) : result ConfigMap :=
  match getFaults c !! key with
  | Some reason => Err (StatusOther reason)
  | None =>
      match configMaps c !! key with
      | Some stored =>
          Ok {| cmName := snd key; cmNamespace := fst key;
                cmLabels := storedLabels stored; cmData := storedData stored |}
      | None => Err StatusNotFound
      end
  end.

(** [client.Update] of a ConfigMap: the object has to exist. *)
Definition Update (c : Client) (cm : ConfigMap) : option error * Client :=
  let key := ObjectKeyFromObject cm in
  match writeFaults c !! key with
  | Some e => (Some e, c)
  | None =>
      match configMaps c !! key with
      | None => (Some StatusNotFound, c)
      | Some _ => (None, storeConfigMap c key cm)
      end
  end.

(** [client.Create] of a ConfigMap: the object must not exist. *)
Definition Create (c : Client) (cm : ConfigMap) : option error * Client :=
  let key := ObjectKeyFromObject cm in
  match writeFaults c !! key with
  | Some e => (Some e, c)
  | None =>
      match configMaps c !! key with
      | None => (None, storeConfigMap c key cm)
      | Some _ => (Some StatusAlreadyExists, c)
      end
  end.

(** [client.Patch] of a ConfigMap with the difference between the object
    as read and the object given, nobody else writing in between: the
    object given becomes the record. *)
Definition Patch (c : Client) (cm : ConfigMap) : option error * Client :=
  Update c cm.

(** [controllerutil.CreateOrPatch] belongs to the client library, not to
    the repository.  Two accounts of it are given, and what is proved
    about [AllocateIP] is proved for both unless it names one:
    - [WritesObject], the write of the allocation store of the
      specification (4.2): the object handed over, after [mutate],
      becomes the record, which is created when absent;
    - [RefetchesObject], the steps of the library function: it first
      reads the record into the object handed over; when there is none
      it applies [mutate] and creates the object; when there is one,
      the object now is the record as stored, [mutate] is applied to
      it, and what [mutate] changed is patched (nothing is written when
      it changed nothing). *)
Inductive PatchReading : Type := WritesObject | RefetchesObject.

Class Controllerutil : Type := { patchReading : PatchReading }.

Global Instance ConfigMap_eq_dec : EqDecision ConfigMap.
Proof. solve_decision. Defined.

Definition CreateOrPatch `{Controllerutil} (c : Client) (cm : ConfigMap)
    (mutate : ConfigMap -> ConfigMap) : option error * Client :=
  let key := ObjectKeyFromObject cm in
  match patchReading with
  | WritesObject =>
      match writeFaults c !! key with
      | Some e => (Some e, c)
      | None => (None, storeConfigMap c key (mutate cm))
      end
  | RefetchesObject =>
      match Get c key with
      | Err err =>
          if IsNotFound err then Create c (mutate cm) else (Some err, c)
      | Ok found =>
          if decide (mutate found = found) then (None, c)
          else Patch c (mutate found)
      end
  end.

(** [configMap.Labels = labels], the mutation that [AllocateIP] hands
    to [CreateOrPatch]. *)
Definition withLabels (labels : Table) (cm : ConfigMap) : ConfigMap :=
  {| cmName := cmName cm; cmNamespace := cmNamespace cm;
     cmLabels := labels; cmData := cmData cm |}.

(** The table of a pool as the API server holds it. *)
Definition storedTable (c : Client) (key : ObjectKey) : option Table :=
  storedData <$> configMaps c !! key.

(** ** IPSetManager *)

(** IPSetManager manages IP sets using the original ConfigMap approach.
    The client it holds is the [Client] state passed to each method. *)
Record IPSetManager : Type := {
  setName : string;
  ns : string;
}.

Definition NewIPSetManager (setName namespace : string) : IPSetManager :=
  {| setName := setName; ns := namespace |}.

Definition poolKey (m : IPSetManager) : ObjectKey := (ns m, setName m).

Definition ipsetLabels : Table :=
  <["app.kubernetes.io/component" := "ipset"]>
    (<["app.kubernetes.io/name" := "designate"]> ∅).

(** handleConfigMap handles ConfigMap creation/retrieval. *)
Definition handleConfigMap (m : IPSetManager) (c : Client)
    (configMapName : string) (labels : Table) : result ConfigMap :=
  let nodeConfigMap :=
    {| cmName := configMapName; cmNamespace := ns m;
       cmLabels := labels; cmData := ∅ |} in
  match Get c (ns m, configMapName) with
  | Err err =>
      if IsNotFound err then Ok nodeConfigMap
      else Err err
  | Ok foundMap =>
      Ok {| cmName := configMapName; cmNamespace := ns m;
            cmLabels := labels; cmData := cmData foundMap |}
  end.

(** [for _, predIP := range data { allocatedIPs[predIP] = true }] *)
Definition markAllocated `{MapRange} (data : Table) (allocatedIPs : gset string)
  : gset string :=
  fold_left (fun acc kv => {[ snd kv ]} ∪ acc) (rangeOver data) allocatedIPs.

(** The two reads of the sibling ConfigMaps in [AllocateIP]: a failed
    read adds nothing. *)
Definition siblingAllocatedIPs `{MapRange} (c : Client) (namespace name : string)
    (allocatedIPs : gset string) : gset string :=
  match Get c (namespace, name) with
  | Ok cm => markAllocated (cmData cm) allocatedIPs
  | Err _ => allocatedIPs
  end.

Section Manager.
Context `{Netip} `{!Package} `{MapRange} `{Controllerutil}.

(** First loop of [allocatePredictableIPs]: scan the holders, keep the
    existing allocations, collect the holders that need an address. *)
Fixpoint scanHolders (ipHolders : list string) (existingMap updatedMap : Table)
    (predictableIPsRequired : list string) : Table * list string :=
  match ipHolders with
  | [] => (updatedMap, predictableIPsRequired)
  | ipHolder :: rest =>
      match existingMap !! ipHolder with
      | Some ipValue =>
          scanHolders rest existingMap (<[ipHolder := ipValue]> updatedMap)
            predictableIPsRequired
      | None =>
          scanHolders rest existingMap updatedMap
            (predictableIPsRequired ++ [ipHolder])
      end
  end.

(** Second loop of [allocatePredictableIPs]: an address from [GetNextIP]
    for every holder that needs one. *)
Fixpoint assignRequired (fuel : nat) (predictableIPParams : NADIpam)
    (predictableIPsRequired : list string) (allocatedIPs : gset string)
    (updatedMap : Table) : option (result Table) :=
  match predictableIPsRequired with
  | [] => Some (Ok updatedMap)
  | nodeName :: rest =>
      match GetNextIP fuel predictableIPParams allocatedIPs with
      | None => None
      | Some (Err err) => Some (Err err)
      | Some (Ok ipAddress) =>
          assignRequired fuel predictableIPParams rest allocatedIPs
            (<[nodeName := ipAddress]> updatedMap)
      end
  end.

(** allocatePredictableIPs allocates IPs using the original approach. *)
Definition allocatePredictableIPs (fuel : nat) (predictableIPParams : NADIpam)
    (ipHolders : list string) (existingMap : Table) (allocatedIPs : gset string)
  : option (result (Table * gset string)) :=
  let '(updatedMap, predictableIPsRequired) :=
    scanHolders ipHolders existingMap ∅ [] in
  match assignRequired fuel predictableIPParams predictableIPsRequired
          allocatedIPs updatedMap with
  | None => None
  | Some (Err err) => Some (Err err)
  | Some (Ok updatedMap) => Some (Ok (updatedMap, allocatedIPs))
  end.

(** The holder key of a pod: [fmt.Sprintf("pod_%d", podIndex)]. *)
Definition podKeyOf (podIndex : Z) : string := "pod_" +:+ pretty podIndex.

(** AllocateIP allocates an IP using the original ConfigMap approach.
    The result is [None] when the address walk did not end within
    [fuel] steps. *)
Definition AllocateIP (m : IPSetManager) (fuel : nat) (c : Client)
    (ipRange : Prefix) (podIndex : Z) : option (result string * Client) :=
  let networkParams := {| npCIDR := ipRange |} in
  match GetPredictableIPAM networkParams with
  | Err err =>
      Some (Err (Wrapf "failed to get predictable IP parameters" err), c)
  | Ok predictableIPParams =>
      let podKey := podKeyOf podIndex in
      let ipHolders := [podKey] in
      let labels := ipsetLabels in
      match handleConfigMap m c (setName m) labels with
      | Err err => Some (Err (Wrapf "failed to handle ConfigMap" err), c)
      | Ok configMap =>
          let allocatedIPs : gset string := ∅ in
          let allocatedIPs :=
            siblingAllocatedIPs c (ns m) BindPredIPConfigMap allocatedIPs in
          let allocatedIPs :=
            siblingAllocatedIPs c (ns m) MdnsPredIPConfigMap allocatedIPs in
          match allocatePredictableIPs fuel predictableIPParams ipHolders
                  (cmData configMap) allocatedIPs with
          | None => None
          | Some (Err err) =>
              Some (Err (Wrapf "failed to allocate predictable IPs" err), c)
          | Some (Ok (updatedMap, _)) =>
              let configMap :=
                {| cmName := cmName configMap;
                   cmNamespace := cmNamespace configMap;
                   cmLabels := cmLabels configMap;
                   cmData := updatedMap |} in
              match CreateOrPatch c configMap (withLabels labels) with
              | (Some err, c') =>
                  Some (Err (Wrapf "failed to create or patch ConfigMap" err), c')
              | (None, c') =>
                  match updatedMap !! podKey with
                  | Some allocatedIP => Some (Ok allocatedIP, c')
                  | None =>
                      Some (Err (Errorf ("failed to allocate IP for pod " +:+
                                         pretty podIndex)), c')
                  end
              end
          end
      end
  end.

(** [for _, existingIP := range data { if existingIP == ip { return true } }] *)
Definition findValue (ip : string) (entries : list (string * string))
  : option (string * string) :=
  List.find (fun kv => String.eqb (snd kv) ip) entries.

(** IsIPAllocated checks if an IP is already allocated. *)
Definition IsIPAllocated (m : IPSetManager) (c : Client) (ip : string) : bool :=
  match Get c (poolKey m) with
  | Err _ => false
  | Ok configMap =>
      match findValue ip (rangeOver (cmData configMap)) with
      | Some _ => true
      | None => false
      end
  end.

(** ReleaseIP removes an IP from the set. *)
Definition ReleaseIP (m : IPSetManager) (c : Client) (ip : string)
  : option error * Client :=
  match Get c (poolKey m) with
  | Err err => (Some err, c)
  | Ok configMap =>
      match findValue ip (rangeOver (cmData configMap)) with
      | Some (key, _) =>
          Update c {| cmName := cmName configMap;
                      cmNamespace := cmNamespace configMap;
                      cmLabels := cmLabels configMap;
                      cmData := delete key (cmData configMap) |}
      | None => (None, c)
      end
  end.

End Manager.

(** ** The pod annotation controller *)

Inductive PodPhase : Type :=
| PodPhaseUnset | PodPending | PodRunning | PodSucceeded | PodFailed | PodUnknown.

Global Instance PodPhase_eq_dec : EqDecision PodPhase.
Proof. solve_decision. Defined.

Record OwnerReference : Type := {
  ownerKind : string;
  ownerName : string;
}.

(** The fields of [corev1.Pod] that the controller reads or writes.
    [podAnnotations] is [None] for a nil map. *)
Record Pod : Type := {
  podName : string;
  podNamespace : string;
  podLabels : Table;
  podAnnotations : option Table;
  podOwnerReferences : list OwnerReference;
  podDeletionTimestamp : option Z;
  podPhase : PodPhase;
}.

(** [m[k]] on a [map[string]string]: the empty string for a missing key. *)
Definition mapIndex (m : Table) (k : string) : string := default EmptyString (m !! k).

(** [pod.Annotations[k]]; reading a nil map gives the empty string. *)
Definition annotation (pod : Pod) (k : string) : string :=
  mapIndex (default ∅ (podAnnotations pod)) k.

Definition withAnnotations (pod : Pod) (a : Table) : Pod :=
  {| podName := podName pod; podNamespace := podNamespace pod;
     podLabels := podLabels pod; podAnnotations := Some a;
     podOwnerReferences := podOwnerReferences pod;
     podDeletionTimestamp := podDeletionTimestamp pod;
     podPhase := podPhase pod |}.

(** [ctrl.Result] *)
Record Result : Type := { Requeue : bool; RequeueAfter : Z }.

Definition noRequeue : Result := {| Requeue := false; RequeueAfter := 0 |}.

(** What a run of the controller does besides changing ConfigMaps, in
    order: log lines, calls to the API server about the pod, sleeps (in
    nanoseconds, as [time.Duration]) and address releases. *)
Inductive Event : Type :=
| EvLogInfo (msg : string)
| EvLogError (err : error) (msg : string)
| EvUpdate (attempt : Z) (pod : Pod)
| EvGet (attempt : Z)
| EvSleep (d : Z)
| EvReleaseIP (ipset ip : string).

(** The answers of the API server to the pod calls of the retry loop,
    by attempt: to [Update] of the pod as sent, and to the [Get] that
    re-fetches it. *)
Record PodAPI : Type := {
  updateReply : Z -> Pod -> option error;
  getReply : Z -> result Pod;
}.

Definition designateServices : list string :=
  ["designate-backendbind9"; "designate-mdns"; "designate-unbound"].

(** isDesignatePod checks if the pod is a designate pod that needs
    predictable IP annotations. *)
Definition isDesignatePod (pod : Pod) : bool :=
  if String.eqb (mapIndex (podLabels pod) "app.kubernetes.io/name") "designate"
  then true
  else if existsb (fun owner =>
                     String.eqb (ownerKind owner) "StatefulSet" &&
                     existsb (fun service => Contains (ownerName owner) service)
                       designateServices)
            (podOwnerReferences pod)
  then true
  else existsb (fun service =>
                  HasPrefix (podName pod) (service +:+ "-") &&
                  match TrimPrefix (podName pod) (service +:+ "-") with
                  | String c _ => isDigit c
                  | EmptyString => false
                  end)
         designateServices.

(** mergeAnnotations merges new annotations into existing ones. *)
Definition mergeAnnotations `{MapRange} (existing : option Table) (new : Table)
  : Table :=
  let existing := match existing with None => ∅ | Some e => e end in
  fold_left (fun acc kv => <[fst kv := snd kv]> acc) (rangeOver new) existing.

Definition maxRetries : Z := 5.
Definition Millisecond : Z := 1000000.
Definition baseDelay : Z := 100 * Millisecond.

(** The loop of [updatePodAnnotationsWithRetry], with [n] iterations
    left, [attempt] being the loop counter. *)
Fixpoint retryLoop `{MapRange} (api : PodAPI) (n : nat) (attempt : Z) (pod : Pod)
    (annotations : Table) : option error * Pod * list Event :=
  match n with
  | O =>
      (Some (Errorf ("failed to update pod annotations after " +:+
                     pretty maxRetries +:+ " attempts due to conflicts")),
       pod, [])
  | S n' =>
      let pod := withAnnotations pod
                   (mergeAnnotations (podAnnotations pod) annotations) in
      match updateReply api attempt pod with
      | None => (None, pod, [EvUpdate attempt pod])
      | Some err =>
          if IsConflict err then
            let logged :=
              EvLogInfo ("Pod " +:+ podName pod +:+
                         " was modified by another controller, retrying (attempt "
                         +:+ pretty (attempt + 1) +:+ "/" +:+ pretty maxRetries
                         +:+ ")") in
            match getReply api attempt with
            | Err err =>
                (Some (Wrapf "failed to re-fetch pod after conflict" err), pod,
                 [EvUpdate attempt pod; logged; EvGet attempt])
            | Ok freshPod =>
                let slept :=
                  if attempt <? maxRetries - 1
                  then [EvSleep (baseDelay * Z.shiftl 1 attempt)]
                  else [] in
                let '(r, pod', evs) :=
                  retryLoop api n' (attempt + 1) freshPod annotations in
                (r, pod',
                 [EvUpdate attempt pod; logged; EvGet attempt] ++ slept ++ evs)
            end
          else
            (Some (Wrapf "failed to update pod annotations" err), pod,
             [EvUpdate attempt pod])
      end
  end.

(** updatePodAnnotationsWithRetry updates pod annotations with retry
    logic to handle race conditions. *)
Definition updatePodAnnotationsWithRetry `{MapRange} (api : PodAPI) (pod : Pod)
    (annotations : Table) : option error * Pod * list Event :=
  retryLoop api (Z.to_nat maxRetries) 0 pod annotations.

(** What a reconciliation hands back: the [(ctrl.Result, error)] pair,
    the ConfigMaps afterwards and the events. *)
Abbreviation Outcome := ((Result * option error) * Client * list Event)%type.

(** handlePodDeletion releases the IP from ipset ConfigMap when pod is
    deleted. *)
Definition handlePodDeletion `{MapRange} (c : Client) (pod : Pod) : Outcome :=
  let predictableIP := annotation pod "designate.openstack.org/predictable-ip" in
  let ipsetName := annotation pod "designate.openstack.org/ipset-name" in
  if negb (String.eqb predictableIP EmptyString) &&
     negb (String.eqb ipsetName EmptyString) then
    let ipsetMgr := NewIPSetManager ipsetName "openstack" in
    match ReleaseIP ipsetMgr c predictableIP with
    | (Some err, c') =>
        ((noRequeue, None), c',
         [EvReleaseIP ipsetName predictableIP;
          EvLogError err ("Failed to release IP " +:+ predictableIP +:+
                          " from ipset ConfigMap " +:+ ipsetName)])
    | (None, c') =>
        ((noRequeue, None), c',
         [EvReleaseIP ipsetName predictableIP;
          EvLogInfo ("Released IP " +:+ predictableIP +:+
                     " from ipset ConfigMap " +:+ ipsetName)])
    end
  else ((noRequeue, None), c, []).

(** The collaborators of [Reconcile] outside the two packages: the
    parent Designate resource, its network attachment definition and the
    network parameters read from it, which give the attachment name and
    the pool parameters, or the first error on the way with the line
    that [Reconcile] logs for it. *)
Class Network `{Netip} : Type := {
  resolveNetwork : Client -> Pod -> (string * error) + (string * NADIpam);
}.

Section Reconciler.
Context `{Netip} `{!Package} `{!Network} `{MapRange} `{Json} `{Controllerutil}.

(** createIPSetAnnotations creates pod annotations using ipset
    ConfigMaps for IP allocation. *)
Definition createIPSetAnnotations (fuel : nat) (c : Client)
    (networkName interfaceName : string) (podIndex : Z) (predParams : NADIpam)
  : option (result Table * Client * list Event) :=
  let ipsetName := "designate-" +:+ networkName in
  let ipsetMgr := NewIPSetManager ipsetName "openstack" in
  match AllocateIP ipsetMgr fuel c (CIDR predParams) podIndex with
  | None => None
  | Some (Err err, c') =>
      Some (Err (Wrapf "failed to allocate IP via ipset ConfigMap" err), c', [])
  | Some (Ok predictableIP, c') =>
      let logged :=
        EvLogInfo ("Allocated IP " +:+ predictableIP +:+ " for pod index " +:+
                   pretty podIndex +:+ " via ipset ConfigMap") in
      match CreateMultusAnnotation
              [ {| mnName := networkName; mnNamespace := EmptyString;
                   mnInterface := interfaceName; mnIPs := [predictableIP];
                   mnMAC := EmptyString; mnDefaultRoute := [] |} ] with
      | Err err => Some (Err err, c', [logged])
      | Ok multusAnnotation =>
          let annotations : Table :=
            <["designate.openstack.org/ipset-name" := ipsetName]>
              (<["designate.openstack.org/pod-index" := pretty podIndex]>
                 (<["designate.openstack.org/predictable-ip" := predictableIP]>
                    (<["k8s.v1.cni.cncf.io/networks" := multusAnnotation]> ∅))) in
          Some (Ok annotations, c', [logged])
      end
  end.

(** Reconcile is part of the main kubernetes reconciliation loop.
    [podGet] is the answer of the API server to the [Get] of the
    requested pod; the result is [None] when the address walk of the
    allocation did not end within [fuel] steps. *)
Definition Reconcile (fuel : nat) (api : PodAPI) (c : Client)
    (podGet : result Pod) : option Outcome :=
  let started := EvLogInfo "Reconciling Pod for predictable IP annotations" in
  match podGet with
  | Err err =>
      if IsNotFound err then
        Some ((noRequeue, None), c,
              [started;
               EvLogInfo "Pod resource not found. Ignoring since object must be deleted"])
      else
        Some ((noRequeue, Some err), c, [started; EvLogError err "Failed to get Pod"])
  | Ok pod =>
      if negb (isDesignatePod pod) then Some ((noRequeue, None), c, [started])
      else if bool_decide (podDeletionTimestamp pod <> None) then
        let '(r, c', evs) := handlePodDeletion c pod in
        Some (r, c', started :: evs)
      else if negb (String.eqb
                      (annotation pod "designate.openstack.org/predictable-ip")
                      EmptyString) then
        Some ((noRequeue, None), c,
              [started;
               EvLogInfo "Pod already has predictable IP annotations, skipping"])
      else if bool_decide (podPhase pod = PodSucceeded) ||
              bool_decide (podPhase pod = PodFailed) then
        Some ((noRequeue, None), c,
              [started; EvLogInfo "Pod is in terminal state, skipping annotation"])
      else
        match ExtractPodIndexFromName (podName pod) with
        | Err err =>
            Some ((noRequeue, Some err), c,
                  [started;
                   EvLogError err "Failed to extract pod index from pod name"])
        | Ok podIndex =>
            match resolveNetwork c pod with
            | inl (msg, err) =>
                Some ((noRequeue, Some err), c, [started; EvLogError err msg])
            | inr (networkName, predictableIPParams) =>
                let interfaceName := "designate" in
                match createIPSetAnnotations fuel c networkName interfaceName
                        podIndex predictableIPParams with
                | None => None
                | Some (Err err, c', evs) =>
                    Some ((noRequeue, Some err), c',
                          started :: evs ++
                          [EvLogError err "Failed to create ipset annotations"])
                | Some (Ok annotations, c', evs) =>
                    match updatePodAnnotationsWithRetry api pod annotations with
                    | (Some err, _, evs') =>
                        Some ((noRequeue, Some err), c',
                              started :: evs ++ evs' ++
                              [EvLogError err
                                 "Failed to update pod annotations after retries"])
                    | (None, _, evs') =>
                        Some ((noRequeue, None), c',
                              started :: evs ++ evs' ++
                              [EvLogInfo
                                 ("Successfully added predictable IP annotations to pod "
                                  +:+ podName pod +:+ ": " +:+
                                  mapIndex annotations
                                    "designate.openstack.org/predictable-ip")])
                    end
                end
            end
        end
  end.

End Reconciler.

(** ** Reading a trace *)

(** The attempts of the [Update] calls, of the re-fetches, and the
    durations slept, in order. *)
Definition updateAttempts (evs : list Event) : list Z :=
  omap (fun e => match e with EvUpdate a _ => Some a | _ => None end) evs.

Definition refetches (evs : list Event) : list Z :=
  omap (fun e => match e with EvGet a => Some a | _ => None end) evs.

Definition sleeps (evs : list Event) : list Z :=
  omap (fun e => match e with EvSleep d => Some d | _ => None end) evs.

Definition releases (evs : list Event) : list (string * string) :=
  omap (fun e => match e with EvReleaseIP s ip => Some (s, ip) | _ => None end) evs.

(** ** Sequences of allocations *)

Section Sequences.
Context `{Netip} `{!Package} `{MapRange} `{Controllerutil}.

(** The exclusion set that [AllocateIP] assembles: the values of the
    bind and of the mdns ConfigMap, as far as they can be read. *)
Definition exclusions (m : IPSetManager) (c : Client) : gset string :=
  siblingAllocatedIPs c (ns m) MdnsPredIPConfigMap
    (siblingAllocatedIPs c (ns m) BindPredIPConfigMap ∅).

(** The record that [AllocateIP] hands to [CreateOrPatch] for a holder
    and its address. *)
Definition written (m : IPSetManager) (podIndex : Z) (ip : string) : ConfigMap :=
  {| cmName := setName m; cmNamespace := ns m; cmLabels := ipsetLabels;
     cmData := {[ podKeyOf podIndex := ip ]} |}.

(** One [AllocateIP] per pod index, in order, each on the state the
    previous one left. *)
Fixpoint allocateEach (m : IPSetManager) (fuel : nat) (c : Client)
    (ipRange : Prefix) (podIndexes : list Z)
  : option (list (result string) * Client) :=
  match podIndexes with
  | [] => Some ([], c)
  | podIndex :: rest =>
      match AllocateIP m fuel c ipRange podIndex with
      | None => None
      | Some (r, c') =>
          match allocateEach m fuel c' ipRange rest with
          | None => None
          | Some (rs, c'') => Some (r :: rs, c'')
          end
      end
  end.

(** The last steps of [AllocateIP] for a holder and its address: the
    write with [CreateOrPatch] and the return. *)
Definition persist (m : IPSetManager) (c : Client) (podIndex : Z) (ip : string)
  : option (result string * Client) :=
  match CreateOrPatch c (written m podIndex ip) (withLabels ipsetLabels) with
  | (Some err, c') =>
      Some (Err (Wrapf "failed to create or patch ConfigMap" err), c')
  | (None, c') => Some (Ok ip, c')
  end.

End Sequences.

(** ** A concrete pool *)

(** The pool of the end-to-end scenario: the range from 10.0.0.1 to
    10.0.0.5, the end excluded. *)
Definition examplePool : @NADIpam IPv4_Netip :=
  {| CIDR := ({| prefixAddr := AddrFrom4 10 0 0 0; prefixBits := 24 |}
              : @Prefix IPv4_Netip);
     RangeStart := (AddrFrom4 10 0 0 1 : @Addr IPv4_Netip);
     RangeEnd := (AddrFrom4 10 0 0 5 : @Addr IPv4_Netip) |}.

(** A pool whose range is empty: the start is the end. *)
Definition emptyRangePool : @NADIpam IPv4_Netip :=
  {| CIDR := ({| prefixAddr := AddrFrom4 10 0 0 0; prefixBits := 24 |}
              : @Prefix IPv4_Netip);
     RangeStart := (AddrFrom4 10 0 0 1 : @Addr IPv4_Netip);
     RangeEnd := (AddrFrom4 10 0 0 1 : @Addr IPv4_Netip) |}.

(** A package whose pool range is [examplePool] for every prefix. *)
Definition examplePackage : @Package IPv4_Netip :=
  {| BindPredIPConfigMap := "designate-bind-ip-map";
     MdnsPredIPConfigMap := "designate-mdns-ip-map";
     GetPredictableIPAM := fun _ => Ok examplePool |}.

Definition exampleManager : IPSetManager :=
  NewIPSetManager "designate-designate" "openstack".

(** An API server without ConfigMaps and without failures. *)
Definition emptyClient : Client :=
  {| configMaps := ∅; getFaults := ∅; writeFaults := ∅ |}.

(** An API server that holds one ConfigMap, without failures. *)
Definition clientWith (key : ObjectKey) (data : Table) : Client :=
  {| configMaps := {[ key := {| storedLabels := ipsetLabels; storedData := data |} ]};
     getFaults := ∅; writeFaults := ∅ |}.

Definition examplePod (name : string) (annotations : option Table)
    (deleted : option Z) : Pod :=
  {| podName := name; podNamespace := "openstack"; podLabels := ∅;
     podAnnotations := annotations; podOwnerReferences := [];
     podDeletionTimestamp := deleted; podPhase := PodRunning |}.

(** A managed pod with both annotations whose deletion is requested. *)
Definition deletedPod : Pod :=
  examplePod "designate-backendbind9-1"
    (Some {[ "designate.openstack.org/predictable-ip" := "10.0.0.2";
             "designate.openstack.org/ipset-name" := "designate-designate" ]})
    (Some 1700000000).

(** An API server that holds the bind ConfigMap with one address and
    answers every read of it with an error. *)
Definition unreadableSiblingClient : Client :=
  {| configMaps :=
       {[ ("openstack", "designate-bind-ip-map") :=
            {| storedLabels := ∅;
               storedData := {[ "bind_address_0" := "10.0.0.1" ]} |} ]};
     getFaults :=
       {[ ("openstack", "designate-bind-ip-map") := "InternalError" ]};
     writeFaults := ∅ |}.

Definition exampleNetwork : @Network IPv4_Netip :=
  {| resolveNetwork := fun _ _ => inr ("designate", examplePool) |}.

Definition exampleJson : Json := {| Marshal := fun _ => Ok "[]" |}.

(** The two accounts of [CreateOrPatch]. *)
Definition specWrite : Controllerutil := {| patchReading := WritesObject |}.
Definition libraryPatch : Controllerutil := {| patchReading := RefetchesObject |}.

(** ** The verdict on one attempt of the retry loop *)

(** The error of [updatePodAnnotationsWithRetry] when every attempt met
    a conflict. *)
Definition exhaustedError : error :=
  Errorf "failed to update pod annotations after 5 attempts due to conflicts".

(** What holds of one attempt [a'] that sent [p], in a run that ended
    with [r] after the attempt [last] and made the re-fetches [gets]. *)
Definition attemptVerdict (api : PodAPI) (r : option error) (gets : list Z)
    (last a' : Z) (p : Pod) : Prop :=
  match updateReply api a' p with
  | None => r = None /\ a' = last
  | Some err =>
      if IsConflict err then
        (a' ∈ gets) /\
        match getReply api a' with
        | Err e =>
            r = Some (Wrapf "failed to re-fetch pod after conflict" e) /\
            a' = last
        | Ok _ =>
            a' < last \/ (a' = maxRetries - 1 /\ a' = last /\ r = Some exhaustedError)
        end
      else r = Some (Wrapf "failed to update pod annotations" err) /\ a' = last
  end.

(** ** Names of the ConfigMaps of a service *)

(** GetScriptConfigMapName returns the name of the ConfigMap used for
    the config merger and the service init scripts:
    [fmt.Sprintf("%s-scripts", crName)]. *)
Definition GetScriptConfigMapName (crName : string) : string :=
  crName +:+ "-scripts".

(** GetServiceConfigConfigMapName returns the name of the ConfigMap used
    to store the service configuration files:
    [fmt.Sprintf("%s-config-data", crName)]. *)
Definition GetServiceConfigConfigMapName (crName : string) : string :=
  crName +:+ "-config-data".

(** ** Per-pod annotations *)

Section PerPod.
Context `{Netip} `{Json}.

(** CreatePerPodPredictableAnnotations creates annotations for a
    specific pod based on its index. *)
Definition CreatePerPodPredictableAnnotations
    (networkName interfaceName : string) (podIndex : Z) (predParams : NADIpam)
  : result Table :=
  match GetPodPredictableIP predParams podIndex with
  | Err err => Err err
  | Ok predictableIP =>
      match CreateMultusAnnotation
              [ {| mnName := networkName; mnNamespace := EmptyString;
                   mnInterface := interfaceName; mnIPs := [predictableIP];
                   mnMAC := EmptyString; mnDefaultRoute := [] |} ] with
      | Err err => Err err
      | Ok multusAnnotation =>
          Ok (<["designate.openstack.org/pod-index" := pretty podIndex]>
                (<["designate.openstack.org/predictable-ip" := predictableIP]>
                   (<["k8s.v1.cni.cncf.io/networks" := multusAnnotation]>
                      (∅ : Table))))
      end
  end.

End PerPod.

(** ** Volumes of the bind9 backend pods (package designatebackendbind9) *)

(** The two volume sources in use, with the fields that are set. *)
Inductive VolumeSource : Type :=
| Secret (DefaultMode : Z) (SecretName : string)
| EmptyDir (Medium : string).

(** [corev1.Volume] and [corev1.VolumeMount], with the fields that are
    set; a [SubPath] that is not given is the empty string. *)
Record Volume : Type := {
  volumeName : string;
  volumeSource : VolumeSource;
}.

Record VolumeMount : Type := {
  mountName : string;
  MountPath : string;
  SubPath : string;
  ReadOnly : bool;
}.

Definition scriptVolume : string := "designatebackendbind9-scripts".
Definition configVolume : string := "designatebackendbind9-config-data".
Definition namedConfigVolume : string := "designatebackendbind9-config-named".
Definition mergedConfigVolume : string := "designatebackendbind9-config-data-merged".
Definition logVolume : string := "designatebackendbind9-log-volume".
Definition rndcKeys : string := "designatebackendbind9-keys".

(** PVCSuffix is the suffix used for PVC names. *)
Definition PVCSuffix : string := "-designate-bind".

(** The file modes [0755] and [0640], octal in the source. *)
Definition scriptMode : Z := 7 * 64 + 5 * 8 + 5.
Definition configMode : Z := 6 * 64 + 4 * 8 + 0.

(** [DesignateBindKeySecret] is a constant of package [designate] that
    the files at hand do not declare; it is an argument here. *)
Definition getServicePodVolumes (DesignateBindKeySecret : string)
    (baseConfigMapName : string) : list Volume :=
  [ {| volumeName := scriptVolume;
       volumeSource := Secret scriptMode (baseConfigMapName +:+ "-scripts") |};
    {| volumeName := configVolume;
       volumeSource := Secret configMode (baseConfigMapName +:+ "-config-data") |};
    {| volumeName := namedConfigVolume;
       volumeSource := Secret configMode (baseConfigMapName +:+ "-config-named") |};
    {| volumeName := mergedConfigVolume; volumeSource := EmptyDir EmptyString |};
    {| volumeName := logVolume; volumeSource := EmptyDir EmptyString |};
    {| volumeName := rndcKeys;
       volumeSource := Secret configMode DesignateBindKeySecret |} ].

(** getInitVolumeMounts: the init container uses the scripts mounted in
    the script volume and creates the completed named configuration
    from the files of the config volume; the modified files are stored
    in the merged config volume. *)
Definition getInitVolumeMounts : list VolumeMount :=
  [ {| mountName := configVolume; MountPath := "/var/lib/config-data/default";
       SubPath := EmptyString; ReadOnly := true |};
    {| mountName := namedConfigVolume;
       MountPath := "/var/lib/config-data/default/named";
       SubPath := EmptyString; ReadOnly := false |};
    {| mountName := mergedConfigVolume; MountPath := "/var/lib/config-data/merged";
       SubPath := EmptyString; ReadOnly := false |};
    {| mountName := scriptVolume; MountPath := "/usr/local/bin/container-scripts";
       SubPath := EmptyString; ReadOnly := true |};
    {| mountName := rndcKeys; MountPath := "/var/lib/config-data/keys";
       SubPath := EmptyString; ReadOnly := true |} ].

Definition getServicePodVolumeMounts (persistentData : string)
  : list VolumeMount :=
  [ {| mountName := mergedConfigVolume; MountPath := "/var/lib/config-data/merged";
       SubPath := EmptyString; ReadOnly := true |};
    {| mountName := mergedConfigVolume;
       MountPath := "/var/lib/kolla/config_files/config.json";
       SubPath := "designate-bind9-config.json"; ReadOnly := true |};
    {| mountName := scriptVolume; MountPath := "/usr/local/bin/container-scripts";
       SubPath := EmptyString; ReadOnly := true |};
    {| mountName := persistentData; MountPath := "/var/named-persistent";
       SubPath := EmptyString; ReadOnly := false |};
    {| mountName := logVolume; MountPath := "/var/log/bind";
       SubPath := EmptyString; ReadOnly := false |} ].

(** ** Values for the properties below *)

(** The pool parameters of the IPv4 range from [V4 s] up to, not
    including, [V4 e]. *)
Definition IPv4Pool (cidr : IPv4Prefix) (s e : Z) : @NADIpam IPv4_Netip :=
  {| CIDR := (cidr : @Prefix IPv4_Netip);
     RangeStart := (V4 s : @Addr IPv4_Netip);
     RangeEnd := (V4 e : @Addr IPv4_Netip) |}.

(** The messages of the errors of [AllocateIP], by the step that
    failed. *)
Definition allocationSteps : list string :=
  ["failed to get predictable IP parameters"; "failed to handle ConfigMap";
   "failed to allocate predictable IPs"; "failed to create or patch ConfigMap"].

(** An API server on which the ConfigMap of the example pool cannot be
    read. *)
Definition unreadablePoolClient : Client :=
  {| configMaps := ∅;
     getFaults := {[ ("openstack", "designate-designate") := "InternalError" ]};
     writeFaults := ∅ |}.

(** An API server that accepts every update of a pod. *)
Definition acceptingAPI : PodAPI :=
  {| updateReply := fun _ _ => None; getReply := fun _ => Err StatusNotFound |}.

(** * Properties *)

(** ** Strings and [strconv.Atoi] *)

Ltac bool_hyps :=
  repeat match goal with
  | H : _ && _ = true |- _ => apply andb_prop in H; destruct H
  | H : negb _ = true |- _ => apply negb_true_iff in H
  | H : negb _ = false |- _ => apply negb_false_iff in H
  | H : _ || _ = false |- _ => apply orb_false_elim in H; destruct H
  end.

Lemma isDigit_digitVal c : isDigit c = true -> 0 <= digitVal c <= 9.
Proof. unfold isDigit, digitVal. intros Hd. bool_hyps. lia. Qed.

Lemma dash_not_digit : isDigit dash = false.
Proof. reflexivity. Qed.

Lemma LastIndex_lower s sep : -1 <= LastIndex s sep.
Proof.
  induction s as [|a r IH]; simpl; [lia|].
  destruct (0 <=? LastIndex r sep) eqn:E; [lia|].
  destruct (Ascii.eqb a sep); lia.
Qed.

(** No separator: [LastIndex] is [-1] exactly when the byte does not
    occur. *)
Lemma LastIndex_none s sep :
  LastIndex s sep = -1 <-> ~ In sep (list_ascii_of_string s).
Proof.
  induction s as [|a r IH]; simpl.
  - split; [tauto | reflexivity].
  - pose proof (LastIndex_lower r sep) as Hlow.
    destruct (0 <=? LastIndex r sep) eqn:E.
    + apply Z.leb_le in E. split; [lia|].
      intros Hn. exfalso. assert (LastIndex r sep = -1) by (apply IH; tauto). lia.
    + apply Z.leb_gt in E. assert (Hr : LastIndex r sep = -1) by lia.
      apply IH in Hr.
      destruct (Ascii.eqb a sep) eqn:Ea.
      * apply Ascii.eqb_eq in Ea. split; [lia | intros Hn; exfalso; apply Hn; auto].
      * apply Ascii.eqb_neq in Ea. split; [intros _ [?|?]; tauto | reflexivity].
Qed.

(** A separator: [LastIndex] points at the last one, and what follows
    it holds none. *)
Lemma LastIndex_split s sep :
  0 <= LastIndex s sep ->
  exists pre tok,
    s = pre +:+ String sep tok /\
    Z.of_nat (String.length pre) = LastIndex s sep /\
    LastIndex tok sep = -1.
Proof.
  induction s as [|a r IH]; simpl; [lia|].
  pose proof (LastIndex_lower r sep) as Hlow.
  destruct (0 <=? LastIndex r sep) eqn:E.
  - apply Z.leb_le in E. intros _.
    destruct (IH E) as (pre & tok & -> & Hlen & Htok).
    exists (String a pre), tok. simpl. repeat split; [lia | exact Htok].
  - apply Z.leb_gt in E. destruct (Ascii.eqb a sep) eqn:Ea; [|lia].
    apply Ascii.eqb_eq in Ea. subst a. intros _.
    exists EmptyString, r. simpl. repeat split. lia.
Qed.

Lemma LastIndex_app_sep pre tok sep :
  LastIndex tok sep = -1 ->
  LastIndex (pre +:+ String sep tok) sep = Z.of_nat (String.length pre).
Proof.
  intros Htok. induction pre as [|a pre IH]; simpl.
  - rewrite Htok. simpl. rewrite Ascii.eqb_refl. reflexivity.
  - rewrite IH. destruct (0 <=? Z.of_nat (String.length pre)) eqn:E; [lia|].
    apply Z.leb_gt in E. lia.
Qed.

Lemma sliceFrom_app pre s : sliceFrom (String.length pre) (pre +:+ s) = s.
Proof. induction pre as [|a pre IH]; simpl; [by destruct s | exact IH]. Qed.

Lemma sliceFrom_after_sep pre tok sep :
  sliceFrom (S (String.length pre)) (pre +:+ String sep tok) = tok.
Proof. induction pre as [|a pre IH]; simpl; [by destruct tok | exact IH]. Qed.

(** [trailingToken] is the split on the final dash. *)
Lemma trailingToken_Some name tok :
  trailingToken name = Some tok <->
  exists pre, name = pre +:+ String dash tok /\ LastIndex tok dash = -1.
Proof.
  unfold trailingToken. split.
  - destruct (LastIndex name dash =? -1) eqn:E; [discriminate|].
    apply Z.eqb_neq in E. pose proof (LastIndex_lower name dash).
    destruct (LastIndex_split name dash) as (pre & t & Hname & Hlen & Ht); [lia|].
    rewrite <- Hlen.
    replace (Z.to_nat (Z.of_nat (String.length pre) + 1))
      with (S (String.length pre)) by lia.
    subst name. rewrite sliceFrom_after_sep. intros [= <-]. eauto.
  - intros (pre & -> & Htok). rewrite (LastIndex_app_sep _ _ _ Htok).
    destruct (Z.of_nat (String.length pre) =? -1) eqn:E;
      [apply Z.eqb_eq in E; lia|].
    replace (Z.to_nat (Z.of_nat (String.length pre) + 1))
      with (S (String.length pre)) by lia.
    by rewrite sliceFrom_after_sep.
Qed.

Lemma trailingToken_None name :
  trailingToken name = None <-> ~ In dash (list_ascii_of_string name).
Proof.
  unfold trailingToken. rewrite <- LastIndex_none.
  destruct (LastIndex name dash =? -1) eqn:E.
  - apply Z.eqb_eq in E. tauto.
  - apply Z.eqb_neq in E. split; [discriminate | tauto].
Qed.

Lemma decimalValue_unfold s :
  decimalValue s = fold_left digitStep (list_ascii_of_string s) 0.
Proof. reflexivity. Qed.

Lemma fold_digits_ge l n :
  0 <= n -> forallb isDigit l = true -> n <= fold_left digitStep l n.
Proof.
  revert n. induction l as [|c l IH]; simpl; intros n Hn Hd; [lia|].
  bool_hyps. pose proof (isDigit_digitVal c ltac:(assumption)).
  etransitivity; [|apply IH; unfold digitStep; [lia | assumption]].
  unfold digitStep. lia.
Qed.

(** The digit loop accepts exactly the digit strings whose value fits
    64 bits, and computes the value. *)
Lemma parseUintLoop_Ok s0 s n m :
  0 <= n <= maxUint64 ->
  parseUintLoop s0 s n = Ok m <->
  allDigits s = true /\ m = fold_left digitStep (list_ascii_of_string s) n /\
  m <= maxUint64.
Proof.
  unfold allDigits. revert n. induction s as [|c r IH]; simpl; intros n Hn.
  - split; [intros [= <-]; repeat split; lia | intros (_ & -> & _); reflexivity].
  - destruct (isDigit c) eqn:Hc; simpl.
    2:{ split; [discriminate | intros (? & _); discriminate]. }
    pose proof (isDigit_digitVal c Hc) as Hv.
    destruct (maxUint64 / 10 + 1 <=? n) eqn:Hcut.
    { apply Z.leb_le in Hcut. split; [discriminate|].
      intros (Hd & -> & Hle). exfalso.
      pose proof (fold_digits_ge (list_ascii_of_string r) (digitStep n c)
                    ltac:(unfold digitStep; lia) Hd).
      unfold digitStep in *. unfold maxUint64 in *.
      change (2 ^ 64 - 1) with 18446744073709551615 in *.
      change (18446744073709551615 / 10 + 1) with 1844674407370955162 in *. lia. }
    destruct (maxUint64 <? n * 10 + digitVal c) eqn:Hov.
    { apply Z.ltb_lt in Hov. split; [discriminate|].
      intros (Hd & -> & Hle). exfalso.
      pose proof (fold_digits_ge (list_ascii_of_string r) (digitStep n c)
                    ltac:(unfold digitStep; lia) Hd).
      unfold digitStep in *. lia. }
    apply Z.ltb_ge in Hov. rewrite IH by lia. reflexivity.
Qed.

Lemma parseUintLoop_Ok0 s0 s m :
  parseUintLoop s0 s 0 = Ok m <->
  allDigits s = true /\ m = decimalValue s /\ m <= maxUint64.
Proof. apply parseUintLoop_Ok. unfold maxUint64. lia. Qed.

Lemma parseUintLoop_Err_kind s0 s n e :
  parseUintLoop s0 s n = Err e ->
  e = ErrSyntax "ParseUint" s0 \/ e = ErrRange "ParseUint" s0.
Proof.
  revert n. induction s as [|c r IH]; simpl; intros n; [discriminate|].
  repeat (case_match; try (intros [= <-]; auto; fail)). apply IH.
Qed.

Lemma isNumericOrdinal_spec s :
  isNumericOrdinal s = true <-> s <> EmptyString /\ allDigits s = true.
Proof.
  unfold isNumericOrdinal. rewrite andb_true_iff, negb_true_iff.
  destruct s; simpl; [split; [intros [? _]; discriminate | intros [? _]; congruence]|].
  split; intros [_ ?]; split; auto; discriminate.
Qed.

Lemma Atoi_cons c r :
  Atoi (String c r) =
  let neg := Ascii.eqb c dash in
  let body := if Ascii.eqb c plus || Ascii.eqb c dash then r else String c r in
  match body with
  | EmptyString => Err (ErrSyntax "Atoi" (String c r))
  | _ =>
      match parseUintLoop body body 0 with
      | Err (ErrRange _ _) => Err (ErrRange "Atoi" (String c r))
      | Err _ => Err (ErrSyntax "Atoi" (String c r))
      | Ok un =>
          if negb neg && (2 ^ 63 <=? un) then Err (ErrRange "Atoi" (String c r))
          else if neg && (2 ^ 63 <? un) then Err (ErrRange "Atoi" (String c r))
          else Ok (if neg then - un else un)
      end
  end.
Proof. reflexivity. Qed.

(** Without a sign, [Atoi] reads a string [body] as follows. *)
Lemma Atoi_unsigned_body s0 body n :
  body <> EmptyString ->
  match parseUintLoop body body 0 with
  | Err (ErrRange _ _) => Err (ErrRange "Atoi" s0)
  | Err _ => Err (ErrSyntax "Atoi" s0)
  | Ok un =>
      if negb false && (2 ^ 63 <=? un) then Err (ErrRange "Atoi" s0)
      else if false && (2 ^ 63 <? un) then Err (ErrRange "Atoi" s0)
      else Ok (if false then - un else un)
  end = Ok n <->
  isNumericOrdinal body = true /\ n = decimalValue body /\ 0 <= n <= maxInt.
Proof.
  intros Hne. rewrite isNumericOrdinal_spec.
  destruct (parseUintLoop body body 0) as [un|e] eqn:Hp.
  - apply parseUintLoop_Ok0 in Hp.
    destruct Hp as (Hd & Hun & Hmax). subst un.
    assert (Hnn : 0 <= decimalValue body).
    { rewrite decimalValue_unfold. apply fold_digits_ge; [lia | exact Hd]. }
    cbn [negb andb]. destruct (2 ^ 63 <=? decimalValue body) eqn:Hr.
    + apply Z.leb_le in Hr. unfold maxInt.
      split; [discriminate | intros (_ & -> & ?); lia].
    + apply Z.leb_gt in Hr. unfold maxInt. split.
      * intros [= <-]. repeat split; auto; lia.
      * intros (_ & -> & _). reflexivity.
  - assert (Hno : ~ (allDigits body = true /\ decimalValue body <= maxUint64)).
    { intros [Hd Hle].
      assert (parseUintLoop body body 0 = Ok (decimalValue body)) as Hok.
      { apply parseUintLoop_Ok0. auto. }
      congruence. }
    split.
    + destruct (parseUintLoop_Err_kind _ _ _ _ Hp) as [-> | ->]; discriminate.
    + intros ((_ & Hd) & -> & Hr). exfalso. apply Hno. split; [exact Hd|].
      unfold maxInt, maxUint64 in *. lia.
Qed.

Lemma allDigits_head c r : allDigits (String c r) = true -> isDigit c = true.
Proof. unfold allDigits. simpl. intros Hd. bool_hyps. assumption. Qed.

(** [Atoi] on a token that does not start with a dash: it succeeds
    exactly on one or more decimal digits, with or without a leading
    plus sign, whose value fits an [int]. *)
Lemma Atoi_Ok_unsigned tok n :
  LastIndex tok dash = -1 ->
  Atoi tok = Ok n <->
  exists digits,
    (tok = digits \/ tok = String plus digits) /\
    isNumericOrdinal digits = true /\ n = decimalValue digits /\
    0 <= n <= maxInt.
Proof.
  intros Hnd. apply LastIndex_none in Hnd.
  destruct tok as [|c r].
  { simpl. split; [discriminate|].
    intros (d & [<-|?] & Hd & _); [|discriminate].
    apply isNumericOrdinal_spec in Hd. tauto. }
  assert (Hc : Ascii.eqb c dash = false).
  { apply Ascii.eqb_neq. intros ->. apply Hnd. simpl. auto. }
  rewrite Atoi_cons, Hc, orb_false_r. cbv zeta.
  destruct (Ascii.eqb c plus) eqn:Hp.
  - apply Ascii.eqb_eq in Hp. subst c.
    destruct r as [|b br].
    { split; [discriminate|]. intros (d & [<-|[= <-]] & Hd & _).
      - apply isNumericOrdinal_spec in Hd as [_ Hd].
        apply allDigits_head in Hd. discriminate.
      - apply isNumericOrdinal_spec in Hd. tauto. }
    rewrite Atoi_unsigned_body by discriminate. split.
    + intros (Hd & Hn & Hr). exists (String b br). auto.
    + intros (d & [<-|[= <-]] & Hd & Hn & Hr); [|auto].
      apply isNumericOrdinal_spec in Hd as [_ Hd].
      apply allDigits_head in Hd. discriminate.
  - apply Ascii.eqb_neq in Hp.
    rewrite Atoi_unsigned_body by discriminate. split.
    + intros (Hd & Hn & Hr). exists (String c r). auto.
    + intros (d & [<-|[= -> _]] & Hd & Hn & Hr); [auto | congruence].
Qed.

(** ** Ordinal extraction *)

Lemma allDigits_no_dash s : allDigits s = true -> LastIndex s dash = -1.
Proof.
  intros Hd. apply LastIndex_none. unfold allDigits in Hd.
  rewrite forallb_forall in Hd. intros Hin. apply Hd in Hin. discriminate.
Qed.

Lemma ExtractPodIndexFromName_Ok podName n :
  ExtractPodIndexFromName podName = Ok n <->
  exists tok, trailingToken podName = Some tok /\ Atoi tok = Ok n.
Proof.
  unfold ExtractPodIndexFromName, trailingToken.
  destruct (LastIndex podName dash =? -1).
  - split; [discriminate | intros (? & ? & _); discriminate].
  - destruct (Atoi _) as [k|e] eqn:Ha.
    + split; [intros [= <-]; eauto | intros (? & [= <-] & Hk); congruence].
    + split; [discriminate | intros (? & [= <-] & Hk); congruence].
Qed.

(** A name without a dash is rejected. *)
Lemma ExtractPodIndexFromName_no_dash podName :
  ~ In dash (list_ascii_of_string podName) ->
  ExtractPodIndexFromName podName =
  Err (Errorf ("invalid pod name format: " +:+ podName)).
Proof.
  intros Hno. apply LastIndex_none in Hno.
  unfold ExtractPodIndexFromName. by rewrite Hno.
Qed.

(** What [ExtractPodIndexFromName] accepts: a name without a dash is
    rejected, and a name is accepted with ordinal [n] exactly when what
    follows its final dash is one or more decimal digits of value [n],
    at most the largest [int], written with or without one leading plus
    sign; no accepted ordinal is negative. *)
Lemma ExtractPodIndexFromName_ordinal (podName : string) :
  (~ In dash (list_ascii_of_string podName) ->
   isErr (ExtractPodIndexFromName podName) = true) /\
  (forall n : Z,
     ExtractPodIndexFromName podName = Ok n <->
     exists pre digits,
       (podName = pre +:+ String dash digits \/
        podName = pre +:+ String dash (String plus digits)) /\
       isNumericOrdinal digits = true /\
       n = decimalValue digits /\ 0 <= n <= maxInt).
Proof.
  split.
  - intros Hno. by rewrite ExtractPodIndexFromName_no_dash.
  - intros n. rewrite ExtractPodIndexFromName_Ok. split.
    + intros (tok & Htok & Ha). apply trailingToken_Some in Htok.
      destruct Htok as (pre & -> & Hnd).
      apply (Atoi_Ok_unsigned _ _ Hnd) in Ha.
      destruct Ha as (digits & Hshape & Hd & Hn & Hr).
      exists pre, digits. repeat split; try assumption; try apply Hr.
      destruct Hshape as [-> | ->]; auto.
    + intros (pre & digits & Hshape & Hd & Hn & Hr).
      pose proof (proj1 (isNumericOrdinal_spec _) Hd) as [_ Had].
      pose proof (allDigits_no_dash _ Had) as Hnd.
      destruct Hshape as [-> | ->].
      * exists digits. split; [apply trailingToken_Some; eauto|].
        apply (Atoi_Ok_unsigned _ _ Hnd). exists digits. auto.
      * assert (Hnd' : LastIndex (String plus digits) dash = -1).
        { simpl. rewrite Hnd. reflexivity. }
        exists (String plus digits). split; [apply trailingToken_Some; eauto|].
        apply (Atoi_Ok_unsigned _ _ Hnd'). exists digits. auto.
Qed.

Lemma ExtractPodIndexFromName_ordinal_witness :
  ExtractPodIndexFromName "designate-backendbind9-3" = Ok 3.
Proof.
  apply (proj2 (ExtractPodIndexFromName_ordinal "designate-backendbind9-3")).
  exists "designate-backendbind9", "3".
  repeat split; [left; reflexivity | vm_compute; discriminate | vm_compute; discriminate].
Defined.

(** C7.  A trailing token that is no numeric ordinal and is accepted
    all the same: for the name [designate-mdns-+7] the token after the
    final dash is [+7], which is not one or more decimal digits, and
    [ExtractPodIndexFromName] succeeds with 7, because [strconv.Atoi]
    reads a leading plus sign.  The name rule of [isDesignatePod], which
    wants a digit right after the dash, does not take the same name for
    the name of a StatefulSet pod. *)
Theorem ExtractPodIndexFromName_accepts_plus_sign :
  trailingToken "designate-mdns-+7" = Some "+7" /\
  isNumericOrdinal "+7" = false /\
  ExtractPodIndexFromName "designate-mdns-+7" = Ok 7 /\
  isDesignatePod (examplePod "designate-mdns-+7" None None) = false /\
  isDesignatePod (examplePod "designate-mdns-7" None None) = true.
Proof. repeat split. Qed.

Example ExtractPodIndexFromName_double_dash :
  ExtractPodIndexFromName "designate-mdns--5" = Ok 5.
Proof. reflexivity. Qed.

Example ExtractPodIndexFromName_out_of_range :
  isErr (ExtractPodIndexFromName "designate-mdns-9223372036854775808") = true.
Proof. reflexivity. Qed.

(** ** The walk to a pod index *)

Section PredictableFacts.
Context `{Netip}.

Lemma successor_S n (ip : Addr) : successor (S n) ip = successor n (Next ip).
Proof. unfold successor. apply Nat.iter_succ_r. Qed.

Lemma successor_S_out n (ip : Addr) : successor (S n) ip = Next (successor n ip).
Proof. reflexivity. Qed.

(** The loop ends at the [n]-th successor, unless one of the successors
    1 to [n] is the end of the range. *)
Lemma stepToIndex_Some n (ip rangeEnd r : Addr) :
  stepToIndex n ip rangeEnd = Some r <->
  r = successor n ip /\
  forall j, (1 <= j <= n)%nat -> successor j ip <> rangeEnd.
Proof.
  revert ip. induction n as [|n IH]; intros ip; simpl.
  - split.
    + intros [= <-]. split; [reflexivity | intros j Hj; lia].
    + intros [-> _]. reflexivity.
  - destruct (decide (Next ip = rangeEnd)) as [He|Hne].
    + split; [discriminate|]. intros [_ Hall]. exfalso.
      apply (Hall 1%nat); [lia | exact He].
    + rewrite IH. rewrite <- successor_S. split.
      * intros [-> Hall]. split; [reflexivity|].
        intros j Hj. destruct j as [|j]; [lia|].
        rewrite successor_S. destruct j as [|j]; [exact Hne|].
        apply Hall. lia.
      * intros [-> Hall]. split; [reflexivity|].
        intros j Hj. rewrite <- successor_S. apply Hall. lia.
Qed.

Lemma stepToIndex_None n (ip rangeEnd : Addr) :
  stepToIndex n ip rangeEnd = None <->
  exists j, (1 <= j <= n)%nat /\ successor j ip = rangeEnd.
Proof.
  revert ip. induction n as [|n IH]; intros ip; simpl.
  - split; [discriminate | intros (j & Hj & _); lia].
  - destruct (decide (Next ip = rangeEnd)) as [He|Hne].
    + split; [|reflexivity]. intros _. exists 1%nat. split; [lia | exact He].
    + rewrite IH. split.
      * intros (j & Hj & Hs). exists (S j). rewrite successor_S. split; [lia | exact Hs].
      * intros (j & Hj & Hs). destruct j as [|j]; [lia|].
        rewrite successor_S in Hs. destruct j as [|j]; [contradiction|].
        exists (S j). split; [lia | exact Hs].
Qed.

(** What [GetPodPredictableIP] returns: the text of the successor of
    the range start at the pod index, which differs from the range end
    when the index is positive; it fails exactly when one of the
    successors 1 to [podIndex] is the range end. *)
Lemma GetPodPredictableIP_sound (predParams : NADIpam) (podIndex : Z) :
  0 <= podIndex ->
  match GetPodPredictableIP predParams podIndex with
  | Ok s =>
      s = AddrString (successor (Z.to_nat podIndex) (RangeStart predParams)) /\
      (0 < podIndex ->
       successor (Z.to_nat podIndex) (RangeStart predParams)
       <> RangeEnd predParams)
  | Err _ =>
      exists j, (1 <= j <= Z.to_nat podIndex)%nat /\
                successor j (RangeStart predParams) = RangeEnd predParams
  end.
Proof.
  intros Hk. unfold GetPodPredictableIP.
  destruct (stepToIndex _ _ _) as [ip|] eqn:Hs.
  - apply stepToIndex_Some in Hs. destruct Hs as [-> Hall].
    split; [reflexivity|]. intros Hpos. apply Hall. lia.
  - by apply stepToIndex_None in Hs.
Qed.

End PredictableFacts.

(** C8.  At pod index 0 the walk makes no step and no comparison: on a
    range whose start is its end, [GetPodPredictableIP] succeeds and the
    address it returns is the range end; at index 1 it has stepped past
    the end without failing. *)
Theorem GetPodPredictableIP_index_0_issues_range_end :
  GetPodPredictableIP emptyRangePool 0 = Ok "10.0.0.1" /\
  AddrString (RangeEnd emptyRangePool) = "10.0.0.1" /\
  stepToIndex 0 (RangeStart emptyRangePool) (RangeEnd emptyRangePool)
  = Some (RangeEnd emptyRangePool) /\
  GetPodPredictableIP emptyRangePool 1 = Ok "10.0.0.2".
Proof. repeat split. Qed.

(** ** Generated bind and mdns maps *)

Lemma string_app_inj (p a b : string) : p +:+ a = p +:+ b -> a = b.
Proof. induction p as [|c p IH]; simpl; [auto | intros [= ?]; auto]. Qed.

Lemma indexed_key_inj (p : string) (i j : Z) :
  p +:+ pretty i = p +:+ pretty j -> i = j.
Proof. intros Hk. apply string_app_inj in Hk. by apply (inj pretty) in Hk. Qed.

Section GenerateFacts.
Context `{Netip}.
Variables (keyPrefix : string) (rangeEnd : Addr).

Lemma fits_dec ip t :
  fits rangeEnd ip t \/ exists j, (j <= t)%nat /\ successor j ip = rangeEnd.
Proof.
  induction t as [|t [IH|(j & Hj & He)]].
  - destruct (decide (ip = rangeEnd)) as [He|Hne].
    + right. exists 0%nat. split; [lia | exact He].
    + left. intros j Hj. replace j with 0%nat by lia. exact Hne.
  - destruct (decide (successor (S t) ip = rangeEnd)) as [He|Hne].
    + right. exists (S t). split; [lia | exact He].
    + left. intros j Hj. destruct (decide (j = S t)) as [->|]; [exact Hne|].
      apply IH. lia.
  - right. exists j. split; [lia | exact He].
Qed.

Lemma fits_Next ip t : fits rangeEnd ip (S t) <-> ip <> rangeEnd /\ fits rangeEnd (Next ip) t.
Proof.
  unfold fits. split.
  - intros Hf. split; [apply (Hf 0%nat); lia|].
    intros j Hj. rewrite <- successor_S. apply Hf. lia.
  - intros [Hne Hf] j Hj. destruct j as [|j]; [exact Hne|].
    rewrite successor_S. apply Hf. lia.
Qed.

Lemma fits_mono ip t t' : (t' <= t)%nat -> fits rangeEnd ip t -> fits rangeEnd ip t'.
Proof. intros Hle Hf j Hj. apply Hf. lia. Qed.

Lemma key_dec (k : string) (i : Z) (n : nat) :
  (exists t, (t < n)%nat /\ k = keyPrefix +:+ pretty (i + Z.of_nat t)) \/
  (forall t, (t < n)%nat -> k <> keyPrefix +:+ pretty (i + Z.of_nat t)).
Proof.
  induction n as [|n [(t & Ht & Hk)|IH]].
  - right. intros t Ht. lia.
  - left. exists t. split; [lia | exact Hk].
  - destruct (decide (k = keyPrefix +:+ pretty (i + Z.of_nat n))) as [Hk|Hk].
    + left. exists n. split; [lia | exact Hk].
    + right. intros t Ht. destruct (decide (t = n)) as [->|]; [exact Hk|].
      apply IH. lia.
Qed.

(** A key that the loop does not write keeps its entry. *)
Lemma generateLoop_other n i ip (m : Table) k :
  (forall t, (t < n)%nat -> k <> keyPrefix +:+ pretty (i + Z.of_nat t)) ->
  (generateLoop keyPrefix n i ip rangeEnd m).1 !! k = m !! k.
Proof.
  revert i ip m. induction n as [|n IH]; intros i ip m Hk; simpl; [reflexivity|].
  destruct (decide (ip = rangeEnd)); [reflexivity|].
  rewrite IH.
  - apply lookup_insert_ne. specialize (Hk 0%nat ltac:(lia)).
    replace (i + Z.of_nat 0) with i in Hk by lia. congruence.
  - intros t Ht. specialize (Hk (S t) ltac:(lia)).
    replace (i + 1 + Z.of_nat t) with (i + Z.of_nat (S t)) by lia. exact Hk.
Qed.

(** Position [t] fits: the key of index [i + t] is bound to the text of
    the [t]-th successor. *)
Lemma generateLoop_hit n i ip (m : Table) t :
  (t < n)%nat -> fits rangeEnd ip t ->
  (generateLoop keyPrefix n i ip rangeEnd m).1
    !! (keyPrefix +:+ pretty (i + Z.of_nat t))
  = Some (AddrString (successor t ip)).
Proof.
  revert i ip m t. induction n as [|n IH]; intros i ip m t Ht Hf; [lia|].
  simpl. destruct (decide (ip = rangeEnd)) as [He|Hne].
  { exfalso. apply (Hf 0%nat); [lia | exact He]. }
  destruct t as [|t].
  - replace (i + Z.of_nat 0) with i by lia. rewrite generateLoop_other.
    + apply lookup_insert_eq.
    + intros t Ht' Hk. apply indexed_key_inj in Hk. lia.
  - replace (i + Z.of_nat (S t)) with (i + 1 + Z.of_nat t) by lia.
    rewrite successor_S. apply IH; [lia|]. by apply fits_Next in Hf as [_ Hf].
Qed.

(** Position [t] does not fit: the key of index [i + t] keeps its entry. *)
Lemma generateLoop_miss n i ip (m : Table) t :
  (t < n)%nat -> ~ fits rangeEnd ip t ->
  (generateLoop keyPrefix n i ip rangeEnd m).1
    !! (keyPrefix +:+ pretty (i + Z.of_nat t))
  = m !! (keyPrefix +:+ pretty (i + Z.of_nat t)).
Proof.
  revert i ip m t. induction n as [|n IH]; intros i ip m t Ht Hf; [lia|].
  simpl. destruct (decide (ip = rangeEnd)) as [He|Hne]; [reflexivity|].
  destruct t as [|t].
  - exfalso. apply Hf. intros j Hj. replace j with 0%nat by lia. exact Hne.
  - replace (i + Z.of_nat (S t)) with (i + 1 + Z.of_nat t) by lia.
    rewrite IH; [|lia|].
    + apply lookup_insert_ne. intros Hk. apply indexed_key_inj in Hk. lia.
    + intros Hf'. apply Hf. apply fits_Next. auto.
Qed.

(** Where the loop stops: after [n] steps, or at the end of the range. *)
Lemma generateLoop_stop_full n i ip (m : Table) :
  (forall j, (j < n)%nat -> successor j ip <> rangeEnd) ->
  (generateLoop keyPrefix n i ip rangeEnd m).2 = successor n ip.
Proof.
  revert i ip m. induction n as [|n IH]; intros i ip m Hf; simpl; [reflexivity|].
  destruct (decide (ip = rangeEnd)) as [He|Hne].
  { exfalso. apply (Hf 0%nat); [lia | exact He]. }
  rewrite IH; [symmetry; apply (successor_S n ip)|].
  intros j Hj. rewrite <- successor_S. apply Hf. lia.
Qed.

Lemma generateLoop_stop_end n i ip (m : Table) :
  (exists j, (j < n)%nat /\ successor j ip = rangeEnd) ->
  (generateLoop keyPrefix n i ip rangeEnd m).2 = rangeEnd.
Proof.
  revert i ip m. induction n as [|n IH]; intros i ip m (j & Hj & He); [lia|].
  simpl. destruct (decide (ip = rangeEnd)) as [Heq|Hne]; [exact Heq|].
  apply IH. destruct j as [|j]; [contradiction|].
  exists j. split; [lia|]. by rewrite <- successor_S.
Qed.

(** The entries of the map that one loop builds from the empty map. *)
Lemma generateLoop_entries n ip k v :
  (generateLoop keyPrefix n 0 ip rangeEnd ∅).1 !! k = Some v <->
  exists t, (t < n)%nat /\ fits rangeEnd ip t /\
            k = keyPrefix +:+ pretty (Z.of_nat t) /\
            v = AddrString (successor t ip).
Proof.
  split.
  - intros Hl. destruct (key_dec k 0 n) as [(t & Ht & ->)|Hno].
    + destruct (fits_dec ip t) as [Hf|Hnf].
      * rewrite generateLoop_hit in Hl by assumption.
        exists t. repeat split; auto. congruence.
      * rewrite generateLoop_miss in Hl; [by rewrite lookup_empty in Hl | lia |].
        intros Hf. destruct Hnf as (j & Hj & He). by apply (Hf j).
    + rewrite generateLoop_other in Hl by assumption.
      by rewrite lookup_empty in Hl.
  - intros (t & Ht & Hf & -> & ->).
    apply (generateLoop_hit n 0 ip ∅ t Ht Hf).
Qed.

End GenerateFacts.

Section GenerateMaps.
Context `{Netip}.

(** C10.  For a range on which the successors of the start that come
    into play are pairwise distinct, and replica counts [b] and [m] that
    are not negative: the bind map binds [bind_address_i] to the [i]-th
    successor of the range start exactly for the [i < b] that fit
    before the end, the mdns map binds [mdns_address_j] to the
    [(b+j)]-th successor exactly for the [j < m] for which position
    [b + j] fits, the maps hold nothing else, the addresses assigned
    are pairwise distinct and none is the range end (any two entries
    under different keys carry the texts of two different addresses);
    what does not fit is left out, no error being returned. *)
Theorem GeneratePredictableIPMaps_assigns (predParams : NADIpam) (b m : Z) :
  0 <= b -> 0 <= m ->
  (forall i j, (i < j < Z.to_nat (b + m))%nat ->
     successor i (RangeStart predParams) <> successor j (RangeStart predParams)) ->
  let nth i := successor i (RangeStart predParams) in
  let fitting i := fits (RangeEnd predParams) (RangeStart predParams) i in
  let bindMap := (GeneratePredictableIPMaps predParams b m).1 in
  let mdnsMap := (GeneratePredictableIPMaps predParams b m).2 in
  (forall k v, bindMap !! k = Some v <->
     exists i, (i < Z.to_nat b)%nat /\ fitting i /\
               k = bindKey i /\ v = AddrString (nth i)) /\
  (forall k v, mdnsMap !! k = Some v <->
     exists j, (j < Z.to_nat m)%nat /\ fitting (Z.to_nat b + j)%nat /\
               k = mdnsKey j /\ v = AddrString (nth (Z.to_nat b + j)%nat)) /\
  (forall i j, (i < Z.to_nat (b + m))%nat -> (j < Z.to_nat (b + m))%nat ->
     fitting i -> fitting j -> i <> j ->
     nth i <> nth j /\ nth i <> RangeEnd predParams) /\
  (forall k1 v1 k2 v2,
     bindMap !! k1 = Some v1 \/ mdnsMap !! k1 = Some v1 ->
     bindMap !! k2 = Some v2 \/ mdnsMap !! k2 = Some v2 ->
     k1 <> k2 ->
     exists a1 a2,
       v1 = AddrString a1 /\ v2 = AddrString a2 /\ a1 <> a2 /\
       a1 <> RangeEnd predParams /\ a2 <> RangeEnd predParams).
Proof.
  intros Hb Hm Hdistinct nth fitting bindMap mdnsMap.
  subst bindMap mdnsMap. unfold GeneratePredictableIPMaps.
  destruct (generateLoop "bind_address_" (Z.to_nat b) 0 (RangeStart predParams)
              (RangeEnd predParams) ∅) as [bm ip] eqn:Hbind.
  destruct (generateLoop "mdns_address_" (Z.to_nat m) 0 ip
              (RangeEnd predParams) ∅) as [mm ip'] eqn:Hmdns.
  simpl.
  assert (Hbm : forall k v, bm !! k = Some v <->
            exists i, (i < Z.to_nat b)%nat /\ fitting i /\
                      k = bindKey i /\ v = AddrString (nth i)).
  { intros k v. replace bm with
      (generateLoop "bind_address_" (Z.to_nat b) 0 (RangeStart predParams)
         (RangeEnd predParams) ∅).1 by (by rewrite Hbind).
    apply generateLoop_entries. }
  assert (Hmm : forall k v, mm !! k = Some v <->
            exists j, (j < Z.to_nat m)%nat /\ fitting (Z.to_nat b + j)%nat /\
                      k = mdnsKey j /\ v = AddrString (nth (Z.to_nat b + j)%nat)).
  2:{ assert (Hslot : forall k v, bm !! k = Some v \/ mm !! k = Some v ->
                exists i, (i < Z.to_nat (b + m))%nat /\ fitting i /\
                          v = AddrString (nth i) /\
                          (k = bindKey i /\ (i < Z.to_nat b)%nat \/
                           exists j, k = mdnsKey j /\ i = (Z.to_nat b + j)%nat)).
      { intros k v [Hk|Hk].
        - apply Hbm in Hk as (i & Hi & Hf & -> & ->). exists i.
          split; [lia|]. split; [exact Hf|]. split; [reflexivity|]. left. auto.
        - apply Hmm in Hk as (j & Hj & Hf & -> & ->). exists (Z.to_nat b + j)%nat.
          split; [lia|]. split; [exact Hf|]. split; [reflexivity|]. right. eauto. }
      assert (Hd : forall i j, (i < Z.to_nat (b + m))%nat ->
                (j < Z.to_nat (b + m))%nat -> i <> j -> nth i <> nth j).
      { intros i j Hi Hj Hne. destruct (decide (i < j)%nat).
        - apply Hdistinct. lia.
        - intros Heq. symmetry in Heq. revert Heq. apply Hdistinct. lia. }
      split; [exact Hbm|]. split; [exact Hmm|]. split.
      - intros i j Hi Hj Hfi Hfj Hne. split; [by apply Hd|]. apply (Hfi i). lia.
      - intros k1 v1 k2 v2 H1 H2 Hne.
        destruct (Hslot _ _ H1) as (i1 & Hi1 & Hf1 & -> & Hk1).
        destruct (Hslot _ _ H2) as (i2 & Hi2 & Hf2 & -> & Hk2).
        exists (nth i1), (nth i2). repeat split.
        + apply Hd; auto. intros ->.
          destruct Hk1 as [[-> Hb1]|(j1 & -> & Hj1)],
                   Hk2 as [[-> Hb2]|(j2 & -> & Hj2)]; try congruence; try lia.
          apply Hne. f_equal. f_equal. lia.
        + apply (Hf1 i1). lia.
        + apply (Hf2 i2). lia. }
  intros k v. replace mm with
      (generateLoop "mdns_address_" (Z.to_nat m) 0 ip (RangeEnd predParams) ∅).1
      by (by rewrite Hmdns).
    rewrite generateLoop_entries.
    assert (Hip : ip = (generateLoop "bind_address_" (Z.to_nat b) 0
                          (RangeStart predParams) (RangeEnd predParams) ∅).2)
      by (by rewrite Hbind).
    destruct (Z.to_nat b) as [|b'] eqn:Eb.
    { simpl in Hip. subst ip. reflexivity. }
    destruct (fits_dec (RangeEnd predParams) (RangeStart predParams) b')
      as [Hf|(j0 & Hj0 & He)].
    + rewrite generateLoop_stop_full in Hip by (intros j Hj; apply Hf; lia).
      subst ip. split.
      * intros (t & Ht & Hft & -> & ->). exists t. repeat split; auto.
        -- intros j Hj. destruct (decide (j <= b')%nat) as [Hle|Hgt].
           ++ by apply Hf.
           ++ replace j with ((j - S b') + S b')%nat by lia.
              unfold successor. rewrite Nat.iter_add. apply Hft. lia.
        -- unfold nth, successor. rewrite Nat.add_comm. by rewrite Nat.iter_add.
      * intros (t & Ht & Hft & -> & ->). exists t. repeat split; auto.
        -- intros j Hj. unfold successor. rewrite <- Nat.iter_add.
           apply Hft. lia.
        -- unfold nth, successor. rewrite (Nat.add_comm (S b')).
           by rewrite Nat.iter_add.
    + rewrite generateLoop_stop_end in Hip by (exists j0; split; [lia | exact He]).
      subst ip. split.
      * intros (t & Ht & Hft & _). exfalso. by apply (Hft 0%nat); [lia|].
      * intros (t & Ht & Hft & _). exfalso. apply (Hft j0); [lia | exact He].
Qed.

End GenerateMaps.

(** ** The address walk and the exclusion set *)

Section WalkFacts.
Context `{Netip}.

(** What the walk selects is not excluded; everything it skipped is. *)
Lemma nextIPWalk_Ok fuel (candidate rangeEnd : Addr) (excluded : gset string) s :
  nextIPWalk fuel candidate rangeEnd excluded = Some (Ok s) ->
  (s ∉ excluded) /\
  exists n, s = AddrString (successor n candidate) /\
            fits rangeEnd candidate n /\
            forall j, (j < n)%nat -> AddrString (successor j candidate) ∈ excluded.
Proof.
  revert candidate. induction fuel as [|fuel IH]; intros candidate; simpl;
    [discriminate|].
  destruct (decide (candidate = rangeEnd)) as [He|Hne]; [discriminate|].
  destruct (decide (AddrString candidate ∈ excluded)) as [Hin|Hnin].
  - intros Hw. destruct (IH _ Hw) as (Hs & n & -> & Hf & Hskip).
    split; [exact Hs|]. exists (S n). rewrite successor_S. split; [reflexivity|].
    split.
    + intros j Hj. destruct j as [|j]; [exact Hne|].
      rewrite successor_S. apply Hf. lia.
    + intros j Hj. destruct j as [|j]; [exact Hin|].
      rewrite successor_S. apply Hskip. lia.
  - intros [= <-]. split; [exact Hnin|]. exists 0%nat. split; [reflexivity|].
    split; [|intros j Hj; lia].
    intros j Hj. replace j with 0%nat by lia. exact Hne.
Qed.

(** More fuel does not change an answer. *)
Lemma nextIPWalk_fuel_mono fuel fuel' (candidate rangeEnd : Addr) excluded r :
  (fuel <= fuel')%nat ->
  nextIPWalk fuel candidate rangeEnd excluded = Some r ->
  nextIPWalk fuel' candidate rangeEnd excluded = Some r.
Proof.
  revert fuel' candidate. induction fuel as [|fuel IH]; intros fuel' candidate Hle;
    simpl; [discriminate|].
  destruct fuel' as [|fuel']; [lia|]. simpl.
  destruct (decide (candidate = rangeEnd)); [auto|].
  destruct (decide (AddrString candidate ∈ excluded)); [|auto].
  apply IH. lia.
Qed.

(** The walk ends within as many steps as there are addresses up to
    the first one that is the range end or is free, and one more. *)
Lemma nextIPWalk_terminates n (candidate rangeEnd : Addr) (excluded : gset string) :
  successor n candidate = rangeEnd \/ AddrString (successor n candidate) ∉ excluded ->
  exists r, nextIPWalk (S n) candidate rangeEnd excluded = Some r.
Proof.
  revert candidate. induction n as [|n IH]; intros candidate Hstop.
  - simpl in *. destruct (decide (candidate = rangeEnd)); [eauto|].
    destruct (decide (AddrString candidate ∈ excluded)); [|eauto].
    destruct Hstop; contradiction.
  - rewrite successor_S in Hstop. destruct (IH _ Hstop) as [r Hr].
    change (nextIPWalk (S (S n)) candidate rangeEnd excluded) with
      (if decide (candidate = rangeEnd) then Some (Err ErrPredictableIPOutOfAddresses)
       else if decide (AddrString candidate ∈ excluded)
            then nextIPWalk (S n) (Next candidate) rangeEnd excluded
            else Some (Ok (AddrString candidate))).
    destruct (decide (candidate = rangeEnd)); [eauto|].
    destruct (decide (AddrString candidate ∈ excluded)); eauto.
Qed.

End WalkFacts.

Section ExclusionFacts.
Context `{MapRange}.

Lemma rangeOver_lookup (data : Table) k v :
  (k, v) ∈ rangeOver data <-> data !! k = Some v.
Proof. rewrite rangeOver_perm. apply elem_of_map_to_list. Qed.

Lemma fold_mark_elem (l : list (string * string)) (acc : gset string) x :
  x ∈ fold_left (fun acc kv => {[ kv.2 ]} ∪ acc) l acc <->
  x ∈ acc \/ exists k, (k, x) ∈ l.
Proof.
  revert acc. induction l as [|[k v] l IH]; intros acc; simpl.
  - split; [auto | intros [?|[k Hk]]; [done | by apply elem_of_nil in Hk]].
  - rewrite IH. rewrite elem_of_union, elem_of_singleton. split.
    + intros [[->|?]|[k' Hk']]; [right; exists k; left | by left |
                                 right; exists k'; by right].
    + intros [?|[k' Hk']]; [left; by right|].
      apply elem_of_cons in Hk' as [[= -> ->]|?]; [left; by left | right; eauto].
Qed.

(** Marking a table adds exactly its values. *)
Lemma markAllocated_elem (data : Table) (acc : gset string) x :
  x ∈ markAllocated data acc <-> x ∈ acc \/ exists k, data !! k = Some x.
Proof.
  unfold markAllocated. rewrite fold_mark_elem.
  by setoid_rewrite rangeOver_lookup.
Qed.

Lemma siblingAllocatedIPs_elem c namespace name (acc : gset string) x :
  x ∈ siblingAllocatedIPs c namespace name acc <->
  x ∈ acc \/ exists cm k, Get c (namespace, name) = Ok cm /\ cmData cm !! k = Some x.
Proof.
  unfold siblingAllocatedIPs. destruct (Get c (namespace, name)) as [cm|e].
  - rewrite markAllocated_elem. split.
    + intros [?|[k Hk]]; [by left | right; eauto].
    + intros [?|(cm' & k & [= <-] & Hk)]; [by left | right; eauto].
  - split; [by left | intros [?|(? & ? & ? & _)]; [done | discriminate]].
Qed.

End ExclusionFacts.

(** ** AllocateIP *)

Lemma storeConfigMap_twice c key cm :
  storeConfigMap (storeConfigMap c key cm) key cm = storeConfigMap c key cm.
Proof. unfold storeConfigMap. simpl. by rewrite insert_insert_eq. Qed.

Lemma Get_storeConfigMap_ne c key key' cm :
  key <> key' -> Get (storeConfigMap c key cm) key' = Get c key'.
Proof. intros Hne. unfold Get. simpl. by rewrite lookup_insert_ne. Qed.

Lemma Get_storeConfigMap_eq c key cm :
  getFaults c !! key = None ->
  Get (storeConfigMap c key cm) key =
  Ok {| cmName := key.2; cmNamespace := key.1;
        cmLabels := cmLabels cm; cmData := cmData cm |}.
Proof. intros Hf. unfold Get. simpl. by rewrite Hf, lookup_insert_eq. Qed.

Lemma Get_Ok_inv c key cm :
  Get c key = Ok cm ->
  getFaults c !! key = None /\
  ObjectKeyFromObject cm = key /\
  configMaps c !! key =
    Some {| storedLabels := cmLabels cm; storedData := cmData cm |}.
Proof.
  unfold Get. destruct (getFaults c !! key); [discriminate|].
  destruct (configMaps c !! key) as [[labels data]|] eqn:Hc; [|discriminate].
  intros [= <-]. simpl. by destruct key.
Qed.

(** A read fails with NotFound exactly when there is no fault and no
    record. *)
Lemma Get_NotFound c key e :
  Get c key = Err e -> IsNotFound e = true ->
  getFaults c !! key = None /\ configMaps c !! key = None.
Proof.
  unfold Get. destruct (getFaults c !! key); [intros [= <-]; discriminate|].
  destruct (configMaps c !! key); [discriminate | auto].
Qed.

(** Storing a record with the data it already has changes no read of
    data. *)
Lemma Get_data_storeConfigMap c key cm key' :
  storedTable c key = Some (cmData cm) ->
  match Get (storeConfigMap c key cm) key', Get c key' with
  | Ok a, Ok b => cmData a = cmData b
  | Err a, Err b => a = b
  | _, _ => False
  end.
Proof.
  unfold storedTable. intros Hdata. unfold Get. simpl.
  destruct (getFaults c !! key'); [reflexivity|].
  destruct (decide (key = key')) as [<-|Hne].
  - rewrite lookup_insert_eq. destruct (configMaps c !! key) as [stored|];
      [|discriminate]. simpl in *. congruence.
  - rewrite lookup_insert_ne by exact Hne.
    by destruct (configMaps c !! key').
Qed.

Section ManagerFacts.
Context `{Netip} `{!Package} `{MapRange} `{Controllerutil}.

Lemma allocatePredictableIPs_single fuel params holder (existing : Table) excluded :
  allocatePredictableIPs fuel params [holder] existing excluded =
  match existing !! holder with
  | Some v => Some (Ok ({[ holder := v ]}, excluded))
  | None =>
      match GetNextIP fuel params excluded with
      | None => None
      | Some (Err err) => Some (Err err)
      | Some (Ok ip) => Some (Ok ({[ holder := ip ]}, excluded))
      end
  end.
Proof.
  unfold allocatePredictableIPs. simpl.
  destruct (existing !! holder) as [v|]; simpl; [reflexivity|].
  destruct (GetNextIP fuel params excluded) as [[ip|e]|]; reflexivity.
Qed.

Lemma handleConfigMap_identity m c name labels cm :
  handleConfigMap m c name labels = Ok cm ->
  cmName cm = name /\ cmNamespace cm = ns m /\ cmLabels cm = labels.
Proof.
  unfold handleConfigMap. destruct (Get c (ns m, name)) as [found|e].
  - intros [= <-]. auto.
  - destruct (IsNotFound e); [intros [= <-]; auto | discriminate].
Qed.

(** The table that [handleConfigMap] hands back is the table of the
    record, or the empty table when there is no record; the read met no
    fault. *)
Lemma handleConfigMap_table m c cm :
  handleConfigMap m c (setName m) ipsetLabels = Ok cm ->
  getFaults c !! poolKey m = None /\
  cmData cm = default ∅ (storedTable c (poolKey m)).
Proof.
  unfold handleConfigMap, storedTable. fold (poolKey m).
  destruct (Get c (poolKey m)) as [found|e] eqn:Hget.
  - intros [= <-]. apply Get_Ok_inv in Hget as (Hf & _ & Hs).
    rewrite Hs. auto.
  - destruct (IsNotFound e) eqn:Hnf; [|discriminate]. intros [= <-].
    destruct (Get_NotFound _ _ _ Hget Hnf) as [Hf Hs]. rewrite Hs. auto.
Qed.

Lemma handleConfigMap_of_table m c :
  getFaults c !! poolKey m = None ->
  handleConfigMap m c (setName m) ipsetLabels =
  Ok {| cmName := setName m; cmNamespace := ns m; cmLabels := ipsetLabels;
        cmData := default ∅ (storedTable c (poolKey m)) |}.
Proof.
  intros Hf. unfold handleConfigMap, storedTable, Get. fold (poolKey m).
  rewrite Hf. by destruct (configMaps c !! poolKey m).
Qed.

(** [AllocateIP] after its two reads: the address of the holder, or the
    one the walk selects, is handed to the write. *)
Lemma AllocateIP_steps m fuel c ipRange podIndex params configMap :
  GetPredictableIPAM {| npCIDR := ipRange |} = Ok params ->
  handleConfigMap m c (setName m) ipsetLabels = Ok configMap ->
  AllocateIP m fuel c ipRange podIndex =
  match cmData configMap !! podKeyOf podIndex with
  | Some v => persist m c podIndex v
  | None =>
      match GetNextIP fuel params (exclusions m c) with
      | None => None
      | Some (Err err) =>
          Some (Err (Wrapf "failed to allocate predictable IPs" err), c)
      | Some (Ok ip) => persist m c podIndex ip
      end
  end.
Proof.
  intros Hp Hh. unfold AllocateIP. rewrite Hp, Hh.
  destruct (handleConfigMap_identity _ _ _ _ _ Hh) as (Hn & Hns & Hl).
  rewrite allocatePredictableIPs_single. fold (exclusions m c).
  rewrite Hn, Hns, Hl. unfold persist, written.
  destruct (cmData configMap !! podKeyOf podIndex) as [v|].
  - destruct (CreateOrPatch _ _ _) as [[err|] c']; [reflexivity|].
    by rewrite lookup_singleton_eq.
  - destruct (GetNextIP fuel params (exclusions m c)) as [[ip|err]|];
      [|reflexivity..].
    destruct (CreateOrPatch _ _ _) as [[err|] c']; [reflexivity|].
    by rewrite lookup_singleton_eq.
Qed.

Lemma persist_Ok m c podIndex v ip c' :
  persist m c podIndex v = Some (Ok ip, c') ->
  v = ip /\
  CreateOrPatch c (written m podIndex v) (withLabels ipsetLabels) = (None, c').
Proof.
  unfold persist. destruct (CreateOrPatch _ _ _) as [[err|] c1]; [discriminate|].
  intros [= <- <-]. auto.
Qed.

Lemma persist_Some m c podIndex v :
  exists r c', persist m c podIndex v = Some (r, c').
Proof.
  unfold persist. destruct (CreateOrPatch _ _ _) as [[err|] c1]; eauto.
Qed.

(** A successful [AllocateIP], step by step. *)
Lemma AllocateIP_Ok_inv m fuel c ipRange podIndex ip c' :
  AllocateIP m fuel c ipRange podIndex = Some (Ok ip, c') ->
  exists params configMap,
    GetPredictableIPAM {| npCIDR := ipRange |} = Ok params /\
    handleConfigMap m c (setName m) ipsetLabels = Ok configMap /\
    CreateOrPatch c (written m podIndex ip) (withLabels ipsetLabels) = (None, c') /\
    (cmData configMap !! podKeyOf podIndex = Some ip \/
     (cmData configMap !! podKeyOf podIndex = None /\
      GetNextIP fuel params (exclusions m c) = Some (Ok ip))).
Proof.
  intros Ha.
  destruct (GetPredictableIPAM {| npCIDR := ipRange |}) as [params|e] eqn:Hp.
  2:{ unfold AllocateIP in Ha. rewrite Hp in Ha. discriminate. }
  destruct (handleConfigMap m c (setName m) ipsetLabels) as [configMap|e] eqn:Hh.
  2:{ unfold AllocateIP in Ha. rewrite Hp, Hh in Ha. discriminate. }
  rewrite (AllocateIP_steps _ _ _ _ _ _ _ Hp Hh) in Ha.
  exists params, configMap. split; [reflexivity|]. split; [reflexivity|].
  destruct (cmData configMap !! podKeyOf podIndex) as [v|].
  - apply persist_Ok in Ha as [-> Hw]. auto.
  - destruct (GetNextIP fuel params (exclusions m c)) as [[v|err]|];
      [|discriminate..].
    apply persist_Ok in Ha as [-> Hw]. auto.
Qed.

(** What a successful write of the record of a holder leaves, under
    each account of [CreateOrPatch]. *)
Lemma CreateOrPatch_written m c podIndex ip c' :
  getFaults c !! poolKey m = None ->
  CreateOrPatch c (written m podIndex ip) (withLabels ipsetLabels) = (None, c') ->
  exists table,
    c' = c /\ storedTable c (poolKey m) = Some table /\
    (configMaps c !! poolKey m ≫= (fun s => Some (storedLabels s)))
    = Some ipsetLabels /\ patchReading = RefetchesObject
    \/
    c' = storeConfigMap c (poolKey m)
           {| cmName := setName m; cmNamespace := ns m;
              cmLabels := ipsetLabels; cmData := table |} /\
    writeFaults c !! poolKey m = None /\
    (table = {[ podKeyOf podIndex := ip ]} /\
     (patchReading = RefetchesObject -> configMaps c !! poolKey m = None)
     \/
     patchReading = RefetchesObject /\ storedTable c (poolKey m) = Some table).
Proof.
  intros Hfault. unfold CreateOrPatch.
  change (ObjectKeyFromObject (written m podIndex ip)) with (poolKey m).
  destruct patchReading eqn:Hreading.
  - destruct (writeFaults c !! poolKey m) eqn:Hw; [discriminate|].
    intros [= <-]. exists {[ podKeyOf podIndex := ip ]}. right.
    repeat split; auto. left. split; [reflexivity | discriminate].
  - unfold Get, storedTable. rewrite Hfault.
    destruct (configMaps c !! poolKey m) as [[labels data]|] eqn:Hs; simpl.
    + destruct (decide _) as [Heq|Hne].
      * intros [= <-]. exists data. left. repeat split.
        unfold withLabels in Heq. simpl in Heq. congruence.
      * unfold Patch, Update, ObjectKeyFromObject. simpl. fold (poolKey m).
        destruct (writeFaults c !! poolKey m) eqn:Hw; [discriminate|].
        rewrite Hs. intros [= <-]. exists data. right. repeat split; auto.
    + unfold Create. change (ObjectKeyFromObject _) with (poolKey m).
      destruct (writeFaults c !! poolKey m) eqn:Hw; [discriminate|].
      rewrite Hs. intros [= <-]. exists {[ podKeyOf podIndex := ip ]}. right.
      repeat split; auto.
Qed.

(** After a successful call under the store write of the
    specification, the table of the pool is the single entry of the
    holder. *)
Lemma AllocateIP_stored_table m fuel c ipRange podIndex ip c' :
  patchReading = WritesObject ->
  AllocateIP m fuel c ipRange podIndex = Some (Ok ip, c') ->
  storedTable c' (poolKey m) = Some {[ podKeyOf podIndex := ip ]}.
Proof.
  intros Hreading Ha. apply AllocateIP_Ok_inv in Ha.
  destruct Ha as (params & configMap & _ & Hh & Hw & _).
  apply handleConfigMap_table in Hh as [Hfault _].
  apply (CreateOrPatch_written _ _ _ _ _ Hfault) in Hw.
  destruct Hw as (table & [(_ & _ & _ & Hr)|(-> & _ & [[-> _]|[Hr _]])]);
    try congruence.
  unfold storedTable, storeConfigMap. simpl. by rewrite lookup_insert_eq.
Qed.


End ManagerFacts.

(** ** What a successful allocation leaves of the table *)

Section FrameClaim.
Context `{Netip} `{!Package} `{MapRange} `{Controllerutil}.


End FrameClaim.

Section AllocateClaims.
Context `{Netip} `{!Package} `{MapRange} `{Controllerutil}.

Lemma handleConfigMap_absent_holder m c configMap holder :
  (forall own, Get c (poolKey m) = Ok own -> cmData own !! holder = None) ->
  handleConfigMap m c (setName m) ipsetLabels = Ok configMap ->
  cmData configMap !! holder = None.
Proof.
  intros Hown. unfold handleConfigMap. fold (poolKey m).
  destruct (Get c (poolKey m)) as [found|e].
  - intros [= <-]. simpl. by apply Hown.
  - destruct (IsNotFound e); [intros [= <-]; apply lookup_empty | discriminate].
Qed.

(** C4 (as amended).  Cross-pool exclusion: when the bind or the mdns
    ConfigMap can be read and holds the address [x] as a value, an
    allocation for a holder that is not yet in the table of the pool
    never returns [x]; what it returns lies outside the whole exclusion
    set, the values of the sibling tables that could be read. *)
Theorem AllocateIP_excludes_sibling_addresses
    (m : IPSetManager) (fuel : nat) (c c' : Client) (ipRange : Prefix)
    (podIndex : Z) (sibling : string) (cm : ConfigMap) (k x ip : string) :
  sibling = BindPredIPConfigMap \/ sibling = MdnsPredIPConfigMap ->
  Get c (ns m, sibling) = Ok cm ->
  cmData cm !! k = Some x ->
  (forall own, Get c (poolKey m) = Ok own ->
               cmData own !! podKeyOf podIndex = None) ->
  AllocateIP m fuel c ipRange podIndex = Some (Ok ip, c') ->
  ip <> x /\ ip ∉ exclusions m c.
Proof.
  intros Hsib Hget Hx Hown Ha.
  apply AllocateIP_Ok_inv in Ha.
  destruct Ha as (params & configMap & _ & Hh & _ & Hcase).
  pose proof (handleConfigMap_absent_holder _ _ _ _ Hown Hh) as Habs.
  destruct Hcase as [Hpresent|[_ Hwalk]]; [congruence|].
  apply nextIPWalk_Ok in Hwalk. destruct Hwalk as [Hnot _].
  split; [|exact Hnot]. intros ->. apply Hnot.
  unfold exclusions. rewrite !siblingAllocatedIPs_elem.
  destruct Hsib as [-> | ->]; [left; right | right]; eauto.
Qed.

(** Storing the record of the pool with the table it already has
    leaves the exclusion set as it was. *)
Lemma exclusions_same_table m c cm :
  storedTable c (poolKey m) = Some (cmData cm) ->
  exclusions m (storeConfigMap c (poolKey m) cm) = exclusions m c.
Proof.
  intros Hdata. unfold exclusions, siblingAllocatedIPs.
  pose proof (Get_data_storeConfigMap c (poolKey m) cm
                (ns m, BindPredIPConfigMap) Hdata) as Hbind.
  pose proof (Get_data_storeConfigMap c (poolKey m) cm
                (ns m, MdnsPredIPConfigMap) Hdata) as Hmdns.
  destruct (Get (storeConfigMap _ _ _) (ns m, BindPredIPConfigMap)),
           (Get c (ns m, BindPredIPConfigMap)); try contradiction;
  destruct (Get (storeConfigMap _ _ _) (ns m, MdnsPredIPConfigMap)),
           (Get c (ns m, MdnsPredIPConfigMap)); try contradiction;
  congruence.
Qed.

(** Once the record of the pool carries the labels of the set, writing
    the record of a holder again changes nothing: under the store write
    when the table is the single entry of the holder, under the patch
    of the library whatever the table. *)
Lemma CreateOrPatch_settled m c podIndex ip table :
  getFaults c !! poolKey m = None ->
  writeFaults c !! poolKey m = None ->
  patchReading = RefetchesObject \/ table = {[ podKeyOf podIndex := ip ]} ->
  let c1 := storeConfigMap c (poolKey m)
              {| cmName := setName m; cmNamespace := ns m;
                 cmLabels := ipsetLabels; cmData := table |} in
  CreateOrPatch c1 (written m podIndex ip) (withLabels ipsetLabels) = (None, c1).
Proof.
  intros Hfault Hw Hcase c1. unfold CreateOrPatch.
  change (ObjectKeyFromObject (written m podIndex ip)) with (poolKey m).
  destruct patchReading eqn:Hreading.
  - destruct Hcase as [?| ->]; [discriminate|].
    subst c1. simpl. rewrite Hw.
    change (withLabels ipsetLabels (written m podIndex ip))
      with {| cmName := setName m; cmNamespace := ns m;
              cmLabels := ipsetLabels;
              cmData := ({[ podKeyOf podIndex := ip ]} : Table) |}.
    by rewrite storeConfigMap_twice.
  - subst c1. rewrite (Get_storeConfigMap_eq _ _ _ Hfault). simpl.
    destruct (decide _) as [_|Hne]; [reflexivity|].
    exfalso. apply Hne. reflexivity.
Qed.

(** C6.  Allocation is idempotent per holder.  In every state in which
    the table of the pool maps the holder to [a], and the pool
    parameters and the write are available, [AllocateIP] returns [a] and
    the table still maps the holder to [a] afterwards; and after any
    successful allocation, the same call again returns the same address
    and leaves the state of the API server as the first call left it. *)
Theorem AllocateIP_idempotent
    (m : IPSetManager) (fuel : nat) (c : Client) (ipRange : Prefix)
    (podIndex : Z) :
  (forall own a,
     isOk (GetPredictableIPAM {| npCIDR := ipRange |}) = true ->
     Get c (poolKey m) = Ok own ->
     cmData own !! podKeyOf podIndex = Some a ->
     writeFaults c !! poolKey m = None ->
     exists c1,
       AllocateIP m fuel c ipRange podIndex = Some (Ok a, c1) /\
       (storedTable c1 (poolKey m) ≫= (.!! podKeyOf podIndex)) = Some a) /\
  (forall a c1,
     AllocateIP m fuel c ipRange podIndex = Some (Ok a, c1) ->
     AllocateIP m fuel c1 ipRange podIndex = Some (Ok a, c1)).
Proof.
  split.
  - intros own a Hp Hget Hown Hw.
    destruct (GetPredictableIPAM _) as [params|] eqn:Hparams; [|discriminate].
    destruct (Get_Ok_inv _ _ _ Hget) as (Hfault & Hkey & Hstored).
    pose proof (handleConfigMap_of_table m c Hfault) as Hh.
    assert (Htable : storedTable c (poolKey m) = Some (cmData own))
      by (unfold storedTable; by rewrite Hstored).
    rewrite Htable in Hh. simpl in Hh.
    rewrite (AllocateIP_steps _ _ _ _ _ _ _ Hparams Hh). simpl. rewrite Hown.
    unfold persist, CreateOrPatch.
    change (ObjectKeyFromObject (written m podIndex a)) with (poolKey m).
    destruct patchReading.
    + rewrite Hw. eexists. split; [reflexivity|].
      unfold storedTable, storeConfigMap. simpl.
      rewrite lookup_insert_eq. simpl. apply lookup_singleton_eq.
    + rewrite Hget. destruct (decide _) as [_|_].
      * eexists. split; [reflexivity|]. by rewrite Htable.
      * unfold Patch, Update.
        change (ObjectKeyFromObject (withLabels ipsetLabels own))
          with (ObjectKeyFromObject own).
        rewrite Hkey, Hw, Hstored. eexists. split; [reflexivity|].
        unfold storedTable, storeConfigMap. simpl.
        by rewrite lookup_insert_eq.
  - intros a c1 Ha. pose proof Ha as Hagain.
    apply AllocateIP_Ok_inv in Ha.
    destruct Ha as (params & configMap & Hparams & Hh & Hwrite & Hcase).
    destruct (handleConfigMap_table _ _ _ Hh) as [Hfault Hdata].
    apply (CreateOrPatch_written _ _ _ _ _ Hfault) in Hwrite.
    destruct Hwrite as (table & [(-> & _)|(-> & Hw & Hshape)]);
      [exact Hagain|].
    set (c1 := storeConfigMap c (poolKey m)
                 {| cmName := setName m; cmNamespace := ns m;
                    cmLabels := ipsetLabels; cmData := table |}).
    assert (Hfault1 : getFaults c1 !! poolKey m = None) by exact Hfault.
    pose proof (handleConfigMap_of_table m c1 Hfault1) as Hh1.
    assert (Htable1 : storedTable c1 (poolKey m) = Some table).
    { unfold storedTable, c1, storeConfigMap. simpl. by rewrite lookup_insert_eq. }
    rewrite Htable1 in Hh1. simpl in Hh1.
    rewrite (AllocateIP_steps _ _ _ _ _ _ _ Hparams Hh1). simpl.
    assert (Hpersist : persist m c1 podIndex a = Some (Ok a, c1)).
    { unfold persist. subst c1.
      rewrite (CreateOrPatch_settled m c podIndex a table Hfault Hw); [reflexivity|].
      destruct Hshape as [[-> _]|[Hr _]]; auto. }
    destruct Hshape as [[-> _]|[Hreading Hkept]].
    + by rewrite lookup_singleton_eq.
    + rewrite Hkept in Hdata. simpl in Hdata. rewrite <- Hdata.
      destruct Hcase as [-> |[-> Hwalk]]; [exact Hpersist|].
      assert (Hex : exclusions m c1 = exclusions m c).
      { apply exclusions_same_table. by rewrite Hkept. }
      by rewrite Hex, Hwalk.
Qed.

End AllocateClaims.

Section AllocateTotal.
Context `{Netip} `{!Package} `{MapRange} `{Controllerutil}.

(** Enough fuel gives a result: when the [n]-th successor of the range
    start is the range end or is not excluded, [AllocateIP] with fuel
    [S n] returns (an address or an error). *)
Lemma AllocateIP_returns m n c ipRange podIndex params :
  GetPredictableIPAM {| npCIDR := ipRange |} = Ok params ->
  successor n (RangeStart params) = RangeEnd params \/
  AddrString (successor n (RangeStart params)) ∉ exclusions m c ->
  exists r c', AllocateIP m (S n) c ipRange podIndex = Some (r, c').
Proof.
  intros Hp Hstop.
  destruct (handleConfigMap m c (setName m) ipsetLabels) as [configMap|e] eqn:Hh.
  2:{ unfold AllocateIP. rewrite Hp, Hh. eauto. }
  rewrite (AllocateIP_steps _ _ _ _ _ _ _ Hp Hh).
  destruct (nextIPWalk_terminates n (RangeStart params) (RangeEnd params)
              (exclusions m c) Hstop) as [r Hr].
  unfold GetNextIP. rewrite Hr.
  destruct (cmData configMap !! podKeyOf podIndex) as [v|];
    [apply persist_Some|].
  destruct r as [ip|err]; [apply persist_Some | eauto].
Qed.

End AllocateTotal.

(** ** ReleaseIP *)

Lemma find_split {A} (f : A -> bool) (l : list A) x :
  List.find f l = Some x ->
  exists before after,
    l = before ++ x :: after /\ f x = true /\
    forall y, y ∈ before -> f y = false.
Proof.
  induction l as [|a l IH]; simpl; [discriminate|].
  destruct (f a) eqn:Hfa.
  - intros [= ->]. exists [], l. repeat split; auto.
    intros y Hy. by apply elem_of_nil in Hy.
  - intros Hfind. destruct (IH Hfind) as (before & after & -> & Hfx & Hb).
    exists (a :: before), after. repeat split; auto.
    intros y Hy. apply elem_of_cons in Hy as [->|Hy]; auto.
Qed.

Lemma find_none_all {A} (f : A -> bool) (l : list A) :
  List.find f l = None <-> forall y, y ∈ l -> f y = false.
Proof.
  induction l as [|a l IH]; simpl.
  - split; [intros _ y Hy; by apply elem_of_nil in Hy | reflexivity].
  - destruct (f a) eqn:Hfa.
    + split; [discriminate|]. intros Hall.
      specialize (Hall a ltac:(left)). congruence.
    + rewrite IH. split.
      * intros Hall y Hy. apply elem_of_cons in Hy as [->|Hy]; auto.
      * intros Hall y Hy. apply Hall. by right.
Qed.

Section ReleaseClaims.
Context `{MapRange}.

(** What [ReleaseIP] does, case by case.  On a pool whose record can be
    read: releasing an address that is not a value of the table changes
    nothing and returns success; releasing an address that is a value
    removes exactly one entry, the first one with that value in the
    order in which the table is ranged over, and writes the rest of the
    table back unchanged (when the write is refused, its error is
    returned and nothing changes).  When the record cannot be read, the
    record not existing included, the read error is returned and
    nothing changes. *)
Lemma ReleaseIP_safe (m : IPSetManager) (c : Client) (ip : string) :
  (forall e, Get c (poolKey m) = Err e -> ReleaseIP m c ip = (Some e, c)) /\
  (forall own, Get c (poolKey m) = Ok own ->
     ((forall k, cmData own !! k <> Some ip) -> ReleaseIP m c ip = (None, c)) /\
     ((exists k, cmData own !! k = Some ip) ->
      exists k before after,
        rangeOver (cmData own) = before ++ (k, ip) :: after /\
        (forall kv, kv ∈ before -> kv.2 <> ip) /\
        cmData own !! k = Some ip /\
        match writeFaults c !! poolKey m with
        | Some e => ReleaseIP m c ip = (Some e, c)
        | None =>
            exists c',
              ReleaseIP m c ip = (None, c') /\
              storedTable c' (poolKey m) = Some (delete k (cmData own)) /\
              size (delete k (cmData own)) = pred (size (cmData own)) /\
              (forall k', k' <> k ->
                 delete k (cmData own) !! k' = cmData own !! k') /\
              (forall key, key <> poolKey m ->
                 configMaps c' !! key = configMaps c !! key) /\
              getFaults c' = getFaults c /\ writeFaults c' = writeFaults c
        end)).
Proof.
  split.
  - intros e Hget. unfold ReleaseIP. by rewrite Hget.
  - intros own Hget. unfold ReleaseIP. rewrite Hget. split.
    + intros Hnone.
      assert (Hfind : findValue ip (rangeOver (cmData own)) = None).
      { apply find_none_all. intros [k v] Hin. apply rangeOver_lookup in Hin.
        simpl. apply String.eqb_neq. intros ->. by apply (Hnone k). }
      by rewrite Hfind.
    + intros [k0 Hk0].
      destruct (findValue ip (rangeOver (cmData own))) as [[k v]|] eqn:Hfind.
      2:{ exfalso. pose proof (proj1 (find_none_all _ _) Hfind (k0, ip)) as Hno.
          simpl in Hno. rewrite String.eqb_refl in Hno.
          assert ((k0, ip) ∈ rangeOver (cmData own)) by by apply rangeOver_lookup.
          by specialize (Hno ltac:(assumption)). }
      apply find_split in Hfind.
      destruct Hfind as (before & after & Hsplit & Hv & Hbefore).
      simpl in Hv. apply String.eqb_eq in Hv. subst v.
      assert (Hk : cmData own !! k = Some ip).
      { apply rangeOver_lookup. rewrite Hsplit. apply elem_of_app. right. by left. }
      exists k, before, after. split; [exact Hsplit|]. split.
      { intros kv Hin. apply Hbefore in Hin. by apply String.eqb_neq in Hin. }
      split; [exact Hk|].
      destruct (Get_Ok_inv _ _ _ Hget) as (_ & Hkey & Hstored).
      unfold Update, ObjectKeyFromObject in *. simpl. rewrite Hkey.
      destruct (writeFaults c !! poolKey m); [reflexivity|].
      rewrite Hstored. eexists. split; [reflexivity|].
      unfold storedTable, storeConfigMap. simpl. rewrite lookup_insert_eq.
      repeat split.
      * apply map_size_delete_Some. eauto.
      * intros k' Hne. by apply lookup_delete_ne.
      * intros key Hne. by apply lookup_insert_ne.
Qed.

End ReleaseClaims.

(** ** Merging annotations *)

Lemma fold_insert_lookup (l : list (string * string)) (base : Table) k :
  NoDup l.*1 ->
  fold_left (fun acc kv => <[kv.1 := kv.2]> acc) l base !! k =
  match (list_to_map l : Table) !! k with
  | Some v => Some v
  | None => base !! k
  end.
Proof.
  revert base. induction l as [|[k' v'] l IH]; intros base Hnd; simpl.
  - by rewrite lookup_empty.
  - apply NoDup_cons in Hnd as [Hk' Hnd]. rewrite IH by assumption.
    destruct (decide (k = k')) as [->|Hne].
    + rewrite (proj1 (not_elem_of_list_to_map _ _) Hk').
      by rewrite !lookup_insert_eq.
    + by rewrite !lookup_insert_ne.
Qed.

Section MergeFacts.
Context `{MapRange}.

(** Merging keeps every existing annotation whose key is not among the
    new ones, and takes the new value otherwise. *)
Lemma mergeAnnotations_lookup (existing : option Table) (new : Table) k :
  mergeAnnotations existing new !! k =
  match new !! k with
  | Some v => Some v
  | None => default ∅ existing !! k
  end.
Proof.
  unfold mergeAnnotations.
  assert (Hnd : NoDup (rangeOver new).*1).
  { rewrite rangeOver_perm. apply NoDup_fst_map_to_list. }
  rewrite fold_insert_lookup by exact Hnd.
  assert (Hmap : (list_to_map (rangeOver new) : Table) = new).
  { rewrite <- (list_to_map_to_list new) at 2.
    apply list_to_map_proper; [exact Hnd | apply rangeOver_perm]. }
  rewrite Hmap. by destruct existing.
Qed.

End MergeFacts.

(** ** The annotation write retry loop *)

Section RetryFacts.
Context `{MapRange}.
Variables (api : PodAPI) (annotations : Table).

Lemma attemptVerdict_later r gets gets' last a' p :
  (forall x, x ∈ gets -> x ∈ gets') ->
  attemptVerdict api r gets last a' p -> attemptVerdict api r gets' last a' p.
Proof.
  unfold attemptVerdict. intros Hsub.
  destruct (updateReply api a' p) as [err|]; [|auto].
  destruct (IsConflict err); [|auto]. intros [Hin Hrest]. auto.
Qed.

Lemma shifted_seq (f : nat -> Z) n :
  map f (seq 1 n) = map (fun j => f (S j)) (seq 0 n).
Proof. by rewrite <- seq_shift, map_map. Qed.

Lemma retryLoop_spec n a (pod : Pod) r pod' evs :
  0 <= a -> a + Z.of_nat n = maxRetries -> (0 < n)%nat ->
  retryLoop api n a pod annotations = (r, pod', evs) ->
  let u := length (updateAttempts evs) in
  (1 <= u <= n)%nat /\
  updateAttempts evs = map (fun j => a + Z.of_nat j) (seq 0 u) /\
  sleeps evs = map (fun j => baseDelay * 2 ^ (a + Z.of_nat j)) (seq 0 (u - 1)) /\
  (forall a' p, EvUpdate a' p ∈ evs ->
     attemptVerdict api r (refetches evs) (a + Z.of_nat u - 1) a' p) /\
  (forall a', (a' ∈ refetches evs) ->
     exists p err, EvUpdate a' p ∈ evs /\ updateReply api a' p = Some err /\
                   IsConflict err = true).
Proof.
  revert a pod r pod' evs.
  induction n as [|n IH]; intros a pod r pod' evs Ha Han Hn; [lia|].
  simpl retryLoop.
  set (sent := withAnnotations pod (mergeAnnotations (podAnnotations pod) annotations)).
  destruct (updateReply api a sent) as [err|] eqn:Hreply.
  2:{ (* the update went through *)
      intros [= <- <- <-]. simpl. repeat split; try lia.
      - by rewrite Z.add_0_r.
      - intros a' p Hin. apply list_elem_of_singleton in Hin as [= -> ->].
        unfold attemptVerdict. rewrite Hreply. split; [reflexivity | lia].
      - intros a' Hin. by apply elem_of_nil in Hin. }
  destruct (IsConflict err) eqn:Hconf.
  2:{ (* an error that is no conflict *)
      intros [= <- <- <-]. simpl. repeat split; try lia.
      - by rewrite Z.add_0_r.
      - intros a' p Hin. apply list_elem_of_singleton in Hin as [= -> ->].
        unfold attemptVerdict. rewrite Hreply, Hconf. split; [reflexivity | lia].
      - intros a' Hin. by apply elem_of_nil in Hin. }
  destruct (getReply api a) as [fresh|e] eqn:Hget.
  2:{ (* the re-fetch failed *)
      intros [= <- <- <-]. simpl. repeat split; try lia.
      - by rewrite Z.add_0_r.
      - intros a' p Hin.
        apply elem_of_cons in Hin as [[= -> ->]|Hin].
        + unfold attemptVerdict. rewrite Hreply, Hconf, Hget.
          split; [by left | split; [reflexivity | lia]].
        + apply elem_of_cons in Hin as [?|Hin]; [discriminate|].
          apply list_elem_of_singleton in Hin. discriminate.
      - intros a' Hin. apply list_elem_of_singleton in Hin as ->.
        exists sent, err. split; [by left | auto]. }
  destruct (retryLoop api n (a + 1) fresh annotations) as [[r1 pod1] evs1] eqn:Hrest.
  intros [= <- <- <-].
  destruct n as [|n].
  - (* the last attempt: no sleep, the loop is over *)
    simpl in Hrest. injection Hrest as <- <- <-.
    assert (a = 4) as -> by (unfold maxRetries in Han; lia).
    simpl. repeat split; try lia.
    + intros a' p Hin.
      apply elem_of_cons in Hin as [[= -> ->]|Hin].
      * unfold attemptVerdict. rewrite Hreply, Hconf, Hget.
        split; [by left|]. right. repeat split.
      * apply elem_of_cons in Hin as [?|Hin]; [discriminate|].
        apply list_elem_of_singleton in Hin. discriminate.
    + intros a' Hin. apply list_elem_of_singleton in Hin as ->.
      exists sent, err. split; [by left | auto].
  - (* a further attempt follows, after the sleep *)
    assert (Hlt : (a <? maxRetries - 1) = true)
      by (apply Z.ltb_lt; unfold maxRetries in *; lia).
    rewrite Hlt.
    destruct (IH (a + 1) fresh r1 pod1 evs1 ltac:(lia) ltac:(lia) ltac:(lia) Hrest)
      as (Hu & Hupd & Hsl & Hverdict & Hgets).
    set (u1 := length (updateAttempts evs1)) in *.
    cbv zeta.
    match goal with
    | |- context [length (updateAttempts ?l)] =>
        change (length (updateAttempts l)) with (S u1)
    end.
    split; [lia|]. split; [|split; [|split]].
    + simpl. rewrite Z.add_0_r. f_equal. fold (updateAttempts evs1).
      rewrite Hupd, shifted_seq. apply map_ext. intros j. lia.
    + simpl. fold (sleeps evs1). rewrite Hsl.
      replace (u1 - 0)%nat with (S (u1 - 1)) by lia. simpl.
      rewrite Z.add_0_r, Z.shiftl_1_l. f_equal.
      rewrite shifted_seq. apply map_ext. intros j. f_equal. f_equal. lia.
    + intros a' p Hin.
      apply elem_of_cons in Hin as [[= -> ->]|Hin].
      * unfold attemptVerdict. rewrite Hreply, Hconf, Hget.
        split; [by left|]. left. lia.
      * apply elem_of_cons in Hin as [?|Hin]; [discriminate|].
        apply elem_of_cons in Hin as [?|Hin]; [discriminate|].
        apply elem_of_cons in Hin as [?|Hin]; [discriminate|].
        replace (a + Z.of_nat (S u1) - 1) with (a + 1 + Z.of_nat u1 - 1) by lia.
        apply (attemptVerdict_later r1 (refetches evs1)); [|by apply Hverdict].
        intros x Hx. simpl. by right.
    + intros a' Hin. simpl in Hin. fold (refetches evs1) in Hin.
      apply elem_of_cons in Hin as [->|Hin].
      * exists sent, err. split; [by left | auto].
      * destruct (Hgets a' Hin) as (p & err' & Hp & Hr & Hc).
        exists p, err'. split; [|auto].
        do 4 right. exact Hp.
Qed.

End RetryFacts.

Section RetryClaim.
Context `{MapRange}.

(** C5.  The annotation write makes at most 5 update attempts, numbered
    from 0.  Every attempt but the last was answered with a version
    conflict, was followed by a re-fetch of the pod and, before the next
    attempt, by a sleep of 100ms, 200ms, 400ms and 800ms in turn.  An
    attempt that succeeds ends the loop with success; an attempt
    answered with an error that is no conflict ends it at once with
    that error; a failed re-fetch ends it with its error; and a fifth
    conflict, re-fetched, ends it with an error and without sleep. *)
Theorem updatePodAnnotationsWithRetry_bounded
    (api : PodAPI) (pod : Pod) (annotations : Table) :
  let '(r, _, evs) := updatePodAnnotationsWithRetry api pod annotations in
  exists u : nat,
    (1 <= u <= 5)%nat /\
    updateAttempts evs = map Z.of_nat (seq 0 u) /\
    sleeps evs =
      take (u - 1) [100 * Millisecond; 200 * Millisecond;
                    400 * Millisecond; 800 * Millisecond] /\
    (forall a p, EvUpdate a p ∈ evs ->
       match updateReply api a p with
       | None => r = None /\ a = Z.of_nat u - 1
       | Some err =>
           if IsConflict err then
             (a ∈ refetches evs) /\
             match getReply api a with
             | Err e =>
                 r = Some (Wrapf "failed to re-fetch pod after conflict" e) /\
                 a = Z.of_nat u - 1
             | Ok _ =>
                 a < Z.of_nat u - 1 \/
                 (a = 4 /\ u = 5%nat /\ r = Some exhaustedError)
             end
           else
             r = Some (Wrapf "failed to update pod annotations" err) /\
             a = Z.of_nat u - 1
       end) /\
    (forall a, (a ∈ refetches evs) ->
       exists p err, EvUpdate a p ∈ evs /\ updateReply api a p = Some err /\
                     IsConflict err = true).
Proof.
  destruct (updatePodAnnotationsWithRetry api pod annotations) as [[r pod'] evs] eqn:Hrun.
  unfold updatePodAnnotationsWithRetry in Hrun.
  pose proof (retryLoop_spec api annotations (Z.to_nat maxRetries) 0 pod r pod' evs
                ltac:(lia) ltac:(reflexivity) ltac:(unfold maxRetries; lia) Hrun)
    as (Hu & Hupd & Hsl & Hverdict & Hgets).
  set (u := length (updateAttempts evs)) in *.
  change (Z.to_nat maxRetries) with 5%nat in Hu.
  exists u. split; [lia|]. split; [|split; [|split]].
  - rewrite Hupd. apply map_ext. intros j. lia.
  - rewrite Hsl. destruct Hu as [Hu1 Hu5].
    destruct u as [|[|[|[|[|[|u]]]]]]; try lia; reflexivity.
  - intros a p Hin. specialize (Hverdict a p Hin). unfold attemptVerdict in Hverdict.
    rewrite Z.add_0_l in Hverdict.
    destruct (updateReply api a p) as [err|]; [|exact Hverdict].
    destruct (IsConflict err); [|exact Hverdict].
    destruct Hverdict as [Hin' Hv]. split; [exact Hin'|].
    destruct (getReply api a); [|exact Hv].
    destruct Hv as [Hv|(Ha & Hl & Hr)]; [by left|].
    right. unfold maxRetries in Ha. repeat split; [lia | lia | exact Hr].
  - exact Hgets.
Qed.

End RetryClaim.

(** ** Reconciling a pod that is being deleted *)

Section DeletionClaim.
Context `{Netip} `{!Package} `{!Network} `{MapRange} `{Json} `{Controllerutil}.

Lemma handlePodDeletion_result (c : Client) (pod : Pod) :
  (handlePodDeletion c pod).1.1 = (noRequeue, None).
Proof.
  unfold handlePodDeletion.
  destruct (negb _ && negb _); [|reflexivity].
  by destruct (ReleaseIP _ c _) as [[err|] c'].
Qed.

(** C9.  For a managed pod whose deletion is requested, [Reconcile]
    returns success without requeue, whatever the release does.  When
    both the predictable-ip and the ipset-name annotation are set, the
    address is released once from the named set in namespace
    [openstack], and an error of the release is logged, not returned.
    When either annotation is missing or empty, nothing is released and
    the ConfigMaps are left as they are. *)
Theorem Reconcile_deletion_never_fails
    (fuel : nat) (api : PodAPI) (c : Client) (pod : Pod) :
  isDesignatePod pod = true ->
  podDeletionTimestamp pod <> None ->
  let predictableIP := annotation pod "designate.openstack.org/predictable-ip" in
  let ipsetName := annotation pod "designate.openstack.org/ipset-name" in
  exists c' evs,
    Reconcile fuel api c (Ok pod) = Some ((noRequeue, None), c', evs) /\
    (predictableIP = EmptyString \/ ipsetName = EmptyString ->
     c' = c /\ releases evs = [] /\
     evs = [EvLogInfo "Reconciling Pod for predictable IP annotations"]) /\
    (predictableIP <> EmptyString -> ipsetName <> EmptyString ->
     releases evs = [(ipsetName, predictableIP)] /\
     c' = (ReleaseIP (NewIPSetManager ipsetName "openstack") c predictableIP).2 /\
     forall err,
       (ReleaseIP (NewIPSetManager ipsetName "openstack") c predictableIP).1
       = Some err ->
       EvLogError err ("Failed to release IP " +:+ predictableIP +:+
                       " from ipset ConfigMap " +:+ ipsetName) ∈ evs).
Proof.
  intros Hmanaged Hdeleted predictableIP ipsetName.
  unfold Reconcile. rewrite Hmanaged. simpl negb. cbv iota.
  rewrite (bool_decide_eq_true_2 _ Hdeleted).
  unfold handlePodDeletion. fold predictableIP ipsetName.
  destruct (String.eqb predictableIP EmptyString) eqn:Hip.
  { apply String.eqb_eq in Hip. simpl. eexists _, _. split; [reflexivity|].
    split; [auto | congruence]. }
  destruct (String.eqb ipsetName EmptyString) eqn:Hset.
  { apply String.eqb_eq in Hset. simpl. eexists _, _. split; [reflexivity|].
    split; [auto | congruence]. }
  apply String.eqb_neq in Hip, Hset. simpl andb. cbv iota.
  destruct (ReleaseIP (NewIPSetManager ipsetName "openstack") c predictableIP)
    as [[err|] c'] eqn:Hrel; eexists _, _; (split; [reflexivity|]); split;
    try (intros [?|?]; congruence); intros _ _.
  - repeat split. intros err' [= <-]. simpl. right. right. by left.
  - repeat split. intros err' [=].
Qed.

End DeletionClaim.

(** ** Scenarios on the concrete pool *)

Section Scenarios.
Local Existing Instances IPv4_Netip examplePackage exampleNetwork SortedRange
  exampleJson specWrite.

Example GetNextIP_skips_excluded :
  GetNextIP 8 examplePool {[ "10.0.0.1"; "10.0.0.2" ]} = Some (Ok "10.0.0.3").
Proof. vm_compute. reflexivity. Qed.

Example GetNextIP_exhausted :
  GetNextIP 8 examplePool {[ "10.0.0.1"; "10.0.0.2"; "10.0.0.3"; "10.0.0.4" ]}
  = Some (Err ErrPredictableIPOutOfAddresses).
Proof. vm_compute. reflexivity. Qed.

Example GetPodPredictableIP_scenario :
  GetPodPredictableIP examplePool 0 = Ok "10.0.0.1" /\
  GetPodPredictableIP examplePool 3 = Ok "10.0.0.4" /\
  isErr (GetPodPredictableIP examplePool 4) = true.
Proof. vm_compute. auto. Qed.


(** C2.  Two holders allocated one after the other on an empty pool
    over the range from 10.0.0.1 to 10.0.0.5: both are given 10.0.0.1.
    The table ends up with the second holder alone under the store
    write of the specification, with the first holder alone under the
    patch of the library. *)
Theorem AllocateIP_sequence_repeats_first_address :
  @allocateEach _ _ _ specWrite exampleManager 8 emptyClient (CIDR examplePool)
    [0; 1]
  = Some ([Ok "10.0.0.1"; Ok "10.0.0.1"],
          clientWith (poolKey exampleManager) {[ "pod_1" := "10.0.0.1" ]}) /\
  @allocateEach _ _ _ libraryPatch exampleManager 8 emptyClient (CIDR examplePool)
    [0; 1]
  = Some ([Ok "10.0.0.1"; Ok "10.0.0.1"],
          clientWith (poolKey exampleManager) {[ "pod_0" := "10.0.0.1" ]}).
Proof. split; vm_compute; reflexivity. Qed.

(** C3.  Releasing from a pool whose record does not exist at all: the
    address is not in any table, and [ReleaseIP] returns the NotFound
    error of the read instead of success.  On the same state the two
    other readers of the record take the missing record for an empty
    table: [handleConfigMap] hands back a record without data, and
    [IsIPAllocated] answers that the address is not allocated. *)
Theorem ReleaseIP_missing_record_fails :
  Get emptyClient (poolKey exampleManager) = Err StatusNotFound /\
  ReleaseIP exampleManager emptyClient "10.0.0.1"
  = (Some StatusNotFound, emptyClient) /\
  IsIPAllocated exampleManager emptyClient "10.0.0.1" = false /\
  handleConfigMap exampleManager emptyClient (setName exampleManager) ipsetLabels
  = Ok {| cmName := setName exampleManager; cmNamespace := ns exampleManager;
          cmLabels := ipsetLabels; cmData := ∅ |}.
Proof. repeat split; vm_compute; reflexivity. Qed.

Lemma ReleaseIP_safe_witness :
  let table : Table := {[ "pod_0" := "10.0.0.1"; "pod_1" := "10.0.0.2" ]} in
  let c := clientWith (poolKey exampleManager) table in
  ReleaseIP exampleManager c "10.0.0.9" = (None, c) /\
  ReleaseIP exampleManager c "10.0.0.2"
  = (None, clientWith (poolKey exampleManager) {[ "pod_0" := "10.0.0.1" ]}).
Proof.
  intros table c.
  destruct (ReleaseIP_safe exampleManager c "10.0.0.9") as [_ Hread].
  destruct (Hread {| cmName := setName exampleManager; cmNamespace := ns exampleManager;
                     cmLabels := ipsetLabels; cmData := table |})
    as [Habsent _]; [vm_compute; reflexivity|].
  split.
  - apply Habsent. intros k Hk. apply elem_of_map_to_list in Hk.
    vm_compute in Hk.
    repeat (apply elem_of_cons in Hk as [Hk|Hk]; [discriminate|]).
    by apply elem_of_nil in Hk.
  - vm_compute. reflexivity.
Defined.

(** A bind ConfigMap that holds 10.0.0.1 but cannot be read: the
    allocation goes through and returns 10.0.0.1. *)
Lemma AllocateIP_unreadable_sibling_not_excluded :
  (storedTable unreadableSiblingClient ("openstack", BindPredIPConfigMap)
     ≫= (.!! "bind_address_0")) = Some "10.0.0.1" /\
  isErr (Get unreadableSiblingClient ("openstack", BindPredIPConfigMap)) = true /\
  let c' := storeConfigMap unreadableSiblingClient (poolKey exampleManager)
              (written exampleManager 0 "10.0.0.1") in
  @AllocateIP _ _ _ specWrite exampleManager 8 unreadableSiblingClient
    (CIDR examplePool) 0
  = Some (Ok "10.0.0.1", c') /\
  @AllocateIP _ _ _ libraryPatch exampleManager 8 unreadableSiblingClient
    (CIDR examplePool) 0
  = Some (Ok "10.0.0.1", c').
Proof. repeat split; vm_compute; reflexivity. Qed.

Lemma AllocateIP_excludes_sibling_addresses_witness :
  let c := clientWith ("openstack", "designate-bind-ip-map")
             {[ "bind_address_0" := "10.0.0.1" ]} in
  let c' := storeConfigMap c (poolKey exampleManager)
              (written exampleManager 0 "10.0.0.2") in
  AllocateIP exampleManager 8 c (CIDR examplePool) 0 = Some (Ok "10.0.0.2", c') /\
  "10.0.0.2" <> "10.0.0.1".
Proof.
  intros c c'. split; [vm_compute; reflexivity|].
  refine (proj1 (AllocateIP_excludes_sibling_addresses exampleManager 8 c c'
            (CIDR examplePool) 0 "designate-bind-ip-map"
            {| cmName := "designate-bind-ip-map"; cmNamespace := "openstack";
               cmLabels := ipsetLabels;
               cmData := {[ "bind_address_0" := "10.0.0.1" ]} |}
            "bind_address_0" "10.0.0.1" "10.0.0.2" _ _ _ _ _)).
  - left. reflexivity.
  - vm_compute. reflexivity.
  - vm_compute. reflexivity.
  - intros own Hown. vm_compute in Hown. discriminate.
  - vm_compute. reflexivity.
Defined.

Lemma AllocateIP_idempotent_witness :
  let c := clientWith (poolKey exampleManager) {[ "pod_2" := "10.0.0.3" ]} in
  (exists c1,
     AllocateIP exampleManager 0 c (CIDR examplePool) 2 = Some (Ok "10.0.0.3", c1) /\
     (storedTable c1 (poolKey exampleManager) ≫= (.!! podKeyOf 2))
     = Some "10.0.0.3") /\
  (forall a c1,
     AllocateIP exampleManager 8 emptyClient (CIDR examplePool) 2 = Some (Ok a, c1) ->
     AllocateIP exampleManager 8 c1 (CIDR examplePool) 2 = Some (Ok a, c1)).
Proof.
  intros c. split.
  - apply (proj1 (AllocateIP_idempotent exampleManager 0 c (CIDR examplePool) 2)
             {| cmName := setName exampleManager; cmNamespace := ns exampleManager;
                cmLabels := ipsetLabels; cmData := {[ "pod_2" := "10.0.0.3" ]} |}
             "10.0.0.3"); vm_compute; reflexivity.
  - apply (proj2 (AllocateIP_idempotent exampleManager 8 emptyClient
                    (CIDR examplePool) 2)).
Defined.

Lemma GeneratePredictableIPMaps_assigns_witness :
  (GeneratePredictableIPMaps examplePool 3 3).1 !! bindKey 2 = Some "10.0.0.3" /\
  (GeneratePredictableIPMaps examplePool 3 3).2 !! mdnsKey 0 = Some "10.0.0.4" /\
  (GeneratePredictableIPMaps examplePool 3 3).2 !! mdnsKey 1 = None.
Proof.
  assert (Hdistinct : forall i j, (i < j < Z.to_nat (3 + 3))%nat ->
            successor i (RangeStart examplePool) <> successor j (RangeStart examplePool)).
  { intros i j Hij.
    do 6 (destruct i as [|i];
          [do 6 (destruct j as [|j]; [try lia; vm_compute; discriminate|]); lia|]).
    lia. }
  destruct (GeneratePredictableIPMaps_assigns examplePool 3 3
              ltac:(lia) ltac:(lia) Hdistinct) as (Hbind & Hmdns & _).
  split; [|split].
  - apply Hbind. exists 2%nat. repeat split; [lia|].
    intros j Hj. do 3 (destruct j as [|j]; [vm_compute; discriminate|]). lia.
  - apply Hmdns. exists 0%nat. repeat split; [lia|].
    intros j Hj. do 4 (destruct j as [|j]; [vm_compute; discriminate|]). lia.
  - destruct ((GeneratePredictableIPMaps examplePool 3 3).2 !! mdnsKey 1)
      as [v|] eqn:Hv; [|reflexivity].
    apply Hmdns in Hv. destruct Hv as (j & Hj & Hfit & Hkey & _). exfalso.
    apply indexed_key_inj in Hkey. assert (j = 1%nat) as -> by lia.
    apply (Hfit 4%nat); [lia | vm_compute; reflexivity].
Defined.

Lemma Reconcile_deletion_never_fails_witness :
  exists evs,
    Reconcile 8 {| updateReply := fun _ _ => None; getReply := fun _ => Err StatusNotFound |}
      emptyClient (Ok deletedPod)
    = Some ((noRequeue, None), emptyClient, evs) /\
    (ReleaseIP exampleManager emptyClient "10.0.0.2").1 = Some StatusNotFound.
Proof.
  destruct (Reconcile_deletion_never_fails 8
              {| updateReply := fun _ _ => None; getReply := fun _ => Err StatusNotFound |}
              emptyClient deletedPod)
    as (c' & evs & Hrun & _ & Hrelease);
    [vm_compute; reflexivity | vm_compute; discriminate |].
  destruct Hrelease as (_ & Hc' & _); [vm_compute; discriminate..|].
  exists evs. split; [|vm_compute; reflexivity].
  rewrite Hrun, Hc'. vm_compute. reflexivity.
Defined.

Example updatePodAnnotationsWithRetry_all_conflicts :
  let api := {| updateReply := fun _ _ => Some StatusConflict;
                getReply := fun _ => Ok (examplePod "designate-mdns-0" None None) |} in
  let '(r, _, evs) :=
    updatePodAnnotationsWithRetry api (examplePod "designate-mdns-0" None None)
      {[ "designate.openstack.org/pod-index" := "0" ]} in
  r = Some exhaustedError /\
  updateAttempts evs = [0; 1; 2; 3; 4] /\
  refetches evs = [0; 1; 2; 3; 4] /\
  sleeps evs = [100000000; 200000000; 400000000; 800000000].
Proof. vm_compute. auto. Qed.

Example updatePodAnnotationsWithRetry_other_error :
  let api := {| updateReply := fun a _ => if a =? 0 then Some StatusConflict
                                          else Some (StatusOther "Forbidden");
                getReply := fun _ => Ok (examplePod "designate-mdns-0" None None) |} in
  let '(r, _, evs) :=
    updatePodAnnotationsWithRetry api (examplePod "designate-mdns-0" None None)
      {[ "designate.openstack.org/pod-index" := "0" ]} in
  r = Some (Wrapf "failed to update pod annotations" (StatusOther "Forbidden")) /\
  updateAttempts evs = [0; 1] /\ refetches evs = [0] /\ sleeps evs = [100000000].
Proof. vm_compute. auto. Qed.

Example isDesignatePod_scenarios :
  isDesignatePod (examplePod "designate-backendbind9-3" None None) = true /\
  isDesignatePod (examplePod "unrelated-7" None None) = false.
Proof. vm_compute. auto. Qed.

End Scenarios.

(** * Further properties *)

(** ** The decimal text of an integer *)

Lemma pretty_N_char_digit (x : N) :
  (x < 10)%N ->
  isDigit (pretty_N_char x) = true /\ digitVal (pretty_N_char x) = Z.of_N x.
Proof.
  intros Hx.
  assert (x = 0 \/ x = 1 \/ x = 2 \/ x = 3 \/ x = 4 \/ x = 5 \/ x = 6 \/
          x = 7 \/ x = 8 \/ x = 9)%N as Hc by lia.
  repeat (destruct Hc as [->|Hc]; [split; reflexivity|]).
  subst x. split; reflexivity.
Qed.

Lemma pretty_N_go_digits (x : N) (s : string) :
  allDigits s = true -> allDigits (pretty_N_go x s) = true.
Proof.
  revert s. induction (N.lt_wf_0 x) as [x _ IH]; intros s Hs.
  assert (x = 0 \/ 0 < x)%N as [->|Hpos] by lia.
  - by rewrite pretty_N_go_0.
  - rewrite pretty_N_go_step by exact Hpos. apply IH.
    + by apply N.div_lt.
    + unfold allDigits in *. simpl. rewrite Hs, andb_true_r.
      apply pretty_N_char_digit. by apply N.mod_lt.
Qed.

Lemma pretty_N_go_value (x : N) (s : string) :
  fold_left digitStep (list_ascii_of_string (pretty_N_go x s)) 0 =
  fold_left digitStep (list_ascii_of_string s) (Z.of_N x).
Proof.
  revert s. induction (N.lt_wf_0 x) as [x _ IH]; intros s.
  assert (x = 0 \/ 0 < x)%N as [->|Hpos] by lia.
  - by rewrite pretty_N_go_0.
  - rewrite pretty_N_go_step by exact Hpos.
    rewrite IH by (by apply N.div_lt). simpl. f_equal. unfold digitStep.
    destruct (pretty_N_char_digit (x `mod` 10)%N) as [_ ->];
      [by apply N.mod_lt|].
    pose proof (N.div_mod x 10 ltac:(discriminate)). lia.
Qed.

Lemma pretty_N_go_nonempty (x : N) (s : string) :
  s <> EmptyString -> pretty_N_go x s <> EmptyString.
Proof.
  revert s. induction (N.lt_wf_0 x) as [x _ IH]; intros s Hs.
  assert (x = 0 \/ 0 < x)%N as [->|Hpos] by lia.
  - by rewrite pretty_N_go_0.
  - rewrite pretty_N_go_step by exact Hpos. apply IH; [by apply N.div_lt|].
    discriminate.
Qed.

(** [fmt.Sprintf("%d", n)] of an [n] that is not negative is one or
    more decimal digits, of value [n]. *)
Lemma pretty_nonneg (n : Z) :
  0 <= n -> isNumericOrdinal (pretty n) = true /\ decimalValue (pretty n) = n.
Proof.
  intros Hn. destruct n as [|p|p]; [split; reflexivity | | lia].
  unfold pretty, pretty_Z, pretty, pretty_positive, pretty, pretty_N.
  destruct (decide (N.pos p = 0%N)) as [|_]; [discriminate|].
  split.
  - apply isNumericOrdinal_spec. split.
    + rewrite pretty_N_go_step by reflexivity.
      apply pretty_N_go_nonempty. discriminate.
    + by apply pretty_N_go_digits.
  - unfold decimalValue. by rewrite pretty_N_go_value.
Qed.

(** X1.  Round trip with the StatefulSet naming: from the name
    [{stem}-{n}], where the ordinal [n] is written in decimal and fits
    an [int], [ExtractPodIndexFromName] reads [n] back, whatever the
    stem (dashes in it included). *)
Theorem ExtractPodIndexFromName_of_ordinal (stem : string) (n : Z) :
  0 <= n <= maxInt ->
  ExtractPodIndexFromName (stem +:+ "-" +:+ pretty n) = Ok n.
Proof.
  intros Hn. destruct (pretty_nonneg n ltac:(lia)) as [Hd Hv].
  pose proof (proj1 (isNumericOrdinal_spec _) Hd) as [_ Had].
  pose proof (allDigits_no_dash _ Had) as Hnd.
  apply ExtractPodIndexFromName_Ok. exists (pretty n). split.
  - apply trailingToken_Some. exists stem. split; [reflexivity | exact Hnd].
  - apply (Atoi_Ok_unsigned _ _ Hnd). exists (pretty n).
    split; [by left|]. split; [exact Hd|]. split; [by rewrite Hv | exact Hn].
Qed.

Lemma ExtractPodIndexFromName_of_ordinal_witness :
  ExtractPodIndexFromName ("designate-backendbind9" +:+ "-" +:+ pretty 12) = Ok 12.
Proof.
  apply (ExtractPodIndexFromName_of_ordinal "designate-backendbind9" 12).
  unfold maxInt. lia.
Defined.

(** ** Names of the ConfigMaps of a service *)

Lemma list_ascii_of_string_app (a b : string) :
  list_ascii_of_string (a +:+ b) = list_ascii_of_string a ++ list_ascii_of_string b.
Proof. induction a as [|c a IH]; simpl; [reflexivity | by rewrite IH]. Qed.

Lemma list_ascii_of_string_inj (a b : string) :
  list_ascii_of_string a = list_ascii_of_string b -> a = b.
Proof.
  intros Hl. rewrite <- (string_of_list_ascii_of_string a),
               <- (string_of_list_ascii_of_string b). by rewrite Hl.
Qed.

Lemma string_app_inj_r (a b s : string) : a +:+ s = b +:+ s -> a = b.
Proof.
  intros He. apply list_ascii_of_string_inj.
  apply (f_equal list_ascii_of_string) in He.
  rewrite !list_ascii_of_string_app in He. by apply app_inv_tail in He.
Qed.

(** X2.  The two ConfigMap names of a service never collide: each of
    [GetScriptConfigMapName] and [GetServiceConfigConfigMapName] gives
    different names to different resources, and no name of the one is
    a name of the other, whatever the two resources are called. *)
Theorem ConfigMap_names_apart (crName other : string) :
  (GetScriptConfigMapName crName = GetScriptConfigMapName other ->
   crName = other) /\
  (GetServiceConfigConfigMapName crName = GetServiceConfigConfigMapName other ->
   crName = other) /\
  GetScriptConfigMapName crName <> GetServiceConfigConfigMapName other.
Proof.
  unfold GetScriptConfigMapName, GetServiceConfigConfigMapName.
  split; [apply string_app_inj_r|]. split; [apply string_app_inj_r|].
  intros He. apply (f_equal list_ascii_of_string) in He.
  rewrite !list_ascii_of_string_app in He.
  apply (f_equal (@rev ascii)) in He. rewrite !rev_app_distr in He.
  simpl in He. discriminate.
Qed.

(** ** The address of a pod index *)

Section PodAddress.
Context `{Netip}.

Lemma successor_add n k (ip : Addr) :
  successor (n + k) ip = successor n (successor k ip).
Proof. unfold successor. apply Nat.iter_add. Qed.

Lemma GetPodPredictableIP_Ok (predParams : NADIpam) (podIndex : Z) (s : string) :
  GetPodPredictableIP predParams podIndex = Ok s <->
  s = AddrString (successor (Z.to_nat podIndex) (RangeStart predParams)) /\
  forall j, (1 <= j <= Z.to_nat podIndex)%nat ->
            successor j (RangeStart predParams) <> RangeEnd predParams.
Proof.
  unfold GetPodPredictableIP.
  destruct (stepToIndex _ _ _) as [ip|] eqn:Hs.
  - apply stepToIndex_Some in Hs as [-> Hall]. split.
    + intros [= <-]. auto.
    + intros [-> _]. reflexivity.
  - apply stepToIndex_None in Hs as (j & Hj & He). split; [discriminate|].
    intros [_ Hall]. by destruct (Hall j Hj).
Qed.

Lemma GetPodPredictableIP_Err (predParams : NADIpam) (podIndex : Z) (e : error) :
  GetPodPredictableIP predParams podIndex = Err e <->
  e = Errorf ("pod index " +:+ pretty podIndex +:+ " exceeds available IP range") /\
  exists j, (1 <= j <= Z.to_nat podIndex)%nat /\
            successor j (RangeStart predParams) = RangeEnd predParams.
Proof.
  unfold GetPodPredictableIP.
  destruct (stepToIndex _ _ _) as [ip|] eqn:Hs.
  - apply stepToIndex_Some in Hs as [-> Hall]. split; [discriminate|].
    intros [_ (j & Hj & He)]. by destruct (Hall j Hj).
  - apply stepToIndex_None in Hs. split.
    + intros [= <-]. auto.
    + intros [-> _]. reflexivity.
Qed.

(** X3.  [GetPodPredictableIP] returns the text of the successor of the
    range start at the pod index exactly when none of the successors 1
    to [podIndex] is the range end; an index that is not positive gives
    the range start itself, unchecked.  A failure is the out-of-range
    error of that index, and every larger index fails as well. *)
Theorem GetPodPredictableIP_walk (predParams : NADIpam) (podIndex : Z) :
  (forall s, GetPodPredictableIP predParams podIndex = Ok s <->
     s = AddrString (successor (Z.to_nat podIndex) (RangeStart predParams)) /\
     forall j, (1 <= j <= Z.to_nat podIndex)%nat ->
               successor j (RangeStart predParams) <> RangeEnd predParams) /\
  (podIndex <= 0 ->
   GetPodPredictableIP predParams podIndex =
   Ok (AddrString (RangeStart predParams))) /\
  (forall e, GetPodPredictableIP predParams podIndex = Err e ->
     0 < podIndex /\
     forall k, podIndex <= k ->
       GetPodPredictableIP predParams k =
       Err (Errorf ("pod index " +:+ pretty k +:+ " exceeds available IP range"))).
Proof.
  split; [apply GetPodPredictableIP_Ok|]. split.
  - intros Hle. apply GetPodPredictableIP_Ok.
    replace (Z.to_nat podIndex) with 0%nat by lia.
    split; [reflexivity | intros j Hj; lia].
  - intros e He. apply GetPodPredictableIP_Err in He as [_ (j & Hj & He)].
    split; [lia|]. intros k Hk. apply GetPodPredictableIP_Err.
    split; [reflexivity|]. exists j. split; [lia | exact He].
Qed.

(** X4.  The bulk maps and the per-pod walk agree.  On a range that is
    not empty, [GeneratePredictableIPMaps] binds [bind_address_i], for
    [i] below the number of bind replicas, to exactly the address that
    [GetPodPredictableIP] returns for index [i], and leaves the key out
    exactly when [GetPodPredictableIP] fails; [mdns_address_j] is bound
    to the address of index [bindReplicas + j] in the same way. *)
Theorem GeneratePredictableIPMaps_agrees_with_GetPodPredictableIP
    (predParams : NADIpam) (bindReplicas mdnsReplicas : Z) :
  RangeStart predParams <> RangeEnd predParams ->
  let bindMap := (GeneratePredictableIPMaps predParams bindReplicas mdnsReplicas).1 in
  let mdnsMap := (GeneratePredictableIPMaps predParams bindReplicas mdnsReplicas).2 in
  (forall i v, (i < Z.to_nat bindReplicas)%nat ->
     bindMap !! bindKey i = Some v <->
     GetPodPredictableIP predParams (Z.of_nat i) = Ok v) /\
  (forall j v, (j < Z.to_nat mdnsReplicas)%nat ->
     mdnsMap !! mdnsKey j = Some v <->
     GetPodPredictableIP predParams (Z.of_nat (Z.to_nat bindReplicas + j)) = Ok v).
Proof.
  intros Hne bindMap mdnsMap. subst bindMap mdnsMap.
  unfold GeneratePredictableIPMaps.
  set (b := Z.to_nat bindReplicas). set (m := Z.to_nat mdnsReplicas).
  set (start := RangeStart predParams) in *.
  set (rangeEnd := RangeEnd predParams) in *.
  assert (Hfit : forall t, fits rangeEnd start t <->
            forall j, (1 <= j <= t)%nat -> successor j start <> rangeEnd).
  { intros t. split.
    - intros Hf j Hj. apply Hf. lia.
    - intros Hall j Hj. destruct j as [|j]; [exact Hne | apply Hall; lia]. }
  destruct (generateLoop "bind_address_" b 0 start rangeEnd ∅) as [bm ip] eqn:Hbind.
  destruct (generateLoop "mdns_address_" m 0 ip rangeEnd ∅) as [mm ip'] eqn:Hmdns.
  simpl. split.
  - intros i v Hi.
    replace bm with (generateLoop "bind_address_" b 0 start rangeEnd ∅).1
      by (by rewrite Hbind).
    rewrite generateLoop_entries, GetPodPredictableIP_Ok, Nat2Z.id.
    fold start rangeEnd. split.
    + intros (t & Ht & Hf & Hk & ->). apply indexed_key_inj in Hk.
      apply Nat2Z.inj in Hk. subst t. split; [reflexivity | by apply Hfit].
    + intros [-> Hall]. exists i. repeat split; auto. by apply Hfit.
  - intros j v Hj.
    replace mm with (generateLoop "mdns_address_" m 0 ip rangeEnd ∅).1
      by (by rewrite Hmdns).
    replace ip with (generateLoop "bind_address_" b 0 start rangeEnd ∅).2
      by (by rewrite Hbind).
    rewrite generateLoop_entries, GetPodPredictableIP_Ok, Nat2Z.id.
    fold start rangeEnd.
    destruct (fits_dec rangeEnd start (b + j)) as [Hf|(t & Ht & He)].
    + (* every position up to [b + j] is before the end *)
      rewrite generateLoop_stop_full by (intros t Ht; apply Hf; lia).
      split.
      * intros (t & Ht & _ & Hk & ->). apply indexed_key_inj in Hk.
        apply Nat2Z.inj in Hk. subst t.
        rewrite <- successor_add, (Nat.add_comm j b).
        split; [reflexivity | by apply Hfit].
      * intros [-> _]. exists j. split; [exact Hj|]. split.
        { intros t Ht. rewrite <- successor_add, (Nat.add_comm t b).
          apply Hf. lia. }
        split; [reflexivity|]. by rewrite <- successor_add, (Nat.add_comm j b).
    + (* the end of the range is met at a position [t <= b + j] *)
      assert (Ht1 : (1 <= t)%nat).
      { destruct t; [contradiction | lia]. }
      split.
      * intros (t' & Ht' & Hf' & Hk & ->). exfalso.
        apply indexed_key_inj in Hk. apply Nat2Z.inj in Hk. subst t'.
        destruct (le_lt_dec b t) as [Hbt|Htb].
        -- rewrite generateLoop_stop_full in Hf'.
           ++ apply (Hf' (t - b)%nat); [lia|].
              rewrite <- successor_add. by replace (t - b + b)%nat with t by lia.
           ++ intros i Hi Hei.
              rewrite generateLoop_stop_end in Hf' by eauto.
              apply (Hf' 0%nat); [lia | reflexivity].
        -- rewrite generateLoop_stop_end in Hf' by eauto.
           apply (Hf' 0%nat); [lia | reflexivity].
      * intros [_ Hall]. exfalso. apply (Hall t); [lia | exact He].
Qed.

End PodAddress.

(** ** IPv4 addresses and their text *)

Lemma digits_sep_inj (d1 d2 r1 r2 : string) (c : ascii) :
  allDigits d1 = true -> allDigits d2 = true -> isDigit c = false ->
  d1 +:+ String c r1 = d2 +:+ String c r2 -> d1 = d2 /\ r1 = r2.
Proof.
  intros H1 H2 Hc. revert d2 H2.
  induction d1 as [|a d1 IH]; intros [|b d2] H2; simpl.
  - intros [= ->]. auto.
  - intros [= -> _]. apply allDigits_head in H2. congruence.
  - intros [= -> _]. apply allDigits_head in H1. congruence.
  - intros [= -> He].
    assert (Hd1 : allDigits d1 = true).
    { unfold allDigits in *. simpl in H1. bool_hyps. assumption. }
    assert (Hd2 : allDigits d2 = true).
    { unfold allDigits in *. simpl in H2. bool_hyps. assumption. }
    destruct (IH Hd1 d2 Hd2 He) as [-> ->]. auto.
Qed.

Lemma dotted_inj (x y : Z) (r1 r2 : string) :
  0 <= x -> 0 <= y ->
  pretty x +:+ "." +:+ r1 = pretty y +:+ "." +:+ r2 -> x = y /\ r1 = r2.
Proof.
  intros Hx Hy He.
  destruct (pretty_nonneg x Hx) as [Hdx _], (pretty_nonneg y Hy) as [Hdy _].
  apply isNumericOrdinal_spec in Hdx as [_ Hdx], Hdy as [_ Hdy].
  change ("." +:+ r1) with (String "."%char r1) in He.
  change ("." +:+ r2) with (String "."%char r2) in He.
  destruct (digits_sep_inj _ _ _ _ "."%char Hdx Hdy eq_refl He) as [Hp Hr].
  split; [by apply (inj pretty) in Hp | exact Hr].
Qed.

Lemma byte_nonneg (n k : Z) : 0 <= Z.land (Z.shiftr n k) 255.
Proof. apply Z.land_nonneg. right. lia. Qed.

(** On the 32-bit values, the dotted-quad text tells addresses apart. *)
Lemma IPv4_String_inj (n m : Z) :
  0 <= n < 2 ^ 32 -> 0 <= m < 2 ^ 32 ->
  IPv4_String (V4 n) = IPv4_String (V4 m) -> n = m.
Proof.
  intros Hn Hm He. unfold IPv4_String in He.
  apply dotted_inj in He as [H3 He]; [|apply byte_nonneg..].
  apply dotted_inj in He as [H2 He]; [|apply byte_nonneg..].
  apply dotted_inj in He as [H1 He];
    [|apply Z.land_nonneg; right; lia..].
  apply (inj pretty) in He. rename He into H0.
  change 255 with (Z.ones 8) in *.
  rewrite !Z.land_ones in * by lia.
  rewrite !Z.shiftr_div_pow2 in * by lia.
  change (2 ^ 8) with 256 in *. change (2 ^ 16) with 65536 in *.
  change (2 ^ 24) with 16777216 in *. change (2 ^ 32) with 4294967296 in *.
  Z.to_euclidean_division_equations. lia.
Qed.

Lemma IPv4_successor (s : Z) (j : nat) :
  0 <= s -> s + Z.of_nat j < 2 ^ 32 ->
  @successor IPv4_Netip j (V4 s) = V4 (s + Z.of_nat j).
Proof.
  intros Hs. induction j as [|j IH]; intros Hj.
  - simpl. f_equal. lia.
  - rewrite successor_S_out, IH by lia. simpl. unfold IPv4_Next.
    rewrite Z.mod_small by lia.
    destruct (s + Z.of_nat j + 1 =? 0) eqn:E; [apply Z.eqb_eq in E; lia|].
    f_equal. lia.
Qed.

(** On a range of 32-bit addresses, the walk to a non-negative index
    succeeds exactly when the address at that index lies before the end
    of the range, and then returns the text of that address. *)
Lemma GetPodPredictableIP_IPv4_Ok (cidr : IPv4Prefix) (s e k : Z) (a : string) :
  0 <= s < e -> e < 2 ^ 32 -> 0 <= k ->
  @GetPodPredictableIP IPv4_Netip (IPv4Pool cidr s e) k = Ok a <->
  s + k < e /\ a = IPv4_String (V4 (s + k)).
Proof.
  intros Hs He Hk. rewrite GetPodPredictableIP_Ok. simpl. split.
  - intros [-> Hall].
    assert (Hlt : s + k < e).
    { destruct (Z_lt_le_dec (s + k) e) as [|Hge]; [assumption|]. exfalso.
      apply (Hall (Z.to_nat (e - s))); [lia|].
      rewrite IPv4_successor by lia. f_equal. lia. }
    split; [exact Hlt|]. rewrite IPv4_successor by lia.
    by replace (Z.of_nat (Z.to_nat k)) with k by lia.
  - intros [Hlt ->]. split.
    + rewrite IPv4_successor by lia.
      by replace (Z.of_nat (Z.to_nat k)) with k by lia.
    + intros j Hj. rewrite IPv4_successor by lia. intros [= Heq]. lia.
Qed.

(** X5.  On a range of IPv4 addresses from [s] up to, not including,
    [e]: [GetPodPredictableIP] succeeds for a pod index that is not
    negative exactly when the address at that index lies before the
    end of the range; every address it returns is the dotted-quad text
    of an address inside the range; and two different pod indexes never
    get the same address. *)
Theorem GetPodPredictableIP_IPv4_distinct (cidr : IPv4Prefix) (s e : Z) :
  0 <= s < e -> e < 2 ^ 32 ->
  (forall k a, 0 <= k ->
     @GetPodPredictableIP IPv4_Netip (IPv4Pool cidr s e) k = Ok a <->
     s + k < e /\ a = IPv4_String (V4 (s + k))) /\
  (forall k a, 0 <= k ->
     @GetPodPredictableIP IPv4_Netip (IPv4Pool cidr s e) k = Ok a ->
     exists n, s <= n < e /\ a = IPv4_String (V4 n)) /\
  (forall j k a b, 0 <= j -> 0 <= k -> j <> k ->
     @GetPodPredictableIP IPv4_Netip (IPv4Pool cidr s e) j = Ok a ->
     @GetPodPredictableIP IPv4_Netip (IPv4Pool cidr s e) k = Ok b ->
     a <> b).
Proof.
  intros Hs He. split; [|split].
  - intros k a Hk. by apply GetPodPredictableIP_IPv4_Ok.
  - intros k a Hk Ha. apply GetPodPredictableIP_IPv4_Ok in Ha as [Hlt ->];
      [|lia..].
    exists (s + k). split; [lia | reflexivity].
  - intros j k a b Hj Hk Hjk Ha Hb.
    apply GetPodPredictableIP_IPv4_Ok in Ha as [Hja ->]; [|lia..].
    apply GetPodPredictableIP_IPv4_Ok in Hb as [Hkb ->]; [|lia..].
    intros Heq. apply IPv4_String_inj in Heq; lia.
Qed.

Lemma GetPodPredictableIP_IPv4_distinct_witness :
  (exists n, 167772161 <= n < 167772162 /\ "10.0.0.1" = IPv4_String (V4 n)) /\
  isErr (@GetPodPredictableIP IPv4_Netip
           (IPv4Pool {| prefixAddr := AddrFrom4 10 0 0 0; prefixBits := 24 |}
              167772161 167772162) 1) = true /\
  "10.0.0.2" <> "10.0.0.4".
Proof.
  destruct (GetPodPredictableIP_IPv4_distinct
              {| prefixAddr := AddrFrom4 10 0 0 0; prefixBits := 24 |}
              167772161 167772162 ltac:(lia) ltac:(lia)) as (Hiff & Hin & _).
  destruct (GetPodPredictableIP_IPv4_distinct
              {| prefixAddr := AddrFrom4 10 0 0 0; prefixBits := 24 |}
              167772161 167772165 ltac:(lia) ltac:(lia)) as (_ & _ & Hdistinct).
  split; [|split].
  - apply (Hin 0 "10.0.0.1"); [lia | reflexivity].
  - destruct (@GetPodPredictableIP IPv4_Netip _ 1) as [a|err] eqn:Hrun;
      [|reflexivity].
    apply Hiff in Hrun as [Hlt _]; lia.
  - apply (Hdistinct 1 3 "10.0.0.2" "10.0.0.4"); try lia; reflexivity.
Defined.

(** ** Per-pod annotations *)

Section PerPodFacts.
Context `{Netip} `{Json}.

(** X6.  [CreatePerPodPredictableAnnotations] succeeds exactly when the
    walk of [GetPodPredictableIP] and the rendering of the Multus
    annotation do.  The table it returns then has three entries: the
    networks annotation is what [CreatePredictableMultusAnnotation]
    returns for the same arguments, the predictable-ip annotation is
    the address of [GetPodPredictableIP], and the pod-index annotation
    is the index in decimal.  An error is the error of the walk, or
    else the error of the rendering, unchanged. *)
Theorem CreatePerPodPredictableAnnotations_entries
    (networkName interfaceName : string) (podIndex : Z) (predParams : NADIpam) :
  match CreatePerPodPredictableAnnotations networkName interfaceName podIndex
          predParams with
  | Ok annotations =>
      exists ip json,
        GetPodPredictableIP predParams podIndex = Ok ip /\
        CreatePredictableMultusAnnotation networkName interfaceName podIndex
          predParams = Ok json /\
        annotations !! "k8s.v1.cni.cncf.io/networks" = Some json /\
        annotations !! "designate.openstack.org/predictable-ip" = Some ip /\
        annotations !! "designate.openstack.org/pod-index" = Some (pretty podIndex) /\
        size annotations = 3%nat
  | Err e =>
      GetPodPredictableIP predParams podIndex = Err e \/
      isOk (GetPodPredictableIP predParams podIndex) = true /\
      CreatePredictableMultusAnnotation networkName interfaceName podIndex
        predParams = Err e
  end.
Proof.
  unfold CreatePerPodPredictableAnnotations, CreatePredictableMultusAnnotation,
    GetPodPredictableIP.
  destruct (stepToIndex _ _ _) as [ip|]; [|by left].
  destruct (CreateMultusAnnotation _) as [json|e]; [|by right].
  exists (AddrString ip), json. repeat split.
Qed.

End PerPodFacts.

(** ** Merged annotations *)

Section MergeMore.
Context `{MapRange}.

(** X7.  [mergeAnnotations] is the union of the two maps in which the
    new annotations win, whatever the order in which the new map is
    ranged over and also when the existing map is nil: every new entry
    is in the result, every existing entry under another key is kept,
    and nothing else is added.  Merging the same annotations once more
    changes nothing. *)
Theorem mergeAnnotations_union (existing : option Table) (new : Table) :
  mergeAnnotations existing new = new ∪ default ∅ existing /\
  mergeAnnotations (Some (mergeAnnotations existing new)) new
  = mergeAnnotations existing new.
Proof.
  assert (Hu : forall e, mergeAnnotations e new = new ∪ default ∅ e).
  { intros e. apply map_eq. intros k.
    rewrite mergeAnnotations_lookup, lookup_union.
    destruct (new !! k), (default ∅ e !! k); reflexivity. }
  split; [apply Hu|]. rewrite (Hu (Some _)), Hu. simpl.
  apply map_eq. intros k. rewrite !lookup_union.
  destruct (new !! k), (default ∅ existing !! k); reflexivity.
Qed.

End MergeMore.

(** ** Which pods are managed *)

Lemma string_app_cons (x : ascii) (a b : string) :
  String x a +:+ b = String x (a +:+ b).
Proof. reflexivity. Qed.

Lemma string_app_assoc (a b c : string) : (a +:+ b) +:+ c = a +:+ b +:+ c.
Proof.
  induction a as [|x a IH]; [reflexivity|].
  rewrite !string_app_cons. by f_equal.
Qed.

Lemma HasPrefix_spec (s p : string) :
  HasPrefix s p = true <-> exists r, s = p +:+ r.
Proof.
  unfold HasPrefix. revert s. induction p as [|a p IH]; intros s.
  - destruct s; simpl; split; eauto.
  - destruct s as [|b s]; simpl.
    + split; [discriminate | intros [r Hr]; discriminate].
    + setoid_rewrite string_app_cons.
      destruct (ascii_dec a b) as [->|Hne].
      * rewrite IH. split; intros [r Hr]; exists r; congruence.
      * split; [discriminate | intros [r Hr]; congruence].
Qed.

Lemma TrimPrefix_app (p r : string) : TrimPrefix (p +:+ r) p = r.
Proof.
  unfold TrimPrefix.
  rewrite (proj2 (HasPrefix_spec (p +:+ r) p)) by eauto. apply sliceFrom_app.
Qed.

Lemma Contains_spec (s sub : string) :
  Contains s sub = true <-> exists pre post, s = pre +:+ sub +:+ post.
Proof.
  induction s as [|a s IH].
  - cbn [Contains]. rewrite orb_false_r, HasPrefix_spec. split.
    + intros [r Hr]. by exists EmptyString, r.
    + intros ([|b pre] & post & Hs); [eauto | discriminate].
  - cbn [Contains]. rewrite orb_true_iff, HasPrefix_spec, IH. split.
    + intros [[r Hr]|(pre & post & ->)].
      * by exists EmptyString, r.
      * by exists (String a pre), post.
    + intros ([|b pre] & post & Hs); [left; eauto|].
      right. rewrite string_app_cons in Hs. injection Hs as _ ->. eauto.
Qed.

Lemma label_rule (labels : Table) :
  String.eqb (mapIndex labels "app.kubernetes.io/name") "designate" = true <->
  labels !! "app.kubernetes.io/name" = Some "designate".
Proof.
  rewrite String.eqb_eq. unfold mapIndex.
  destruct (labels !! "app.kubernetes.io/name") as [v|]; simpl.
  - split; congruence.
  - split; discriminate.
Qed.

Lemma owner_rule (owners : list OwnerReference) :
  existsb (fun owner =>
             String.eqb (ownerKind owner) "StatefulSet" &&
             existsb (fun service => Contains (ownerName owner) service)
               designateServices) owners = true <->
  exists owner service pre post,
    owner ∈ owners /\ ownerKind owner = "StatefulSet" /\
    service ∈ designateServices /\
    ownerName owner = pre +:+ service +:+ post.
Proof.
  rewrite existsb_exists. split.
  - intros (owner & Hin & Hb). apply andb_prop in Hb as [Hk Hs].
    apply String.eqb_eq in Hk. apply existsb_exists in Hs as (service & Hsin & Hc).
    apply Contains_spec in Hc as (pre & post & Hn).
    exists owner, service, pre, post. by rewrite !list_elem_of_In.
  - intros (owner & service & pre & post & Hin & Hk & Hsin & Hn).
    exists owner. rewrite <- list_elem_of_In. split; [exact Hin|].
    apply andb_true_intro. split; [by apply String.eqb_eq|].
    apply existsb_exists. exists service. rewrite <- list_elem_of_In.
    split; [exact Hsin|]. apply Contains_spec. eauto.
Qed.

Lemma name_rule (name : string) :
  existsb (fun service =>
             HasPrefix name (service +:+ "-") &&
             match TrimPrefix name (service +:+ "-") with
             | String c _ => isDigit c
             | EmptyString => false
             end) designateServices = true <->
  exists service c rest,
    service ∈ designateServices /\
    name = service +:+ "-" +:+ String c rest /\ isDigit c = true.
Proof.
  rewrite existsb_exists. split.
  - intros (service & Hin & Hb). apply andb_prop in Hb as [Hp Hd].
    apply HasPrefix_spec in Hp as [r ->]. rewrite TrimPrefix_app in Hd.
    destruct r as [|c rest]; [discriminate|].
    exists service, c, rest. rewrite list_elem_of_In, <- string_app_assoc. auto.
  - intros (service & c & rest & Hin & -> & Hd).
    exists service. rewrite <- list_elem_of_In. split; [exact Hin|].
    rewrite <- string_app_assoc, TrimPrefix_app.
    apply andb_true_intro. split; [|exact Hd]. apply HasPrefix_spec. eauto.
Qed.

(** X8.  A pod is managed exactly when one of three things holds: its
    label [app.kubernetes.io/name] is [designate]; or one of its owners
    is a StatefulSet whose name contains the name of one of the three
    services; or its own name is the name of one of the three services,
    a dash, and a rest that starts with a decimal digit (what comes
    after that first digit is not looked at). *)
Theorem isDesignatePod_iff (pod : Pod) :
  isDesignatePod pod = true <->
  podLabels pod !! "app.kubernetes.io/name" = Some "designate" \/
  (exists owner service pre post,
     owner ∈ podOwnerReferences pod /\ ownerKind owner = "StatefulSet" /\
     service ∈ designateServices /\
     ownerName owner = pre +:+ service +:+ post) \/
  (exists service c rest,
     service ∈ designateServices /\
     podName pod = service +:+ "-" +:+ String c rest /\ isDigit c = true).
Proof.
  rewrite <- label_rule, <- owner_rule, <- name_rule. unfold isDesignatePod.
  destruct (String.eqb _ "designate"); [tauto|].
  destruct (existsb _ (podOwnerReferences pod)); [tauto|].
  split; [tauto|]. intros [?|[?|?]]; [discriminate.. | assumption].
Qed.

(** X9.  The pods that the StatefulSet of one of the three services
    creates are managed, whatever their labels and owners, and their
    ordinal is what [ExtractPodIndexFromName] reads from their name. *)
Theorem isDesignatePod_StatefulSet_pod (pod : Pod) (service : string) (n : Z) :
  service ∈ designateServices -> 0 <= n <= maxInt ->
  podName pod = service +:+ "-" +:+ pretty n ->
  isDesignatePod pod = true /\ ExtractPodIndexFromName (podName pod) = Ok n.
Proof.
  intros Hs Hn Hname. destruct (pretty_nonneg n ltac:(lia)) as [Hd Hv].
  pose proof (proj1 (isNumericOrdinal_spec _) Hd) as [Hne Had].
  split.
  - unfold isDesignatePod.
    destruct (String.eqb _ "designate"); [reflexivity|].
    destruct (existsb _ (podOwnerReferences pod)); [reflexivity|].
    apply name_rule. destruct (pretty n) as [|c rest] eqn:Hp; [congruence|].
    exists service, c, rest. split; [exact Hs|]. split; [exact Hname|].
    by apply allDigits_head in Had.
  - rewrite Hname. pose proof (allDigits_no_dash _ Had) as Hnd.
    apply ExtractPodIndexFromName_Ok. exists (pretty n). split.
    + apply trailingToken_Some. exists service. split; [reflexivity | exact Hnd].
    + apply (Atoi_Ok_unsigned _ _ Hnd). exists (pretty n).
      split; [by left|]. split; [exact Hd|]. split; [by rewrite Hv | exact Hn].
Qed.

(** ** The ConfigMap of a pool *)

Section ManagerMore.
Context `{Netip} `{!Package} `{MapRange} `{Controllerutil}.

(** X10.  [handleConfigMap] treats a missing ConfigMap as an empty one:
    it fails exactly when the read fails with an error other than
    NotFound, and then with that error; when it succeeds, the record it
    hands back carries the name, namespace and labels asked for (not
    the labels stored) and the data stored, or no data when there is
    no record. *)
Theorem handleConfigMap_missing_is_empty
    (m : IPSetManager) (c : Client) (configMapName : string) (labels : Table) :
  (forall e, handleConfigMap m c configMapName labels = Err e <->
     Get c (ns m, configMapName) = Err e /\ IsNotFound e = false) /\
  (forall cm, handleConfigMap m c configMapName labels = Ok cm <->
     getFaults c !! (ns m, configMapName) = None /\
     cm = {| cmName := configMapName; cmNamespace := ns m; cmLabels := labels;
             cmData := default ∅ (storedTable c (ns m, configMapName)) |}).
Proof.
  unfold handleConfigMap, storedTable, Get.
  destruct (getFaults c !! (ns m, configMapName)) as [reason|]; simpl.
  { split; [intros e; split; [intros [= <-]; auto | intros [[= <-] _]; auto]|].
    intros cm. split; [discriminate | intros [? _]; discriminate]. }
  destruct (configMaps c !! (ns m, configMapName)) as [stored|]; simpl.
  - split; [intros e; split; [discriminate | intros [? _]; discriminate]|].
    intros cm. split; [intros [= <-]; auto | intros [_ ->]; reflexivity].
  - split; [intros e; split; [discriminate | intros [[= <-] ?]; discriminate]|].
    intros cm. split; [intros [= <-]; auto | intros [_ ->]; reflexivity].
Qed.

Lemma scanHolders_spec (ipHolders : list string) (existingMap updatedMap : Table)
    (required : list string) :
  (forall h, (scanHolders ipHolders existingMap updatedMap required).1 !! h =
     match existingMap !! h with
     | Some v => if decide (h ∈ ipHolders) then Some v else updatedMap !! h
     | None => updatedMap !! h
     end) /\
  (forall h, h ∈ (scanHolders ipHolders existingMap updatedMap required).2 <->
     h ∈ required \/ (h ∈ ipHolders /\ existingMap !! h = None)).
Proof.
  revert updatedMap required.
  induction ipHolders as [|holder rest IH]; intros updatedMap required; simpl.
  - split.
    + intros h. destruct (existingMap !! h); [|reflexivity].
      destruct (decide (h ∈ [])) as [Hin|]; [by apply elem_of_nil in Hin | reflexivity].
    + intros h. split; [auto | intros [?|[Hin _]]; [assumption | by apply elem_of_nil in Hin]].
  - destruct (existingMap !! holder) as [ipValue|] eqn:Hholder.
    + destruct (IH (<[holder := ipValue]> updatedMap) required) as [Hu Hr]. split.
      * intros h. rewrite Hu.
        destruct (decide (h = holder)) as [->|Hne].
        -- rewrite Hholder, lookup_insert_eq.
           destruct (decide (holder ∈ rest)), (decide (holder ∈ holder :: rest)) as [|Hn];
             try reflexivity.
           all: exfalso; apply Hn; by left.
        -- rewrite lookup_insert_ne by congruence.
           destruct (existingMap !! h); [|reflexivity].
           destruct (decide (h ∈ rest)) as [Hin|Hnin],
                    (decide (h ∈ holder :: rest)) as [Hin'|Hnin']; try reflexivity.
           ++ exfalso. apply Hnin'. by right.
           ++ exfalso. apply elem_of_cons in Hin' as [?|?]; contradiction.
      * intros h. rewrite Hr, elem_of_cons. split.
        -- intros [?|[? ?]]; auto.
        -- intros [?|[[-> |?] Hn]]; auto. congruence.
    + destruct (IH updatedMap (required ++ [holder])) as [Hu Hr]. split.
      * intros h. rewrite Hu.
        destruct (existingMap !! h) eqn:Hh; [|reflexivity].
        destruct (decide (h ∈ rest)) as [Hin|Hnin],
                 (decide (h ∈ holder :: rest)) as [Hin'|Hnin']; try reflexivity.
        -- exfalso. apply Hnin'. by right.
        -- exfalso. apply elem_of_cons in Hin' as [->|?]; [congruence | contradiction].
      * intros h. rewrite Hr, elem_of_app, list_elem_of_singleton, elem_of_cons.
        split.
        -- intros [[?| ->]|[? ?]]; auto.
        -- intros [?|[[-> |?] Hn]]; auto.
Qed.

Lemma assignRequired_spec (fuel : nat) (params : NADIpam) (required : list string)
    (excluded : gset string) (updatedMap result : Table) :
  assignRequired fuel params required excluded updatedMap = Some (Ok result) ->
  forall h, (h ∈ required -> is_Some (result !! h)) /\
            (h ∉ required -> result !! h = updatedMap !! h).
Proof.
  revert updatedMap. induction required as [|nodeName rest IH];
    intros updatedMap; simpl.
  - intros [= <-] h. split; [intros Hin; by apply elem_of_nil in Hin | reflexivity].
  - destruct (GetNextIP fuel params excluded) as [[ipAddress|err]|];
      [|discriminate..].
    intros Hrest h. destruct (IH _ Hrest h) as [Hin Hout]. split.
    + intros Hh. destruct (decide (h ∈ rest)) as [Hr|Hr]; [auto|].
      apply elem_of_cons in Hh as [->|?]; [|contradiction].
      rewrite (Hout Hr), lookup_insert_eq. eauto.
    + intros Hh. rewrite not_elem_of_cons in Hh. destruct Hh as [Hne Hr].
      rewrite (Hout Hr). by apply lookup_insert_ne.
Qed.

(** X11.  What [allocatePredictableIPs] hands back on success, for any
    list of holders and whatever addresses [GetNextIP] gives: the
    updated map has an entry for exactly the holders asked for, so that
    entries of the existing map under other keys are dropped, and every
    holder that the existing map knows keeps the address it has. *)
Theorem allocatePredictableIPs_holders
    (fuel : nat) (params : NADIpam) (ipHolders : list string)
    (existingMap : Table) (allocatedIPs : gset string)
    (updatedMap : Table) (allocatedIPs' : gset string) :
  allocatePredictableIPs fuel params ipHolders existingMap allocatedIPs
  = Some (Ok (updatedMap, allocatedIPs')) ->
  (forall h, is_Some (updatedMap !! h) <-> h ∈ ipHolders) /\
  (forall h v, h ∈ ipHolders -> existingMap !! h = Some v ->
               updatedMap !! h = Some v).
Proof.
  unfold allocatePredictableIPs.
  destruct (scanHolders_spec ipHolders existingMap ∅ []) as [Hu Hr].
  destruct (scanHolders ipHolders existingMap ∅ []) as [scanned required].
  simpl in Hu, Hr.
  destruct (assignRequired fuel params required allocatedIPs scanned)
    as [[result|err]|] eqn:Ha; [|discriminate..].
  intros [= <- <-].
  pose proof (assignRequired_spec _ _ _ _ _ _ Ha) as Hres.
  assert (Hreq : forall h, h ∈ required <-> h ∈ ipHolders /\ existingMap !! h = None).
  { intros h. rewrite Hr. split; [intros [Hin|?]; [by apply elem_of_nil in Hin | assumption] | auto]. }
  split.
  - intros h. destruct (Hres h) as [Hin Hout].
    destruct (decide (h ∈ required)) as [Hq|Hq].
    + split; [intros _; by apply Hreq in Hq as [? _] | auto].
    + rewrite (Hout Hq), Hu, lookup_empty.
      destruct (existingMap !! h) as [v|] eqn:Hh.
      * destruct (decide (h ∈ ipHolders)); split; auto.
        -- intros [? [=]].
        -- contradiction.
      * split; [intros [? [=]]|]. intros Hin'. exfalso. apply Hq, Hreq. auto.
  - intros h v Hin Hh. destruct (Hres h) as [_ Hout].
    rewrite Hout, Hu, Hh.
    + by destruct (decide (h ∈ ipHolders)).
    + intros Hq. apply Hreq in Hq as [_ ?]. congruence.
Qed.

(** What the write of [AllocateIP] may change. *)
Lemma CreateOrPatch_frame (m : IPSetManager) (c : Client) (podIndex : Z)
    (ip : string) (r : option error) (c' : Client) :
  CreateOrPatch c (written m podIndex ip) (withLabels ipsetLabels) = (r, c') ->
  (forall key, key <> poolKey m -> configMaps c' !! key = configMaps c !! key) /\
  getFaults c' = getFaults c /\ writeFaults c' = writeFaults c /\
  (forall err, r = Some err -> c' = c).
Proof.
  unfold CreateOrPatch.
  change (ObjectKeyFromObject (written m podIndex ip)) with (poolKey m).
  assert (Hstore : forall cm,
            (forall key, key <> poolKey m ->
               configMaps (storeConfigMap c (poolKey m) cm) !! key = configMaps c !! key)).
  { intros cm key Hne. simpl. by apply lookup_insert_ne. }
  destruct patchReading.
  - destruct (writeFaults c !! poolKey m); intros [= <- <-]; repeat split; auto.
    discriminate.
  - destruct (Get c (poolKey m)) as [found|err] eqn:Hget.
    + destruct (decide _); [intros [= <- <-]; repeat split; auto; discriminate|].
      apply Get_Ok_inv in Hget as (_ & Hkey & _).
      unfold Patch, Update.
      change (ObjectKeyFromObject (withLabels ipsetLabels found))
        with (ObjectKeyFromObject found). rewrite Hkey.
      destruct (writeFaults c !! poolKey m); [intros [= <- <-]; repeat split; auto|].
      destruct (configMaps c !! poolKey m); intros [= <- <-]; repeat split; auto.
      discriminate.
    + destruct (IsNotFound err); [|intros [= <- <-]; repeat split; auto].
      unfold Create.
      change (ObjectKeyFromObject (withLabels ipsetLabels (written m podIndex ip)))
        with (poolKey m).
      destruct (writeFaults c !! poolKey m); [intros [= <- <-]; repeat split; auto|].
      destruct (configMaps c !! poolKey m); intros [= <- <-]; repeat split; auto.
      discriminate.
Qed.

Lemma persist_frame (m : IPSetManager) (c : Client) (podIndex : Z) (v : string)
    (r : result string) (c' : Client) :
  persist m c podIndex v = Some (r, c') ->
  (forall key, key <> poolKey m -> configMaps c' !! key = configMaps c !! key) /\
  getFaults c' = getFaults c /\ writeFaults c' = writeFaults c /\
  (forall e, r = Err e ->
     c' = c /\ exists inner, e = Wrapf "failed to create or patch ConfigMap" inner).
Proof.
  unfold persist.
  destruct (CreateOrPatch _ _ _) as [[err|] c1] eqn:Hw; intros [= <- <-];
    destruct (CreateOrPatch_frame _ _ _ _ _ _ Hw) as (Hother & Hg & Hf & Herr);
    (split; [exact Hother|]); (split; [exact Hg|]); (split; [exact Hf|]).
  - intros e [= <-]. split; [by apply (Herr err) | eauto].
  - intros e [=].
Qed.

Lemma AllocateIP_outcome (m : IPSetManager) (fuel : nat) (c : Client)
    (ipRange : Prefix) (podIndex : Z) (r : result string) (c' : Client) :
  AllocateIP m fuel c ipRange podIndex = Some (r, c') ->
  (forall key, key <> poolKey m -> configMaps c' !! key = configMaps c !! key) /\
  getFaults c' = getFaults c /\ writeFaults c' = writeFaults c /\
  (forall e, r = Err e ->
     c' = c /\ exists msg inner, e = Wrapf msg inner /\ msg ∈ allocationSteps).
Proof.
  intros Ha.
  assert (Hearly : forall msg inner,
            msg ∈ allocationSteps -> (r, c') = (Err (Wrapf msg inner), c) ->
            (forall key, key <> poolKey m -> configMaps c' !! key = configMaps c !! key) /\
            getFaults c' = getFaults c /\ writeFaults c' = writeFaults c /\
            (forall e, r = Err e ->
               c' = c /\ exists msg inner, e = Wrapf msg inner /\ msg ∈ allocationSteps)).
  { intros msg inner Hmsg [= -> ->].
    split; [auto|]. split; [auto|]. split; [auto|].
    intros e [= <-]. split; [reflexivity | eauto]. }
  assert (Hlate : forall v, persist m c podIndex v = Some (r, c') ->
            (forall key, key <> poolKey m -> configMaps c' !! key = configMaps c !! key) /\
            getFaults c' = getFaults c /\ writeFaults c' = writeFaults c /\
            (forall e, r = Err e ->
               c' = c /\ exists msg inner, e = Wrapf msg inner /\ msg ∈ allocationSteps)).
  { intros v Hp. destruct (persist_frame _ _ _ _ _ _ Hp) as (Ho & Hg & Hf & He).
    split; [exact Ho|]. split; [exact Hg|]. split; [exact Hf|].
    intros e Hr. destruct (He e Hr) as [-> [inner ->]]. split; [reflexivity|].
    exists "failed to create or patch ConfigMap", inner.
    split; [reflexivity|]. apply list_elem_of_In. simpl. tauto. }
  destruct (GetPredictableIPAM {| npCIDR := ipRange |}) as [params|e] eqn:Hp.
  2:{ unfold AllocateIP in Ha. rewrite Hp in Ha. injection Ha as Ha.
      apply (Hearly "failed to get predictable IP parameters" e);
        [apply list_elem_of_In; simpl; tauto | congruence]. }
  destruct (handleConfigMap m c (setName m) ipsetLabels) as [configMap|e] eqn:Hh.
  2:{ unfold AllocateIP in Ha. rewrite Hp, Hh in Ha. injection Ha as Ha.
      apply (Hearly "failed to handle ConfigMap" e);
        [apply list_elem_of_In; simpl; tauto | congruence]. }
  rewrite (AllocateIP_steps _ _ _ _ _ _ _ Hp Hh) in Ha.
  destruct (cmData configMap !! podKeyOf podIndex) as [v|]; [by apply (Hlate v)|].
  destruct (GetNextIP fuel params (exclusions m c)) as [[ip|err]|];
    [by apply (Hlate ip) | | discriminate].
  injection Ha as Ha.
  apply (Hearly "failed to allocate predictable IPs" err);
    [apply list_elem_of_In; simpl; tauto | congruence].
Qed.

(** X12.  An [AllocateIP] that fails leaves the API server as it was.
    Its error names the step that failed, one of four: the pool
    parameters, the read of the ConfigMap, the address walk, the write.
    The error for a pod that got no address, the last statement of the
    function, is never returned. *)
Theorem AllocateIP_failure_changes_nothing
    (m : IPSetManager) (fuel : nat) (c : Client) (ipRange : Prefix)
    (podIndex : Z) (e : error) (c' : Client) :
  AllocateIP m fuel c ipRange podIndex = Some (Err e, c') ->
  c' = c /\
  (exists msg inner, e = Wrapf msg inner /\ msg ∈ allocationSteps) /\
  e <> Errorf ("failed to allocate IP for pod " +:+ pretty podIndex).
Proof.
  intros Ha. destruct (AllocateIP_outcome _ _ _ _ _ _ _ Ha) as (_ & _ & _ & He).
  destruct (He e eq_refl) as [-> (msg & inner & -> & Hmsg)].
  split; [reflexivity|]. split; [eauto | discriminate].
Qed.

(** X13.  Whatever its result, [AllocateIP] changes no ConfigMap other
    than the one of its own pool, and after a success that ConfigMap
    exists and carries the two ipset labels. *)
Theorem AllocateIP_touches_own_record_only
    (m : IPSetManager) (fuel : nat) (c : Client) (ipRange : Prefix)
    (podIndex : Z) (r : result string) (c' : Client) :
  AllocateIP m fuel c ipRange podIndex = Some (r, c') ->
  (forall key, key <> poolKey m -> configMaps c' !! key = configMaps c !! key) /\
  (isOk r = true ->
   exists stored, configMaps c' !! poolKey m = Some stored /\
                  storedLabels stored = ipsetLabels).
Proof.
  intros Ha. destruct (AllocateIP_outcome _ _ _ _ _ _ _ Ha) as (Hother & _).
  split; [exact Hother|]. destruct r as [ip|e]; [intros _ | discriminate].
  apply AllocateIP_Ok_inv in Ha.
  destruct Ha as (params & configMap & _ & Hh & Hw & _).
  apply handleConfigMap_table in Hh as [Hfault _].
  apply (CreateOrPatch_written _ _ _ _ _ Hfault) in Hw.
  destruct Hw as (table & [(-> & _ & Hl & _)|(-> & _)]).
  - destruct (configMaps c !! poolKey m) as [stored|]; [|discriminate].
    simpl in Hl. injection Hl as Hl. eauto.
  - simpl. rewrite lookup_insert_eq. eauto.
Qed.

End ManagerMore.

(** ** Asking for and releasing an address *)

Section ReleaseMore.
Context `{MapRange}.

Lemma findValue_is_Some (ip : string) (data : Table) :
  is_Some (findValue ip (rangeOver data)) <-> exists k, data !! k = Some ip.
Proof.
  split.
  - intros [[k v] Hf]. apply find_split in Hf as (before & after & Hs & Hv & _).
    simpl in Hv. apply String.eqb_eq in Hv. subst v. exists k.
    apply rangeOver_lookup. rewrite Hs. apply elem_of_app. right. by left.
  - intros [k Hk]. destruct (findValue ip (rangeOver data)) eqn:Hf; [eauto|].
    exfalso. pose proof (proj1 (find_none_all _ _) Hf (k, ip)) as Hno.
    simpl in Hno. rewrite String.eqb_refl in Hno.
    assert (Hin : (k, ip) ∈ rangeOver data) by (by apply rangeOver_lookup).
    specialize (Hno Hin). discriminate.
Qed.

Lemma IsIPAllocated_true (m : IPSetManager) (c : Client) (ip : string) :
  IsIPAllocated m c ip = true <->
  exists own k, Get c (poolKey m) = Ok own /\ cmData own !! k = Some ip.
Proof.
  unfold IsIPAllocated. destruct (Get c (poolKey m)) as [own|e].
  - destruct (findValue ip (rangeOver (cmData own))) as [kv|] eqn:Hf.
    + split; [intros _ | reflexivity].
      destruct (proj1 (findValue_is_Some ip (cmData own))) as [k Hk];
        [rewrite Hf; eauto|]. eauto.
    + split; [discriminate|]. intros (own' & k & [= <-] & Hk). exfalso.
      destruct (proj2 (findValue_is_Some ip (cmData own))) as [kv Hkv]; [eauto|].
      congruence.
  - split; [discriminate | intros (? & ? & ? & _); discriminate].
Qed.

(** X14.  [IsIPAllocated] answers yes exactly when the ConfigMap of the
    pool can be read and its table holds the address as the value of
    some key, whatever the order in which the table is ranged over; a
    ConfigMap that is missing or cannot be read gives no. *)
Theorem IsIPAllocated_iff (m : IPSetManager) (c : Client) (ip : string) :
  IsIPAllocated m c ip = true <->
  getFaults c !! poolKey m = None /\
  exists table k, storedTable c (poolKey m) = Some table /\ table !! k = Some ip.
Proof.
  rewrite IsIPAllocated_true. unfold storedTable. split.
  - intros (own & k & Hget & Hk).
    apply Get_Ok_inv in Hget as (Hf & _ & Hs). split; [exact Hf|].
    exists (cmData own), k. by rewrite Hs.
  - intros (Hf & table & k & Hs & Hk). unfold Get. rewrite Hf.
    destruct (configMaps c !! poolKey m) as [stored|]; [|discriminate].
    injection Hs as <-. eauto.
Qed.

(** X15.  After a [ReleaseIP] that succeeded, the address released is
    still reported as allocated only if two different keys held it
    before (one entry is removed, not every entry with that value),
    and the answer of [IsIPAllocated] for every other address is what
    it was. *)
Theorem ReleaseIP_then_IsIPAllocated
    (m : IPSetManager) (c : Client) (ip : string) (c' : Client) :
  ReleaseIP m c ip = (None, c') ->
  (IsIPAllocated m c' ip = true <->
   exists table k1 k2,
     storedTable c (poolKey m) = Some table /\ k1 <> k2 /\
     table !! k1 = Some ip /\ table !! k2 = Some ip) /\
  (forall other, other <> ip ->
     IsIPAllocated m c' other = IsIPAllocated m c other).
Proof.
  unfold ReleaseIP. destruct (Get c (poolKey m)) as [own|e] eqn:Hget;
    [|discriminate].
  pose proof (Get_Ok_inv _ _ _ Hget) as (Hfault & Hkey & Hstored).
  assert (Htable : storedTable c (poolKey m) = Some (cmData own)).
  { unfold storedTable. by rewrite Hstored. }
  destruct (findValue ip (rangeOver (cmData own))) as [[k v]|] eqn:Hf.
  - pose proof Hf as Hfind. apply find_split in Hf as (before & after & Hs & Hv & _).
    simpl in Hv. apply String.eqb_eq in Hv. subst v.
    assert (Hk : cmData own !! k = Some ip).
    { apply rangeOver_lookup. rewrite Hs. apply elem_of_app. right. by left. }
    unfold Update, ObjectKeyFromObject. simpl. fold (ObjectKeyFromObject own).
    rewrite Hkey. destruct (writeFaults c !! poolKey m); [discriminate|].
    rewrite Hstored. intros [= <-].
    assert (Hget' : forall x,
              IsIPAllocated m (storeConfigMap c (poolKey m)
                {| cmName := cmName own; cmNamespace := cmNamespace own;
                   cmLabels := cmLabels own; cmData := delete k (cmData own) |}) x
              = true <-> exists k', k' <> k /\ cmData own !! k' = Some x).
    { intros x. rewrite IsIPAllocated_true.
      rewrite (Get_storeConfigMap_eq _ _ _ Hfault). simpl. split.
      - intros (own' & k' & [= <-] & Hk'). simpl in Hk'.
        apply lookup_delete_Some in Hk' as [Hne Hk']. eauto.
      - intros (k' & Hne & Hk'). eexists _, k'. split; [reflexivity|]. simpl.
        apply lookup_delete_Some. auto. }
    split.
    + rewrite Hget'. split.
      * intros (k' & Hne & Hk'). exists (cmData own), k', k. auto.
      * intros (table & k1 & k2 & Ht & Hne & H1 & H2).
        rewrite Htable in Ht. injection Ht as <-.
        destruct (decide (k1 = k)) as [->|Hne1]; [exists k2 | exists k1]; auto.
    + intros other Hne. apply eq_true_iff_eq.
      rewrite Hget', IsIPAllocated_true. split.
      * intros (k' & _ & Hk'). eauto.
      * intros (own' & k' & Hg & Hk'). rewrite Hget in Hg. injection Hg as <-.
        exists k'. split; [|exact Hk']. intros ->. congruence.
  - intros [= <-]. split; [|reflexivity].
    rewrite IsIPAllocated_true. split.
    + intros (own' & k & Hg & Hk). rewrite Hget in Hg. injection Hg as <-.
      exfalso. destruct (proj2 (findValue_is_Some ip (cmData own))) as [kv Hkv];
        [eauto | congruence].
    + intros (table & k1 & _ & Ht & _ & H1 & _).
      rewrite Htable in Ht. injection Ht as <-. eauto.
Qed.

End ReleaseMore.

(** ** What the retry loop sends *)

Lemma releases_nil (evs : list Event) :
  (forall s ip, EvReleaseIP s ip ∉ evs) -> releases evs = [].
Proof.
  induction evs as [|ev evs IH]; intros Hno; [reflexivity|].
  assert (Hrest : releases evs = []).
  { apply IH. intros s ip Hin. apply (Hno s ip). by right. }
  destruct ev; simpl; try exact Hrest.
  exfalso. eapply Hno. by left.
Qed.

Lemma updateAttempts_nil (evs : list Event) :
  (forall a p, EvUpdate a p ∉ evs) -> updateAttempts evs = [].
Proof.
  induction evs as [|ev evs IH]; intros Hno; [reflexivity|].
  assert (Hrest : updateAttempts evs = []).
  { apply IH. intros a p Hin. apply (Hno a p). by right. }
  destruct ev; simpl; try exact Hrest.
  exfalso. eapply Hno. by left.
Qed.

Section RetryMore.
Context `{MapRange}.
Variables (api : PodAPI) (annotations : Table).

(** Every pod sent is the initial pod, or the pod re-fetched after the
    conflict of the attempt before, with the annotations merged in. *)
Lemma retryLoop_sent n a (pod : Pod) r pod' evs :
  retryLoop api n a pod annotations = (r, pod', evs) ->
  forall a' p, EvUpdate a' p ∈ evs ->
    exists base,
      (a' = a /\ base = pod \/ a < a' /\ getReply api (a' - 1) = Ok base) /\
      p = withAnnotations base (mergeAnnotations (podAnnotations base) annotations).
Proof.
  revert a pod r pod' evs. induction n as [|n IH]; intros a pod r pod' evs.
  { simpl. intros [= <- <- <-] a' p Hin. by apply elem_of_nil in Hin. }
  simpl retryLoop.
  set (sent := withAnnotations pod (mergeAnnotations (podAnnotations pod) annotations)).
  destruct (updateReply api a sent) as [err|] eqn:Hreply.
  2:{ intros [= <- <- <-] a' p Hin.
      apply list_elem_of_singleton in Hin as [= -> ->]. exists pod. auto. }
  destruct (IsConflict err).
  2:{ intros [= <- <- <-] a' p Hin.
      apply list_elem_of_singleton in Hin as [= -> ->]. exists pod. auto. }
  destruct (getReply api a) as [fresh|e] eqn:Hget.
  2:{ intros [= <- <- <-] a' p Hin.
      apply elem_of_cons in Hin as [[= -> ->]|Hin]; [exists pod; auto|].
      apply elem_of_cons in Hin as [?|Hin]; [discriminate|].
      apply list_elem_of_singleton in Hin. discriminate. }
  destruct (retryLoop api n (a + 1) fresh annotations) as [[r1 pod1] evs1] eqn:Hrest.
  intros [= <- <- <-] a' p Hin.
  apply elem_of_cons in Hin as [[= -> ->]|Hin]; [exists pod; auto|].
  apply elem_of_cons in Hin as [?|Hin]; [discriminate|].
  apply elem_of_cons in Hin as [?|Hin]; [discriminate|].
  apply elem_of_app in Hin as [Hin|Hin].
  { destruct (a <? maxRetries - 1);
      [apply list_elem_of_singleton in Hin; discriminate | by apply elem_of_nil in Hin]. }
  destruct (IH _ _ _ _ _ Hrest a' p Hin) as (base & [[-> ->]|[Hlt Hg]] & ->).
  - exists fresh. split; [right|reflexivity].
    split; [lia|]. by replace (a + 1 - 1) with a by lia.
  - exists base. split; [right|reflexivity]. split; [lia | exact Hg].
Qed.

(** A run that ends with success hands back the pod that the API
    server accepted. *)
Lemma retryLoop_success n a (pod : Pod) pod' evs :
  retryLoop api n a pod annotations = (None, pod', evs) ->
  exists a', EvUpdate a' pod' ∈ evs /\ updateReply api a' pod' = None.
Proof.
  revert a pod pod' evs. induction n as [|n IH]; intros a pod pod' evs.
  { simpl. discriminate. }
  simpl retryLoop.
  set (sent := withAnnotations pod (mergeAnnotations (podAnnotations pod) annotations)).
  destruct (updateReply api a sent) as [err|] eqn:Hreply.
  2:{ intros [= <- <-]. exists a. split; [by left | exact Hreply]. }
  destruct (IsConflict err); [|discriminate].
  destruct (getReply api a) as [fresh|e]; [|discriminate].
  destruct (retryLoop api n (a + 1) fresh annotations) as [[r1 pod1] evs1] eqn:Hrest.
  intros [= -> <- <-]. destruct (IH _ _ _ _ Hrest) as (a' & Hin & Hr).
  exists a'. split; [|exact Hr].
  do 3 right. apply elem_of_app. by right.
Qed.

(** The loop logs, updates, re-fetches and sleeps; it releases nothing
    and logs no error. *)
Lemma retryLoop_events n a (pod : Pod) r pod' evs :
  retryLoop api n a pod annotations = (r, pod', evs) ->
  forall ev, ev ∈ evs ->
    match ev with
    | EvReleaseIP _ _ | EvLogError _ _ => False
    | _ => True
    end.
Proof.
  revert a pod r pod' evs. induction n as [|n IH]; intros a pod r pod' evs.
  { simpl. intros [= <- <- <-] ev Hin. by apply elem_of_nil in Hin. }
  simpl retryLoop.
  set (sent := withAnnotations pod (mergeAnnotations (podAnnotations pod) annotations)).
  destruct (updateReply api a sent) as [err|].
  2:{ intros [= <- <- <-] ev Hin. by apply list_elem_of_singleton in Hin as ->. }
  destruct (IsConflict err).
  2:{ intros [= <- <- <-] ev Hin. by apply list_elem_of_singleton in Hin as ->. }
  destruct (getReply api a) as [fresh|e].
  2:{ intros [= <- <- <-] ev Hin.
      apply elem_of_cons in Hin as [->|Hin]; [exact I|].
      apply elem_of_cons in Hin as [->|Hin]; [exact I|].
      by apply list_elem_of_singleton in Hin as ->. }
  destruct (retryLoop api n (a + 1) fresh annotations) as [[r1 pod1] evs1] eqn:Hrest.
  intros [= <- <- <-] ev Hin.
  apply elem_of_cons in Hin as [->|Hin]; [exact I|].
  apply elem_of_cons in Hin as [->|Hin]; [exact I|].
  apply elem_of_cons in Hin as [->|Hin]; [exact I|].
  apply elem_of_app in Hin as [Hin|Hin]; [|by apply (IH _ _ _ _ _ Hrest)].
  destruct (a <? maxRetries - 1);
    [by apply list_elem_of_singleton in Hin as -> | by apply elem_of_nil in Hin].
Qed.

End RetryMore.

Section RetryWrites.
Context `{MapRange}.

(** X16.  Every pod that [updatePodAnnotationsWithRetry] sends to the
    API server is the pod it was given (first attempt) or the pod it
    re-fetched after the conflict of the attempt before (later
    attempts), changed in its annotations only: every new annotation
    is set, and every other annotation of that pod is kept.  When the
    call returns success, the pod it leaves in place is the one the
    API server accepted. *)
Theorem updatePodAnnotationsWithRetry_sends_fresh_pod
    (api : PodAPI) (pod : Pod) (annotations : Table) :
  let '(r, pod', evs) := updatePodAnnotationsWithRetry api pod annotations in
  (forall a p, EvUpdate a p ∈ evs ->
     exists base merged,
       (a = 0 /\ base = pod \/ 0 < a /\ getReply api (a - 1) = Ok base) /\
       p = withAnnotations base merged /\
       (forall k v, annotations !! k = Some v -> merged !! k = Some v) /\
       (forall k, annotations !! k = None ->
                  merged !! k = default ∅ (podAnnotations base) !! k)) /\
  (r = None ->
   exists a, EvUpdate a pod' ∈ evs /\ updateReply api a pod' = None).
Proof.
  destruct (updatePodAnnotationsWithRetry api pod annotations)
    as [[r pod'] evs] eqn:Hrun.
  unfold updatePodAnnotationsWithRetry in Hrun. split.
  - intros a p Hin.
    destruct (retryLoop_sent _ _ _ _ _ _ _ _ Hrun a p Hin) as (base & Hbase & ->).
    exists base, (mergeAnnotations (podAnnotations base) annotations).
    split; [exact Hbase|]. split; [reflexivity|]. split.
    + intros k v Hk. by rewrite mergeAnnotations_lookup, Hk.
    + intros k Hk. by rewrite mergeAnnotations_lookup, Hk.
  - intros ->. by apply (retryLoop_success _ _ _ _ _ _ _ Hrun).
Qed.

End RetryWrites.

(** ** Reconcile *)

Section ReleaseFrame.
Context `{MapRange}.

Lemma ReleaseIP_frame (m : IPSetManager) (c : Client) (ip : string)
    (r : option error) (c' : Client) :
  ReleaseIP m c ip = (r, c') ->
  (forall key, key <> poolKey m -> configMaps c' !! key = configMaps c !! key) /\
  getFaults c' = getFaults c /\ writeFaults c' = writeFaults c.
Proof.
  unfold ReleaseIP. destruct (Get c (poolKey m)) as [own|e] eqn:Hget;
    [|intros [= <- <-]; auto].
  apply Get_Ok_inv in Hget as (_ & Hkey & _).
  destruct (findValue ip (rangeOver (cmData own))) as [[k v]|];
    [|intros [= <- <-]; auto].
  unfold Update, ObjectKeyFromObject. simpl. fold (ObjectKeyFromObject own).
  rewrite Hkey. destruct (writeFaults c !! poolKey m); [intros [= <- <-]; auto|].
  destruct (configMaps c !! poolKey m); intros [= <- <-]; auto.
  repeat split. intros key Hne. simpl. by apply lookup_insert_ne.
Qed.

Lemma handlePodDeletion_frame (c : Client) (pod : Pod) :
  exists name,
    (forall key, key <> ("openstack", name) ->
       configMaps (handlePodDeletion c pod).1.2 !! key = configMaps c !! key) /\
    getFaults (handlePodDeletion c pod).1.2 = getFaults c /\
    writeFaults (handlePodDeletion c pod).1.2 = writeFaults c.
Proof.
  unfold handlePodDeletion.
  set (predictableIP := annotation pod "designate.openstack.org/predictable-ip").
  set (ipsetName := annotation pod "designate.openstack.org/ipset-name").
  destruct (negb _ && negb _); [|exists EmptyString; auto].
  exists ipsetName.
  destruct (ReleaseIP (NewIPSetManager ipsetName "openstack") c predictableIP)
    as [[err|] c'] eqn:Hrel; apply ReleaseIP_frame in Hrel; exact Hrel.
Qed.

End ReleaseFrame.

Section ReconcileMore.
Context `{Netip} `{!Package} `{!Network} `{MapRange} `{Json} `{Controllerutil}.

(** A successful [createIPSetAnnotations], step by step. *)
Lemma createIPSetAnnotations_Ok (fuel : nat) (c : Client)
    (networkName interfaceName : string) (podIndex : Z) (predParams : NADIpam)
    (annotations : Table) (c' : Client) (evs : list Event) :
  createIPSetAnnotations fuel c networkName interfaceName podIndex predParams
  = Some (Ok annotations, c', evs) ->
  exists ip json,
    AllocateIP (NewIPSetManager ("designate-" +:+ networkName) "openstack")
      fuel c (CIDR predParams) podIndex = Some (Ok ip, c') /\
    CreateMultusAnnotation
      [ {| mnName := networkName; mnNamespace := EmptyString;
           mnInterface := interfaceName; mnIPs := [ip];
           mnMAC := EmptyString; mnDefaultRoute := [] |} ] = Ok json /\
    annotations =
      <["designate.openstack.org/ipset-name" := "designate-" +:+ networkName]>
        (<["designate.openstack.org/pod-index" := pretty podIndex]>
           (<["designate.openstack.org/predictable-ip" := ip]>
              (<["k8s.v1.cni.cncf.io/networks" := json]> ∅))) /\
    (forall ev, ev ∈ evs -> exists msg, ev = EvLogInfo msg).
Proof.
  unfold createIPSetAnnotations.
  destruct (AllocateIP _ fuel c (CIDR predParams) podIndex) as [[[ip|e] c1]|];
    [|discriminate..].
  destruct (CreateMultusAnnotation _) as [json|e] eqn:Hj; [|discriminate].
  intros [= <- <- <-]. exists ip, json.
  split; [reflexivity|]. split; [exact Hj|]. split; [reflexivity|].
  intros ev Hin. apply list_elem_of_singleton in Hin as ->. eauto.
Qed.

Lemma createIPSetAnnotations_frame (fuel : nat) (c : Client)
    (networkName interfaceName : string) (podIndex : Z) (predParams : NADIpam)
    (r : result Table) (c' : Client) (evs : list Event) :
  createIPSetAnnotations fuel c networkName interfaceName podIndex predParams
  = Some (r, c', evs) ->
  (forall key, key <> ("openstack", "designate-" +:+ networkName) ->
     configMaps c' !! key = configMaps c !! key) /\
  getFaults c' = getFaults c /\ writeFaults c' = writeFaults c /\
  (forall ev, ev ∈ evs -> exists msg, ev = EvLogInfo msg).
Proof.
  unfold createIPSetAnnotations.
  destruct (AllocateIP _ fuel c (CIDR predParams) podIndex) as [[a c1]|] eqn:Ha;
    [|discriminate].
  destruct (AllocateIP_outcome _ _ _ _ _ _ _ Ha) as (Hother & Hg & Hf & _).
  assert (Hlog : forall msg ev, ev ∈ [EvLogInfo msg] -> exists msg, ev = EvLogInfo msg).
  { intros msg ev Hin. apply list_elem_of_singleton in Hin as ->. eauto. }
  destruct a as [ip|e].
  - destruct (CreateMultusAnnotation _) as [json|e]; intros [= <- <- <-];
      (split; [exact Hother|]); (split; [exact Hg|]); (split; [exact Hf|]);
      apply Hlog.
  - intros [= <- <- <-].
    split; [exact Hother|]. split; [exact Hg|]. split; [exact Hf|].
    intros ev Hin. by apply elem_of_nil in Hin.
Qed.

(** X17.  [Reconcile] never asks for a requeue itself: its result is
    the zero [ctrl.Result] on every path, so that a retry comes from the
    error alone.  Every error it returns was logged before, and every
    run starts with the same log line. *)
Theorem Reconcile_result_is_zero
    (fuel : nat) (api : PodAPI) (c : Client) (podGet : result Pod)
    (res : Result) (r : option error) (c' : Client) (evs : list Event) :
  Reconcile fuel api c podGet = Some ((res, r), c', evs) ->
  res = noRequeue /\
  (forall err, r = Some err -> exists msg, EvLogError err msg ∈ evs) /\
  (exists rest,
     evs = EvLogInfo "Reconciling Pod for predictable IP annotations" :: rest).
Proof.
  unfold Reconcile. destruct podGet as [pod|err].
  2:{ destruct (IsNotFound err); intros [= <- <- <- <-];
        (split; [reflexivity|]); (split; [|eauto]).
      - discriminate.
      - intros err' [= <-]. eexists. right. by left. }
  destruct (negb (isDesignatePod pod)).
  { intros [= <- <- <- <-]. split; [reflexivity|]. split; [discriminate | eauto]. }
  destruct (bool_decide (podDeletionTimestamp pod <> None)).
  { pose proof (handlePodDeletion_result c pod) as Hres.
    destruct (handlePodDeletion c pod) as [[[res' r'] c1] evs1]. simpl in Hres.
    injection Hres as -> ->. intros [= <- <- <- <-].
    split; [reflexivity|]. split; [discriminate | eauto]. }
  destruct (negb (String.eqb _ EmptyString)).
  { intros [= <- <- <- <-]. split; [reflexivity|]. split; [discriminate | eauto]. }
  destruct (bool_decide (podPhase pod = PodSucceeded) ||
            bool_decide (podPhase pod = PodFailed)).
  { intros [= <- <- <- <-]. split; [reflexivity|]. split; [discriminate | eauto]. }
  destruct (ExtractPodIndexFromName (podName pod)) as [podIndex|err].
  2:{ intros [= <- <- <- <-]. split; [reflexivity|]. split; [|eauto].
      intros err' [= <-]. eexists. right. by left. }
  destruct (resolveNetwork c pod) as [[msg err]|[networkName params]].
  { intros [= <- <- <- <-]. split; [reflexivity|]. split; [|eauto].
    intros err' [= <-]. eexists. right. by left. }
  destruct (createIPSetAnnotations fuel c networkName "designate" podIndex params)
    as [[[[annotations|err] c1] evs1]|]; [| |discriminate].
  2:{ intros [= <- <- <- <-]. split; [reflexivity|]. split; [|eauto].
      intros err' [= <-]. eexists. right. apply elem_of_app. right. by left. }
  destruct (updatePodAnnotationsWithRetry api pod annotations)
    as [[[err|] pod'] evs2]; intros [= <- <- <- <-];
    (split; [reflexivity|]); (split; [|eauto]).
  - intros err' [= <-]. eexists. right. apply elem_of_app. right.
    apply elem_of_app. right. by left.
  - discriminate.
Qed.

(** X18.  When [Reconcile] does nothing.  A pod that no longer exists
    gives success, and any other failure to read it is handed back as
    it is.  A pod that is not managed, or a managed pod that is not
    being deleted and either has its predictable-ip annotation already
    or has reached a terminal phase, gives success.  In all these cases
    no ConfigMap is changed, no update of the pod is sent and no
    address is released. *)
Theorem Reconcile_no_action
    (fuel : nat) (api : PodAPI) (c : Client) :
  (forall err, exists evs,
     Reconcile fuel api c (Err err)
     = Some ((noRequeue, if IsNotFound err then None else Some err), c, evs) /\
     updateAttempts evs = [] /\ releases evs = []) /\
  (forall pod,
     isDesignatePod pod = false \/
     podDeletionTimestamp pod = None /\
     (annotation pod "designate.openstack.org/predictable-ip" <> EmptyString \/
      podPhase pod = PodSucceeded \/ podPhase pod = PodFailed) ->
     exists evs,
       Reconcile fuel api c (Ok pod) = Some ((noRequeue, None), c, evs) /\
       updateAttempts evs = [] /\ releases evs = []).
Proof.
  split.
  - intros err. unfold Reconcile. destruct (IsNotFound err); eauto.
  - intros pod Hcase. unfold Reconcile.
    destruct (isDesignatePod pod) eqn:Hmanaged; simpl negb; cbv iota.
    2:{ eauto. }
    destruct Hcase as [?|[Hlive Hcase]]; [discriminate|].
    rewrite bool_decide_eq_false_2 by (rewrite Hlive; intros Hn; by apply Hn).
    destruct (String.eqb (annotation pod "designate.openstack.org/predictable-ip")
                EmptyString) eqn:Hann; simpl negb; cbv iota.
    2:{ eauto. }
    apply String.eqb_eq in Hann.
    destruct Hcase as [?|Hphase]; [contradiction|].
    assert (Hterm : bool_decide (podPhase pod = PodSucceeded) ||
                    bool_decide (podPhase pod = PodFailed) = true).
    { destruct Hphase as [-> | ->]; reflexivity. }
    rewrite Hterm. eauto.
Qed.

(** X19.  Whatever [Reconcile] does, it changes at most one ConfigMap,
    and that one lies in the namespace [openstack], which is written
    into the code: the ConfigMaps of every other namespace, the
    namespace of the pod included when it is another one, are left as
    they are. *)
Theorem Reconcile_changes_one_ConfigMap
    (fuel : nat) (api : PodAPI) (c : Client) (podGet : result Pod)
    (out : Result * option error) (c' : Client) (evs : list Event) :
  Reconcile fuel api c podGet = Some (out, c', evs) ->
  exists name,
    (forall key, key <> ("openstack", name) ->
       configMaps c' !! key = configMaps c !! key) /\
    (forall key, key.1 <> "openstack" ->
       configMaps c' !! key = configMaps c !! key).
Proof.
  intros Hrun.
  cut (exists name, forall key, key <> ("openstack", name) ->
         configMaps c' !! key = configMaps c !! key).
  { intros [name Hother]. exists name. split; [exact Hother|].
    intros key Hns. apply Hother. intros ->. by apply Hns. }
  revert Hrun. unfold Reconcile. destruct podGet as [pod|err].
  2:{ destruct (IsNotFound err); intros [= <- <- <-]; exists EmptyString; auto. }
  destruct (negb (isDesignatePod pod)).
  { intros [= <- <- <-]. exists EmptyString. auto. }
  destruct (bool_decide (podDeletionTimestamp pod <> None)).
  { destruct (handlePodDeletion_frame c pod) as (name & Hother & _).
    destruct (handlePodDeletion c pod) as [[r1 c1] evs1]. simpl in Hother.
    intros [= <- <- <-]. eauto. }
  destruct (negb (String.eqb _ EmptyString)).
  { intros [= <- <- <-]. exists EmptyString. auto. }
  destruct (bool_decide (podPhase pod = PodSucceeded) ||
            bool_decide (podPhase pod = PodFailed)).
  { intros [= <- <- <-]. exists EmptyString. auto. }
  destruct (ExtractPodIndexFromName (podName pod)) as [podIndex|err].
  2:{ intros [= <- <- <-]. exists EmptyString. auto. }
  destruct (resolveNetwork c pod) as [[msg err]|[networkName params]].
  { intros [= <- <- <-]. exists EmptyString. auto. }
  destruct (createIPSetAnnotations fuel c networkName "designate" podIndex params)
    as [[[a c1] evs1]|] eqn:Hc; [|discriminate].
  apply createIPSetAnnotations_frame in Hc as (Hother & _).
  destruct a as [annotations|err].
  - destruct (updatePodAnnotationsWithRetry api pod annotations)
      as [[[err|] pod'] evs2]; intros [= <- <- <-]; eauto.
  - intros [= <- <- <-]. eauto.
Qed.

(** X20.  From allocation to annotation.  For a managed pod that is
    not being deleted, has no predictable-ip annotation and is not in a
    terminal phase, whose name gives the index [podIndex] and whose
    network is resolved: once [AllocateIP] on the pool
    [designate-{network}] of namespace [openstack] has returned [ip],
    [Reconcile] returns with the ConfigMaps as the allocation left
    them, whatever happens next (nothing is rolled back when the
    annotation cannot be rendered or the pod cannot be updated).
    Every update of the pod that it sends carries [ip], the name of
    the pool and the index in its annotations; it returns success only
    when the API server accepted one of them; and it releases
    nothing. *)
Theorem Reconcile_annotates_with_allocation
    (fuel : nat) (api : PodAPI) (c : Client) (pod : Pod) (podIndex : Z)
    (networkName : string) (params : NADIpam) (ip : string) (c1 : Client) :
  isDesignatePod pod = true ->
  podDeletionTimestamp pod = None ->
  annotation pod "designate.openstack.org/predictable-ip" = EmptyString ->
  podPhase pod <> PodSucceeded -> podPhase pod <> PodFailed ->
  ExtractPodIndexFromName (podName pod) = Ok podIndex ->
  resolveNetwork c pod = inr (networkName, params) ->
  AllocateIP (NewIPSetManager ("designate-" +:+ networkName) "openstack")
    fuel c (CIDR params) podIndex = Some (Ok ip, c1) ->
  exists r evs,
    Reconcile fuel api c (Ok pod) = Some ((noRequeue, r), c1, evs) /\
    (forall a sent, EvUpdate a sent ∈ evs ->
       annotation sent "designate.openstack.org/predictable-ip" = ip /\
       annotation sent "designate.openstack.org/ipset-name"
       = "designate-" +:+ networkName /\
       annotation sent "designate.openstack.org/pod-index" = pretty podIndex) /\
    (r = None ->
     exists a sent, EvUpdate a sent ∈ evs /\ updateReply api a sent = None) /\
    releases evs = [].
Proof.
  intros Hmanaged Hlive Hann Hs Hf Hindex Hnet Halloc.
  unfold Reconcile. rewrite Hmanaged. simpl negb. cbv iota.
  rewrite bool_decide_eq_false_2 by (rewrite Hlive; intros Hn; by apply Hn).
  rewrite Hann. simpl negb. cbv iota.
  rewrite (bool_decide_eq_false_2 _ Hs), (bool_decide_eq_false_2 _ Hf).
  simpl orb. cbv iota. rewrite Hindex, Hnet.
  unfold createIPSetAnnotations. rewrite Halloc.
  destruct (CreateMultusAnnotation _) as [json|e].
  2:{ eexists _, _. split; [reflexivity|]. split; [|split].
      - intros a sent Hin. exfalso.
        apply elem_of_cons in Hin as [?|Hin]; [discriminate|].
        apply elem_of_cons in Hin as [?|Hin]; [discriminate|].
        apply list_elem_of_singleton in Hin. discriminate.
      - discriminate.
      - reflexivity. }
  set (annotations :=
         <["designate.openstack.org/ipset-name" := "designate-" +:+ networkName]>
           (<["designate.openstack.org/pod-index" := pretty podIndex]>
              (<["designate.openstack.org/predictable-ip" := ip]>
                 (<["k8s.v1.cni.cncf.io/networks" := json]> (∅ : Table))))).
  destruct (updatePodAnnotationsWithRetry api pod annotations)
    as [[r pod'] evs2] eqn:Hrun.
  unfold updatePodAnnotationsWithRetry in Hrun.
  assert (Hsent : forall a sent, EvUpdate a sent ∈ evs2 ->
            annotation sent "designate.openstack.org/predictable-ip" = ip /\
            annotation sent "designate.openstack.org/ipset-name"
            = "designate-" +:+ networkName /\
            annotation sent "designate.openstack.org/pod-index" = pretty podIndex).
  { intros a sent Hin.
    destruct (retryLoop_sent _ _ _ _ _ _ _ _ Hrun a sent Hin) as (base & _ & ->).
    unfold annotation, mapIndex. simpl. rewrite !mergeAnnotations_lookup.
    repeat split. }
  assert (Hin2 : forall a sent rest,
            EvUpdate a sent ∈
              EvLogInfo "Reconciling Pod for predictable IP annotations"
              :: [EvLogInfo ("Allocated IP " +:+ ip +:+ " for pod index " +:+
                             pretty podIndex +:+ " via ipset ConfigMap")]
                 ++ evs2 ++ [rest] ->
            (exists msg, rest = EvLogInfo msg) \/ (exists err msg, rest = EvLogError err msg) ->
            EvUpdate a sent ∈ evs2).
  { intros a sent rest Hin Hrest.
    apply elem_of_cons in Hin as [?|Hin]; [discriminate|].
    apply elem_of_cons in Hin as [?|Hin]; [discriminate|].
    apply elem_of_app in Hin as [Hin|Hin]; [exact Hin|].
    apply list_elem_of_singleton in Hin.
    destruct Hrest as [[msg ->]|(err & msg & ->)]; discriminate. }
  assert (Hnorel : forall rest,
            (exists msg, rest = EvLogInfo msg) \/ (exists err msg, rest = EvLogError err msg) ->
            releases
              (EvLogInfo "Reconciling Pod for predictable IP annotations"
               :: [EvLogInfo ("Allocated IP " +:+ ip +:+ " for pod index " +:+
                              pretty podIndex +:+ " via ipset ConfigMap")]
                  ++ evs2 ++ [rest]) = []).
  { intros rest Hrest. apply releases_nil. intros s x Hin.
    apply elem_of_cons in Hin as [?|Hin]; [discriminate|].
    apply elem_of_cons in Hin as [?|Hin]; [discriminate|].
    apply elem_of_app in Hin as [Hin|Hin].
    - by apply (retryLoop_events _ _ _ _ _ _ _ _ Hrun) in Hin.
    - apply list_elem_of_singleton in Hin.
      destruct Hrest as [[msg ->]|(err & msg & ->)]; discriminate. }
  destruct r as [err|].
  - eexists _, _. split; [reflexivity|]. split; [|split].
    + intros a sent Hin. apply Hin2 in Hin; [by apply (Hsent a) | eauto].
    + discriminate.
    + apply Hnorel. eauto.
  - eexists _, _. split; [reflexivity|]. split; [|split].
    + intros a sent Hin. apply Hin2 in Hin; [by apply (Hsent a) | eauto].
    + intros _. destruct (retryLoop_success _ _ _ _ _ _ _ Hrun) as (a & Hin & Hr).
      exists a, pod'. split; [|exact Hr].
      right. right. apply elem_of_app. by left.
    + apply Hnorel. eauto.
Qed.

(** X21.  Round trip between annotation and deletion.  The annotations
    that [createIPSetAnnotations] returns for an allocated address
    [ip], merged into the annotations of a pod, are what
    [handlePodDeletion] needs: for that pod it calls [ReleaseIP] once,
    on the pool that the address was allocated from and with that
    address (provided the address is not the empty text, which
    [handlePodDeletion] takes for a missing annotation). *)
Theorem handlePodDeletion_releases_what_was_allocated
    (fuel : nat) (c : Client) (networkName interfaceName : string)
    (podIndex : Z) (predParams : NADIpam) (annotations : Table) (c1 : Client)
    (evs : list Event) (pod : Pod) (c2 : Client) :
  createIPSetAnnotations fuel c networkName interfaceName podIndex predParams
  = Some (Ok annotations, c1, evs) ->
  let ipsetMgr := NewIPSetManager ("designate-" +:+ networkName) "openstack" in
  let annotated :=
    withAnnotations pod (mergeAnnotations (podAnnotations pod) annotations) in
  exists ip,
    AllocateIP ipsetMgr fuel c (CIDR predParams) podIndex = Some (Ok ip, c1) /\
    (ip <> EmptyString ->
     (handlePodDeletion c2 annotated).1.2 = (ReleaseIP ipsetMgr c2 ip).2 /\
     releases (handlePodDeletion c2 annotated).2
     = [("designate-" +:+ networkName, ip)]) /\
    (ip = EmptyString ->
     (handlePodDeletion c2 annotated).1.2 = c2 /\
     releases (handlePodDeletion c2 annotated).2 = []).
Proof.
  intros Hc ipsetMgr annotated.
  apply createIPSetAnnotations_Ok in Hc as (ip & json & Ha & _ & -> & _).
  exists ip. split; [exact Ha|].
  assert (Hip : annotation annotated "designate.openstack.org/predictable-ip" = ip).
  { unfold annotation, mapIndex, annotated. simpl.
    by rewrite mergeAnnotations_lookup. }
  assert (Hset : annotation annotated "designate.openstack.org/ipset-name"
                 = "designate-" +:+ networkName).
  { unfold annotation, mapIndex, annotated. simpl.
    by rewrite mergeAnnotations_lookup. }
  unfold handlePodDeletion. rewrite Hip, Hset. fold ipsetMgr. split.
  - intros Hne. apply String.eqb_neq in Hne. rewrite Hne.
    change (String.eqb ("designate-" +:+ networkName) EmptyString) with false.
    simpl negb. simpl andb. cbv iota.
    by destruct (ReleaseIP ipsetMgr c2 ip) as [[err|] c3].
  - intros ->. simpl. auto.
Qed.

End ReconcileMore.

Section ReconcileFailures.
Context `{Netip} `{!Package} `{!Network} `{MapRange} `{Json} `{Controllerutil}.

(** X22.  Failures on the way to the allocation.  For a managed pod
    that is not being deleted, has no predictable-ip annotation and is
    not in a terminal phase: a name from which no index can be read, a
    network that cannot be resolved, and an allocation that fails each
    end [Reconcile] with that error (the error of the allocation
    wrapped once more), with every ConfigMap as it was, without any
    update of the pod and without any release. *)
Theorem Reconcile_fails_before_allocation
    (fuel : nat) (api : PodAPI) (c : Client) (pod : Pod) :
  isDesignatePod pod = true ->
  podDeletionTimestamp pod = None ->
  annotation pod "designate.openstack.org/predictable-ip" = EmptyString ->
  podPhase pod <> PodSucceeded -> podPhase pod <> PodFailed ->
  let fails (err : error) :=
    exists evs,
      Reconcile fuel api c (Ok pod) = Some ((noRequeue, Some err), c, evs) /\
      updateAttempts evs = [] /\ releases evs = [] in
  (forall err, ExtractPodIndexFromName (podName pod) = Err err -> fails err) /\
  (forall podIndex msg err,
     ExtractPodIndexFromName (podName pod) = Ok podIndex ->
     resolveNetwork c pod = inl (msg, err) -> fails err) /\
  (forall podIndex networkName params err c1,
     ExtractPodIndexFromName (podName pod) = Ok podIndex ->
     resolveNetwork c pod = inr (networkName, params) ->
     AllocateIP (NewIPSetManager ("designate-" +:+ networkName) "openstack")
       fuel c (CIDR params) podIndex = Some (Err err, c1) ->
     fails (Wrapf "failed to allocate IP via ipset ConfigMap" err)).
Proof.
  intros Hmanaged Hlive Hann Hs Hf fails. subst fails. cbv beta.
  assert (Hrun : Reconcile fuel api c (Ok pod) =
            let started := EvLogInfo "Reconciling Pod for predictable IP annotations" in
            match ExtractPodIndexFromName (podName pod) with
            | Err err =>
                Some ((noRequeue, Some err), c,
                      [started;
                       EvLogError err "Failed to extract pod index from pod name"])
            | Ok podIndex =>
                match resolveNetwork c pod with
                | inl (msg, err) =>
                    Some ((noRequeue, Some err), c, [started; EvLogError err msg])
                | inr (networkName, predictableIPParams) =>
                    match createIPSetAnnotations fuel c networkName "designate"
                            podIndex predictableIPParams with
                    | None => None
                    | Some (Err err, c', evs) =>
                        Some ((noRequeue, Some err), c',
                              started :: evs ++
                              [EvLogError err "Failed to create ipset annotations"])
                    | Some (Ok annotations, c', evs) =>
                        match updatePodAnnotationsWithRetry api pod annotations with
                        | (Some err, _, evs') =>
                            Some ((noRequeue, Some err), c',
                                  started :: evs ++ evs' ++
                                  [EvLogError err
                                     "Failed to update pod annotations after retries"])
                        | (None, _, evs') =>
                            Some ((noRequeue, None), c',
                                  started :: evs ++ evs' ++
                                  [EvLogInfo
                                     ("Successfully added predictable IP annotations to pod "
                                      +:+ podName pod +:+ ": " +:+
                                      mapIndex annotations
                                        "designate.openstack.org/predictable-ip")])
                        end
                    end
                end
            end).
  { unfold Reconcile. rewrite Hmanaged. simpl negb. cbv iota.
    rewrite bool_decide_eq_false_2 by (rewrite Hlive; intros Hn; by apply Hn).
    rewrite Hann. simpl negb. cbv iota.
    rewrite (bool_decide_eq_false_2 _ Hs), (bool_decide_eq_false_2 _ Hf).
    reflexivity. }
  rewrite Hrun. cbv zeta. split; [|split].
  - intros err ->. eauto.
  - intros podIndex msg err -> ->. eauto.
  - intros podIndex networkName params err c1 -> -> Ha.
    unfold createIPSetAnnotations. rewrite Ha.
    destruct (AllocateIP_outcome _ _ _ _ _ _ _ Ha) as (_ & _ & _ & He).
    destruct (He err eq_refl) as [-> _]. eauto.
Qed.

End ReconcileFailures.

(** ** Volumes and mounts of the bind9 backend pods *)

(** X23.  The mounts of the init container and of the service container
    name volumes that exist: every mount names one of the six volumes
    of [getServicePodVolumes], except the mount of the persistent data,
    which carries the name it is given (the name of the volume claim
    template).  The six volume names differ from each other, and
    within each container no path is mounted twice.  The secrets of the
    scripts and of the configuration are named as
    [GetScriptConfigMapName] and [GetServiceConfigConfigMapName] name
    them. *)
Theorem volume_mounts_name_volumes
    (DesignateBindKeySecret baseConfigMapName persistentData : string) :
  let volumes := getServicePodVolumes DesignateBindKeySecret baseConfigMapName in
  NoDup (volumeName <$> volumes) /\
  (forall mount, mount ∈ getInitVolumeMounts ->
     mountName mount ∈ (volumeName <$> volumes)) /\
  (forall mount, mount ∈ getServicePodVolumeMounts persistentData ->
     mountName mount = persistentData \/
     mountName mount ∈ (volumeName <$> volumes)) /\
  NoDup (MountPath <$> getInitVolumeMounts) /\
  NoDup (MountPath <$> getServicePodVolumeMounts persistentData) /\
  {| volumeName := scriptVolume;
     volumeSource := Secret scriptMode (GetScriptConfigMapName baseConfigMapName) |}
  ∈ volumes /\
  {| volumeName := configVolume;
     volumeSource :=
       Secret configMode (GetServiceConfigConfigMapName baseConfigMapName) |}
  ∈ volumes.
Proof.
  intros volumes. subst volumes.
  assert (Hnodup : forall l : list string, bool_decide (NoDup l) = true -> NoDup l).
  { intros l. apply bool_decide_eq_true_1. }
  split; [apply Hnodup; vm_compute; reflexivity|].
  split.
  { intros mount Hin. unfold getInitVolumeMounts in Hin.
    repeat (apply elem_of_cons in Hin as [->|Hin];
            [apply list_elem_of_In; simpl; tauto|]).
    by apply elem_of_nil in Hin. }
  split.
  { intros mount Hin. unfold getServicePodVolumeMounts in Hin.
    repeat (apply elem_of_cons in Hin as [->|Hin];
            [first [left; reflexivity
                   | right; apply list_elem_of_In; simpl; tauto]|]).
    by apply elem_of_nil in Hin. }
  split; [apply Hnodup; vm_compute; reflexivity|].
  split; [apply Hnodup; vm_compute; reflexivity|].
  split; [by left | right; by left].
Qed.

(** ** Further scenarios on the concrete pool *)

Section MoreScenarios.
Local Existing Instances IPv4_Netip examplePackage exampleNetwork SortedRange
  exampleJson specWrite.

Lemma GeneratePredictableIPMaps_agrees_with_GetPodPredictableIP_witness :
  (forall i v, (i < Z.to_nat 2)%nat ->
     (GeneratePredictableIPMaps examplePool 2 3).1 !! bindKey i = Some v <->
     GetPodPredictableIP examplePool (Z.of_nat i) = Ok v) /\
  (forall j v, (j < Z.to_nat 3)%nat ->
     (GeneratePredictableIPMaps examplePool 2 3).2 !! mdnsKey j = Some v <->
     GetPodPredictableIP examplePool (Z.of_nat (Z.to_nat 2 + j)) = Ok v).
Proof.
  apply (GeneratePredictableIPMaps_agrees_with_GetPodPredictableIP examplePool 2 3).
  vm_compute. discriminate.
Defined.

Lemma isDesignatePod_StatefulSet_pod_witness :
  isDesignatePod (examplePod "designate-mdns-3" None None) = true /\
  ExtractPodIndexFromName "designate-mdns-3" = Ok 3.
Proof.
  apply (isDesignatePod_StatefulSet_pod
           (examplePod "designate-mdns-3" None None) "designate-mdns" 3).
  - apply list_elem_of_In. simpl. tauto.
  - unfold maxInt. lia.
  - reflexivity.
Defined.

Lemma allocatePredictableIPs_holders_witness :
  let existing : Table := {[ "pod_1" := "10.0.0.9"; "stale" := "10.0.0.7" ]} in
  let updated : Table := {[ "pod_0" := "10.0.0.1"; "pod_1" := "10.0.0.9" ]} in
  allocatePredictableIPs 8 examplePool ["pod_0"; "pod_1"] existing ∅
  = Some (Ok (updated, ∅)) /\
  updated !! "pod_1" = Some "10.0.0.9" /\ updated !! "stale" = None.
Proof.
  intros existing updated.
  assert (Hrun : allocatePredictableIPs 8 examplePool ["pod_0"; "pod_1"] existing ∅
                 = Some (Ok (updated, ∅))) by (vm_compute; reflexivity).
  destruct (allocatePredictableIPs_holders _ _ _ _ _ _ _ Hrun)
    as (Hkeys & Hkeep).
  split; [exact Hrun|]. split.
  - apply Hkeep; [apply list_elem_of_In; simpl; tauto | vm_compute; reflexivity].
  - destruct (updated !! "stale") as [v|] eqn:Hstale; [|reflexivity]. exfalso.
    assert (Hin : "stale" ∈ ["pod_0"; "pod_1"]) by (apply Hkeys; eauto).
    apply list_elem_of_In in Hin. simpl in Hin.
    destruct Hin as [?|[?|[]]]; discriminate.
Defined.

Lemma AllocateIP_failure_changes_nothing_witness :
  AllocateIP exampleManager 8 unreadablePoolClient (CIDR examplePool) 0
  = Some (Err (Wrapf "failed to handle ConfigMap" (StatusOther "InternalError")),
          unreadablePoolClient) /\
  "failed to handle ConfigMap" ∈ allocationSteps.
Proof.
  assert (Hrun : AllocateIP exampleManager 8 unreadablePoolClient (CIDR examplePool) 0
                 = Some (Err (Wrapf "failed to handle ConfigMap"
                                (StatusOther "InternalError")),
                         unreadablePoolClient)) by (vm_compute; reflexivity).
  split; [exact Hrun|].
  destruct (AllocateIP_failure_changes_nothing _ _ _ _ _ _ _ Hrun)
    as (_ & (msg & inner & Hshape & Hmsg) & _).
  injection Hshape as -> _. exact Hmsg.
Defined.

Lemma AllocateIP_touches_own_record_only_witness :
  let c := clientWith ("openstack", "designate-bind-ip-map")
             {[ "bind_address_0" := "10.0.0.1" ]} in
  let c' := storeConfigMap c (poolKey exampleManager)
              (written exampleManager 0 "10.0.0.2") in
  AllocateIP exampleManager 8 c (CIDR examplePool) 0 = Some (Ok "10.0.0.2", c') /\
  configMaps c' !! ("openstack", "designate-bind-ip-map")
  = configMaps c !! ("openstack", "designate-bind-ip-map").
Proof.
  intros c c'.
  assert (Hrun : AllocateIP exampleManager 8 c (CIDR examplePool) 0
                 = Some (Ok "10.0.0.2", c')) by (vm_compute; reflexivity).
  split; [exact Hrun|].
  apply (proj1 (AllocateIP_touches_own_record_only _ _ _ _ _ _ _ Hrun)).
  vm_compute. discriminate.
Defined.

Lemma ReleaseIP_then_IsIPAllocated_witness :
  let c := clientWith (poolKey exampleManager)
             {[ "pod_0" := "10.0.0.1"; "pod_1" := "10.0.0.2" ]} in
  let c' := clientWith (poolKey exampleManager) {[ "pod_0" := "10.0.0.1" ]} in
  ReleaseIP exampleManager c "10.0.0.2" = (None, c') /\
  IsIPAllocated exampleManager c' "10.0.0.1"
  = IsIPAllocated exampleManager c "10.0.0.1".
Proof.
  intros c c'.
  assert (Hrun : ReleaseIP exampleManager c "10.0.0.2" = (None, c'))
    by (vm_compute; reflexivity).
  split; [exact Hrun|].
  apply (proj2 (ReleaseIP_then_IsIPAllocated _ _ _ _ Hrun)). discriminate.
Defined.

Lemma Reconcile_result_is_zero_witness :
  let evs := [EvLogInfo "Reconciling Pod for predictable IP annotations";
              EvLogError (StatusOther "Timeout") "Failed to get Pod"] in
  Reconcile 8 acceptingAPI emptyClient (Err (StatusOther "Timeout"))
  = Some ((noRequeue, Some (StatusOther "Timeout")), emptyClient, evs) /\
  exists msg, EvLogError (StatusOther "Timeout") msg ∈ evs.
Proof.
  intros evs.
  assert (Hrun : Reconcile 8 acceptingAPI emptyClient (Err (StatusOther "Timeout"))
                 = Some ((noRequeue, Some (StatusOther "Timeout")), emptyClient, evs))
    by reflexivity.
  split; [exact Hrun|].
  destruct (Reconcile_result_is_zero _ _ _ _ _ _ _ _ Hrun) as (_ & Hlog & _).
  by apply Hlog.
Defined.

Lemma Reconcile_changes_one_ConfigMap_witness :
  exists out evs c',
    Reconcile 8 acceptingAPI emptyClient
      (Ok (examplePod "designate-mdns-0" None None)) = Some (out, c', evs) /\
    configMaps c' !! ("designate", "designate-designate") = None.
Proof.
  destruct (Reconcile 8 acceptingAPI emptyClient
              (Ok (examplePod "designate-mdns-0" None None)))
    as [[[out c'] evs]|] eqn:Hrun; [|vm_compute in Hrun; discriminate].
  exists out, evs, c'. split; [reflexivity|].
  destruct (Reconcile_changes_one_ConfigMap _ _ _ _ _ _ _ Hrun) as (name & _ & Hns).
  rewrite Hns by discriminate. reflexivity.
Defined.

Lemma Reconcile_annotates_with_allocation_witness :
  let c1 := storeConfigMap emptyClient (poolKey exampleManager)
              (written exampleManager 0 "10.0.0.1") in
  exists r evs,
    Reconcile 8 acceptingAPI emptyClient
      (Ok (examplePod "designate-mdns-0" None None))
    = Some ((noRequeue, r), c1, evs) /\
    releases evs = [].
Proof.
  intros c1.
  destruct (Reconcile_annotates_with_allocation 8 acceptingAPI emptyClient
              (examplePod "designate-mdns-0" None None) 0 "designate"
              examplePool "10.0.0.1" c1)
    as (r & evs & Hrun & _ & _ & Hrel);
    [vm_compute; reflexivity | reflexivity | reflexivity | discriminate
    | discriminate | vm_compute; reflexivity | reflexivity
    | vm_compute; reflexivity |].
  exists r, evs. auto.
Defined.

Lemma handlePodDeletion_releases_what_was_allocated_witness :
  let annotations : Table :=
    <["designate.openstack.org/ipset-name" := "designate-designate"]>
      (<["designate.openstack.org/pod-index" := "0"]>
         (<["designate.openstack.org/predictable-ip" := "10.0.0.1"]>
            (<["k8s.v1.cni.cncf.io/networks" := "[]"]> ∅))) in
  let c1 := storeConfigMap emptyClient (poolKey exampleManager)
              (written exampleManager 0 "10.0.0.1") in
  createIPSetAnnotations 8 emptyClient "designate" "designate" 0 examplePool
  = Some (Ok annotations, c1,
          [EvLogInfo "Allocated IP 10.0.0.1 for pod index 0 via ipset ConfigMap"]) /\
  releases
    (handlePodDeletion c1
       (withAnnotations (examplePod "designate-mdns-0" None (Some 1700000000))
          (mergeAnnotations None annotations))).2
  = [("designate-designate", "10.0.0.1")].
Proof.
  intros annotations c1.
  assert (Ha : AllocateIP (NewIPSetManager ("designate-" +:+ "designate") "openstack")
                 8 emptyClient (CIDR examplePool) 0 = Some (Ok "10.0.0.1", c1))
    by (vm_compute; reflexivity).
  assert (Hrun : createIPSetAnnotations 8 emptyClient "designate" "designate" 0
                   examplePool
                 = Some (Ok annotations, c1,
                         [EvLogInfo
                            "Allocated IP 10.0.0.1 for pod index 0 via ipset ConfigMap"])).
  { unfold createIPSetAnnotations. cbv zeta. rewrite Ha. reflexivity. }
  split; [exact Hrun|].
  destruct (handlePodDeletion_releases_what_was_allocated _ _ _ _ _ _ _ _ _
              (examplePod "designate-mdns-0" None (Some 1700000000)) c1 Hrun)
    as (ip & Ha' & Hrel & _).
  rewrite Ha in Ha'. assert (Hip : ip = "10.0.0.1") by congruence. subst ip.
  destruct Hrel as [_ Hr]; [discriminate | exact Hr].
Defined.

Lemma Reconcile_fails_before_allocation_witness :
  exists evs,
    Reconcile 8 acceptingAPI unreadablePoolClient
      (Ok (examplePod "designate-mdns-0" None None))
    = Some ((noRequeue,
             Some (Wrapf "failed to allocate IP via ipset ConfigMap"
                     (Wrapf "failed to handle ConfigMap"
                        (StatusOther "InternalError")))),
            unreadablePoolClient, evs) /\
    updateAttempts evs = [] /\ releases evs = [].
Proof.
  destruct (Reconcile_fails_before_allocation 8 acceptingAPI unreadablePoolClient
              (examplePod "designate-mdns-0" None None))
    as (_ & _ & Halloc);
    [vm_compute; reflexivity | reflexivity | reflexivity | discriminate
    | discriminate |].
  apply (Halloc 0 "designate" examplePool
           (Wrapf "failed to handle ConfigMap" (StatusOther "InternalError"))
           unreadablePoolClient);
    [vm_compute; reflexivity | reflexivity | vm_compute; reflexivity].
Defined.

End MoreScenarios.
